(** * openapi_llm_ready: the schema renderer of [main.py]

    A shallow embedding of the reference resolver ([resolve_ref]), the
    recursive schema renderer ([format_schema]), the parameter, request-body,
    response and endpoint formatters, and the tag-grouping step and the
    one-file-per-category branch of [generate_category_docs], together
    with the properties of the specification that concern them.

    Python values are the values [json.load] produces: [None], booleans,
    integers, strings, lists and insertion-ordered dictionaries with string
    keys.  Numbers are the integers (a JSON number with a fraction or an
    exponent becomes a Python float, which is outside this model).  Strings
    are UTF-8 byte sequences; [upper] and [lower] on method names act on
    the ASCII letters, [lower] on tags is a parameter, and [repr] takes
    every character outside ASCII as printable.

    Exceptions are results ([outcome]).  The recursion of [format_schema]
    is modelled with a budget of nested calls and shown to need only a
    finite one; the interpreter's own limit on the depth of the call stack
    is not part of the model. *)

From Stdlib Require Import ZArith Ascii String List DecimalString DecimalZ.
From stdpp Require Import base decidable countable gmap strings list sorting.
Import ListNotations.
Local Open Scope string_scope.
Set Warnings "-register-all,-clear-no-such-hyp".

(** ** Values *)

Inductive json : Type :=
| JNull
| JBool (b : bool)
| JNum (z : Z)
| JStr (s : string)
| JArr (xs : list json)
| JObj (kvs : list (string * json)).

(** A Python [dict] keeps its entries in insertion order and has no repeated
    key; subscripting finds the entry of a key. *)
Abbreviation dict := (list (string * json)).

Fixpoint dict_get (k : string) (d : dict) : option json :=
  match d with
  | [] => None
  | (k', v) :: d' => if String.eqb k k' then Some v else dict_get k d'
  end.

(** [k in d] *)
Definition dict_has (k : string) (d : dict) : bool :=
  match dict_get k d with Some _ => true | None => false end.

(** [d.get(k, default)] *)
Definition dict_get_default (k : string) (dflt : json) (d : dict) : json :=
  match dict_get k d with Some v => v | None => dflt end.

(** The dictionary without the key [k]. *)
Fixpoint dict_remove (k : string) (d : dict) : dict :=
  match d with
  | [] => []
  | (k', v) :: d' =>
      if String.eqb k k' then dict_remove k d' else (k', v) :: dict_remove k d'
  end.

(** ** Exceptions *)

(** The exceptions the code raises on the values of [json.load].
    [RecursionError], which the interpreter raises when calls nest deeper
    than its limit, is outside the model. *)
Inductive exn : Type := TypeError | AttributeError.

Inductive outcome (A : Type) : Type :=
| Ok (a : A)
| Raise (e : exn).
Arguments Ok {A} a.
Arguments Raise {A} e.

Definition obind {A B} (m : outcome A) (f : A -> outcome B) : outcome B :=
  match m with
  | Ok a => f a
  | Raise e => Raise e
  end.

(** ** Truthiness, equality, hashing *)

(** [bool(v)] *)
Definition truthy (v : json) : bool :=
  match v with
  | JNull => false
  | JBool b => b
  | JNum z => negb (Z.eqb z 0)
  | JStr s => match s with EmptyString => false | String _ _ => true end
  | JArr xs => match xs with [] => false | _ => true end
  | JObj kvs => match kvs with [] => false | _ => true end
  end.

(** Hashable values as set members and dictionary keys: [True] and [1] are
    the same member, [False] and [0] too. *)
Inductive hkey : Type :=
| HNone
| HInt (z : Z)
| HStr (s : string).

Global Instance hkey_eq_dec : EqDecision hkey.
Proof. solve_decision. Defined.

Global Instance hkey_countable : Countable hkey.
Proof.
  refine (inj_countable'
    (fun k => match k with
              | HNone => inl (inl tt)
              | HInt z => inl (inr z)
              | HStr s => inr s
              end)
    (fun c => match c with
              | inl (inl _) => HNone
              | inl (inr z) => HInt z
              | inr s => HStr s
              end) _).
  intros []; reflexivity.
Defined.

(** [hash(v)]: lists and dictionaries are unhashable ([TypeError]). *)
Definition hash_key (v : json) : outcome hkey :=
  match v with
  | JNull => Ok HNone
  | JBool b => Ok (HInt (if b then 1 else 0))
  | JNum z => Ok (HInt z)
  | JStr s => Ok (HStr s)
  | JArr _ | JObj _ => Raise TypeError
  end.

(** [v == s] for a string [s] *)
Definition eq_str (v : json) (s : string) : bool :=
  match v with JStr s' => String.eqb s' s | _ => false end.

(** [v in [True, False]] *)
Definition is_bool_like (v : json) : bool :=
  match v with
  | JBool _ => true
  | JNum z => Z.eqb z 0 || Z.eqb z 1
  | _ => false
  end.

(** ** Strings *)

Definition str_startswith (pre s : string) : bool := String.prefix pre s.

(** [s[n:]] *)
Fixpoint str_drop (n : nat) (s : string) : string :=
  match n, s with
  | O, _ => s
  | S n', String _ s' => str_drop n' s'
  | S _, EmptyString => EmptyString
  end.

(** [s.split(c)] for a one-character separator: always at least one piece. *)
Fixpoint str_split (c : ascii) (s : string) : list string :=
  match s with
  | EmptyString => [EmptyString]
  | String a s' =>
      if Ascii.eqb a c then EmptyString :: str_split c s'
      else match str_split c s' with
           | [] => [String a EmptyString]
           | piece :: rest => String a piece :: rest
           end
  end.

(** [sub in s] on strings *)
Fixpoint str_contains (sub s : string) : bool :=
  if String.prefix sub s then true
  else match s with
       | EmptyString => false
       | String _ s' => str_contains sub s'
       end.

(** [sep.join(pieces)] *)
Fixpoint str_join (sep : string) (pieces : list string) : string :=
  match pieces with
  | [] => EmptyString
  | [p] => p
  | p :: rest => p ++ sep ++ str_join sep rest
  end.

(** ["  " * n] *)
Fixpoint str_repeat (s : string) (n : nat) : string :=
  match n with
  | O => EmptyString
  | S n' => s ++ str_repeat s n'
  end.

Definition ascii_upper (a : ascii) : ascii :=
  let n := nat_of_ascii a in
  if (97 <=? n)%nat && (n <=? 122)%nat then ascii_of_nat (n - 32) else a.

Definition ascii_lower (a : ascii) : ascii :=
  let n := nat_of_ascii a in
  if (65 <=? n)%nat && (n <=? 90)%nat then ascii_of_nat (n + 32) else a.

Fixpoint str_map (f : ascii -> ascii) (s : string) : string :=
  match s with
  | EmptyString => EmptyString
  | String a s' => String (f a) (str_map f s')
  end.

(** [s.upper()] and [s.lower()], on the ASCII letters. *)
Definition str_upper : string -> string := str_map ascii_upper.
Definition str_lower : string -> string := str_map ascii_lower.

(** [s.replace(a, b)] for one-character [a] and [b]. *)
Definition str_replace_char (a b : ascii) : string -> string :=
  str_map (fun c => if Ascii.eqb c a then b else c).

(** The characters of a string, as [for c in s] yields them: a byte that is
    not a UTF-8 continuation byte starts a character. *)
Definition is_continuation (a : ascii) : bool :=
  let n := nat_of_ascii a in (128 <=? n)%nat && (n <? 192)%nat.

Fixpoint str_chars (s : string) : list string :=
  match s with
  | EmptyString => []
  | String a s' =>
      match str_chars s' with
      | [] => [String a EmptyString]
      | c :: rest =>
          match s' with
          | String b _ =>
              if is_continuation b then String a c :: rest
              else String a EmptyString :: c :: rest
          | EmptyString => String a EmptyString :: c :: rest
          end
      end
  end.

(** [str(z)] for an integer. *)
Definition str_of_Z (z : Z) : string := NilZero.string_of_int (Z.to_int z).

Definition hex_digit (n : nat) : ascii :=
  ascii_of_nat (if (n <? 10)%nat then 48 + n else 87 + n).

(** [repr(s)] for a string: single quotes unless the string has a single
    quote and no double quote; backslash, the chosen quote, tab, newline and
    carriage return are escaped, other control characters are written
    [\xNN]; every other character is kept. *)
Definition repr_char (q : ascii) (a : ascii) : string :=
  let n := nat_of_ascii a in
  if Ascii.eqb a "\"%char then "\\"
  else if Ascii.eqb a q then String "\"%char (String q EmptyString)
  else if (n =? 9)%nat then "\t"
  else if (n =? 10)%nat then "\n"
  else if (n =? 13)%nat then "\r"
  else if (n <? 32)%nat || (n =? 127)%nat then
    String "\"%char (String "x"%char
      (String (hex_digit (n / 16)) (String (hex_digit (n mod 16)) EmptyString)))
  else String a EmptyString.

Definition dquote : ascii := "034"%char.

Fixpoint str_has_char (c : ascii) (s : string) : bool :=
  match s with
  | EmptyString => false
  | String a s' => Ascii.eqb a c || str_has_char c s'
  end.

Definition repr_str (s : string) : string :=
  let q := if str_has_char "'"%char s && negb (str_has_char dquote s)
           then dquote else "'"%char in
  String q (String.concat EmptyString (map (repr_char q) (list_ascii_of_string s)))
  ++ String q EmptyString.

(** The newline character. *)
Definition nl : string := String "010"%char EmptyString.

(** [repr(v)] and [str(v)], the latter being what an f-string writes. *)
Fixpoint py_repr (v : json) : string :=
  match v with
  | JNull => "None"
  | JBool b => if b then "True" else "False"
  | JNum z => str_of_Z z
  | JStr s => repr_str s
  | JArr xs => "[" ++ str_join ", " (map py_repr xs) ++ "]"
  | JObj kvs =>
      "{" ++ str_join ", "
               (map (fun kv => repr_str (fst kv) ++ ": " ++ py_repr (snd kv)) kvs)
          ++ "}"
  end.

Definition py_str (v : json) : string :=
  match v with
  | JStr s => s
  | _ => py_repr v
  end.

(** [for x in v]: a list yields its elements, a string its characters, a
    dictionary its keys; anything else is not iterable. *)
Definition py_iter (v : json) : outcome (list json) :=
  match v with
  | JArr xs => Ok xs
  | JStr s => Ok (map JStr (str_chars s))
  | JObj kvs => Ok (map (fun kv => JStr (fst kv)) kvs)
  | JNull | JBool _ | JNum _ => Raise TypeError
  end.

(** [v.items()]: only a dictionary has the method. *)
Definition py_items (v : json) : outcome dict :=
  match v with
  | JObj kvs => Ok kvs
  | _ => Raise AttributeError
  end.

(** [x in v] for a string [x]: element of a list, substring of a string, key
    of a dictionary. *)
Definition py_contains (x : string) (v : json) : outcome bool :=
  match v with
  | JArr xs => Ok (existsb (fun e => eq_str e x) xs)
  | JStr s => Ok (str_contains x s)
  | JObj kvs => Ok (dict_has x kvs)
  | JNull | JBool _ | JNum _ => Raise TypeError
  end.

(** [', '.join(f'`{e}`' for e in v)] *)
Definition join_ticked (v : json) : outcome string :=
  obind (py_iter v) (fun xs =>
    Ok (str_join ", " (map (fun e => "`" ++ py_str e ++ "`") xs))).

(** ** Reference Resolver *)

(** The loop of [resolve_ref]; [JNull] is Python's [None]. *)
Fixpoint resolve_walk (parts : list string) (current : json) : json :=
  match parts with
  | [] => current
  | part :: rest =>
      match current with
      | JObj d =>
          match dict_get part d with
          | Some v => resolve_walk rest v
          | None => JNull
          end
      | _ => JNull
      end
  end.

Definition resolve_ref (ref_path : string) (openapi_spec : json) : json :=
  if negb (str_startswith "#/" ref_path) then JNull
  else resolve_walk (str_split "/"%char (str_drop 2 ref_path)) openapi_spec.

(** [resolve_ref] as [format_schema] calls it, on whatever value sits under
    [$ref]: only a string has [startswith]. *)
Definition resolve_ref_value (ref_path : json) (openapi_spec : json) : outcome json :=
  match ref_path with
  | JStr p => Ok (resolve_ref p openapi_spec)
  | _ => Raise AttributeError
  end.

(** ** Schema Renderer *)

(** The visited-set [seen_refs]. *)
Abbreviation refset := (gset hkey).

(** The record of one call of [format_schema]: its arguments, what it
    returned or raised, and the calls it made itself, in order. *)
Inductive call_tree : Type :=
| Call (node : json) (indent : nat) (seen : refset) (out : outcome string)
       (subs : list call_tree).

(** What a call of [format_schema] leaves behind: the string it returns (or
    the exception), the final content of the set object it was given as
    [seen_refs], and the recursive calls it made. *)
Record run : Type := Run {
  r_out : outcome string;
  r_seen : refset;
  r_calls : list call_tree
}.

(** Computations that may raise and that log the recursive calls they make;
    [None] when the recursion budget is used up. *)
Definition W (A : Type) : Type := option (outcome A * list call_tree).

Definition wret {A} (a : A) : W A := Some (Ok a, []).

Definition wlift {A} (o : outcome A) : W A := Some (o, []).

Definition wbind {A B} (m : W A) (f : A -> W B) : W B :=
  match m with
  | None => None
  | Some (Raise e, log) => Some (Raise e, log)
  | Some (Ok a, log) =>
      match f a with
      | None => None
      | Some (o, log') => Some (o, (log ++ log')%list)
      end
  end.

Notation "'let*' x ':=' m 'in' k" := (wbind m (fun x => k))
  (at level 10, x name, m at level 100, k at level 200).

(** [result += s1; result += s2; ...] *)
Fixpoint wconcat (steps : list (W string)) : W string :=
  match steps with
  | [] => wret EmptyString
  | st :: rest =>
      let* a := st in
      let* b := wconcat rest in
      wret (a ++ b)
  end.

(** The type of [format_schema] once the recursion budget is fixed. *)
Abbreviation renderer := (json -> json -> nat -> refset -> bool -> option run).

(** A recursive call [format_schema(node, openapi_spec, indent,
    seen_refs.copy(), inline_refs)]: the callee works on a copy of the set,
    so what it adds to it is dropped with the copy. *)
Definition wcall (rec : renderer) (node openapi_spec : json) (indent : nat)
    (seen_refs : refset) (inline_refs : bool) : W string :=
  match rec node openapi_spec indent seen_refs inline_refs with
  | None => None
  | Some r => Some (r_out r, [Call node indent seen_refs (r_out r) (r_calls r)])
  end.

Definition circular_marker : string := "  *(circular reference, see definition above)*".
Definition resolved_header : string := "  **Resolved Definition**:".
Definition unresolved_marker : string := "  *(unable to resolve reference)*".

(** The line [- **$ref**: `path`]. *)
Definition ref_bullet (indent_str : string) (ref_path : json) : string :=
  indent_str ++ "- **$ref**: `" ++ py_str ref_path ++ "`" ++ nl.

(** The branch [if "$ref" in schema]. *)
Definition format_ref (rec : renderer) (ref_path openapi_spec : json)
    (indent : nat) (seen_refs : refset) (inline_refs : bool) : option run :=
  let indent_str := str_repeat "  " indent in
  let result := ref_bullet indent_str ref_path in
  match hash_key ref_path with
  | Raise e => Some (Run (Raise e) seen_refs [])
  | Ok k =>
      if bool_decide (k ∈ seen_refs) then
        Some (Run (Ok (result ++ indent_str ++ circular_marker ++ nl)) seen_refs [])
      else
        let seen_refs := {[k]} ∪ seen_refs in
        if inline_refs then
          match resolve_ref_value ref_path openapi_spec with
          | Raise e => Some (Run (Raise e) seen_refs [])
          | Ok resolved =>
              if truthy resolved then
                match wcall rec resolved openapi_spec (indent + 1) seen_refs inline_refs with
                | None => None
                | Some (o, calls) =>
                    Some (Run (obind o (fun sub =>
                                 Ok (result ++ indent_str ++ resolved_header ++ nl ++ sub)))
                              seen_refs calls)
                end
              else
                Some (Run (Ok (result ++ indent_str ++ unresolved_marker ++ nl))
                          seen_refs [])
          end
        else Some (Run (Ok result) seen_refs [])
  end.

(** [- **Label**: `value`] when the key is present. *)
Definition facet_ticked (indent_str label key : string) (schema : dict) : string :=
  match dict_get key schema with
  | Some v => indent_str ++ "- **" ++ label ++ "**: `" ++ py_str v ++ "`" ++ nl
  | None => EmptyString
  end.

(** [- **Label**: value] when the key is present. *)
Definition facet_plain (indent_str label key : string) (schema : dict) : string :=
  match dict_get key schema with
  | Some v => indent_str ++ "- **" ++ label ++ "**: " ++ py_str v ++ nl
  | None => EmptyString
  end.

Section Facets.
Variable rec : renderer.
Variable schema : dict.
Variable openapi_spec : json.
Variable indent : nat.
Variable seen_refs : refset.
Variable inline_refs : bool.

Let indent_str := str_repeat "  " indent.

Definition enum_step : W string :=
  match dict_get "enum" schema with
  | Some v =>
      let* joined := wlift (join_ticked v) in
      wret (indent_str ++ "- **Enum**: " ++ joined ++ nl)
  | None => wret EmptyString
  end.

Definition property_step (prop : string * json) : W string :=
  let '(prop_name, prop_schema) := prop in
  let* is_required :=
    wlift (py_contains prop_name (dict_get_default "required" (JArr []) schema)) in
  let required_marker := if is_required then " *(required)*" else EmptyString in
  let* sub := wcall rec prop_schema openapi_spec (indent + 2) seen_refs inline_refs in
  wret (indent_str ++ "  - **`" ++ prop_name ++ "`**" ++ required_marker ++ ":" ++ nl ++ sub).

Definition properties_step : W string :=
  match dict_get "properties" schema with
  | Some props =>
      let* items := wlift (py_items props) in
      let* body := wconcat (map property_step items) in
      wret (indent_str ++ "- **Properties**:" ++ nl ++ body)
  | None => wret EmptyString
  end.

Definition items_step : W string :=
  match dict_get "items" schema with
  | Some item_schema =>
      let* sub := wcall rec item_schema openapi_spec (indent + 1) seen_refs inline_refs in
      wret (indent_str ++ "- **Items**:" ++ nl ++ sub)
  | None => wret EmptyString
  end.

Definition option_step (i : nat) (sub_schema : json) : W string :=
  let* sub := wcall rec sub_schema openapi_spec (indent + 2) seen_refs inline_refs in
  wret (indent_str ++ "  - Option " ++ str_of_Z (Z.of_nat (i + 1)) ++ ":" ++ nl ++ sub).

Definition composition_step (key : string) : W string :=
  match dict_get key schema with
  | Some options =>
      let* subs := wlift (py_iter options) in
      let* body := wconcat (imap option_step subs) in
      wret (indent_str ++ "- **" ++ key ++ "**:" ++ nl ++ body)
  | None => wret EmptyString
  end.

Definition additional_step : W string :=
  match dict_get "additionalProperties" schema with
  | Some ap =>
      if negb (is_bool_like ap) then
        let* sub := wcall rec ap openapi_spec (indent + 1) seen_refs inline_refs in
        wret (indent_str ++ "- **Additional Properties**:" ++ nl ++ sub)
      else wret EmptyString
  | None => wret EmptyString
  end.

Definition required_step : W string :=
  match dict_get "required" schema with
  | Some req =>
      if negb (eq_str (dict_get_default "type" JNull schema) "object") then
        let* joined := wlift (join_ticked req) in
        wret (indent_str ++ "- **Required**: " ++ joined ++ nl)
      else wret EmptyString
  | None => wret EmptyString
  end.

(** The facets of a schema without [$ref], in the order of the source. *)
Definition format_facets : W string :=
  wconcat
    ([ wret (facet_ticked indent_str "Type" "type" schema);
       wret (facet_plain indent_str "Description" "description" schema);
       wret (facet_plain indent_str "Title" "title" schema);
       enum_step;
       wret (facet_ticked indent_str "Default" "default" schema);
       wret (facet_ticked indent_str "Format" "format" schema);
       properties_step;
       items_step ]
     ++ map composition_step ["allOf"; "anyOf"; "oneOf"]
     ++ [ additional_step;
          required_step;
          wret (facet_ticked indent_str "Example" "example" schema);
          wret (facet_ticked indent_str "Pattern" "pattern" schema) ]
     ++ map (fun constraint => wret (facet_ticked indent_str constraint constraint schema))
            ["minimum"; "maximum"; "minLength"; "maxLength"; "minItems"; "maxItems"]
    )%list.
End Facets.

(** The body of [format_schema], its recursive calls going through [rec]. *)
Definition format_schema_body (rec : renderer) (schema openapi_spec : json)
    (indent : nat) (seen_refs : refset) (inline_refs : bool) : option run :=
  match schema with
  | JObj d =>
      match dict_get "$ref" d with
      | Some ref_path => format_ref rec ref_path openapi_spec indent seen_refs inline_refs
      | None =>
          match format_facets rec d openapi_spec indent seen_refs inline_refs with
          | None => None
          | Some (o, calls) => Some (Run o seen_refs calls)
          end
      end
  | _ =>
      Some (Run (Ok (str_repeat "  " indent ++ "- `" ++ py_str schema ++ "`" ++ nl))
                seen_refs [])
  end.

(** [format_schema], with a budget of nested calls; [None] stands for a
    budget that ran out, which [format_schema_terminates] below shows never
    happens once the budget is large enough. *)
Fixpoint format_schema (fuel : nat) : renderer :=
  match fuel with
  | O => fun _ _ _ _ _ => None
  | S fuel' => format_schema_body (format_schema fuel')
  end.

(** A call that leaves [seen_refs] out: the default [None] becomes a fresh
    empty set. *)
Definition format_schema_fresh (fuel : nat) (schema openapi_spec : json)
    (indent : nat) (inline_refs : bool) : option run :=
  format_schema fuel schema openapi_spec indent ∅ inline_refs.

(** ** Parameter, request-body and response formatters *)

(** [v.get]: only a dictionary has the method. *)
Definition as_dict (v : json) : outcome dict :=
  match v with
  | JObj d => Ok d
  | _ => Raise AttributeError
  end.

(** [if key in v: ... v[key] ...] on an arbitrary value: a dictionary gives
    the entry when it has one; a list or a string that contains [key] cannot
    be subscripted by it; other values do not support [in]. *)
Definition guarded_get (key : string) (v : json) : outcome (option json) :=
  match v with
  | JObj d => Ok (dict_get key d)
  | _ => obind (py_contains key v) (fun b => if b then Raise TypeError else Ok None)
  end.

Section Formatters.
Variable fuel : nat.
Variable openapi_spec : json.
Variable inline_refs : bool.

(** [format_schema(schema, openapi_spec, indent=n, inline_refs=inline_refs)] *)
Definition schema_at (n : nat) (schema : json) : W string :=
  wcall (format_schema fuel) schema openapi_spec n ∅ inline_refs.

Definition parameter_step (param : json) : W string :=
  let* p := wlift (as_dict param) in
  let param_name := dict_get_default "name" (JStr "unknown") p in
  let param_in := dict_get_default "in" (JStr "unknown") p in
  let required :=
    if truthy (dict_get_default "required" (JBool false) p)
    then "**Required**" else "Optional" in
  let description := dict_get_default "description" (JStr EmptyString) p in
  let head :=
    "- **`" ++ py_str param_name ++ "`** (" ++ py_str param_in ++ ") - " ++ required ++ nl in
  let descr :=
    if truthy description then "  - Description: " ++ py_str description ++ nl
    else EmptyString in
  let* sch :=
    match dict_get "schema" p with
    | Some schema =>
        let* sub := schema_at 2 schema in
        wret ("  - Schema:" ++ nl ++ sub)
    | None => wret EmptyString
    end in
  wret (head ++ descr ++ sch ++ nl).

Definition format_parameters (parameters : json) : W string :=
  if negb (truthy parameters) then wret ("*No parameters*" ++ nl ++ nl)
  else
    let* params := wlift (py_iter parameters) in
    wconcat (map parameter_step params).

(** One entry of a [content] mapping. *)
Definition content_step (entry : string * json) : W string :=
  let '(content_type, content_spec) := entry in
  let* schema := wlift (guarded_get "schema" content_spec) in
  let* sub :=
    match schema with
    | Some sch => schema_at 1 sch
    | None => wret EmptyString
    end in
  wret ("- **`" ++ content_type ++ "`**:" ++ nl ++ sub ++ nl).

Definition format_request_body (request_body : json) : W string :=
  if negb (truthy request_body) then wret ("*No request body*" ++ nl ++ nl)
  else
    let* rb := wlift (as_dict request_body) in
    let required := dict_get_default "required" (JBool false) rb in
    let head := "**Required**: " ++ py_str required ++ nl ++ nl in
    let descr :=
      match dict_get "description" rb with
      | Some d => "**Description**: " ++ py_str d ++ nl ++ nl
      | None => EmptyString
      end in
    let* content :=
      match dict_get "content" rb with
      | Some c =>
          let* items := wlift (py_items c) in
          let* body := wconcat (map content_step items) in
          wret ("**Content Types**:" ++ nl ++ nl ++ body)
      | None => wret EmptyString
      end in
    wret (head ++ descr ++ content).

Definition response_step (entry : string * json) : W string :=
  let '(status_code, response_spec) := entry in
  let head := "### Response: `" ++ status_code ++ "`" ++ nl ++ nl in
  let* description := wlift (guarded_get "description" response_spec) in
  let descr :=
    match description with
    | Some d => "**Description**: " ++ py_str d ++ nl ++ nl
    | None => EmptyString
    end in
  let* content := wlift (guarded_get "content" response_spec) in
  let* cont :=
    match content with
    | Some c =>
        let* items := wlift (py_items c) in
        let* body := wconcat (map content_step items) in
        wret ("**Content**:" ++ nl ++ nl ++ body)
    | None => wret EmptyString
    end in
  wret (head ++ descr ++ cont ++ "---" ++ nl ++ nl).

Definition format_responses (responses : json) : W string :=
  if negb (truthy responses) then wret ("*No responses defined*" ++ nl ++ nl)
  else
    let* items := wlift (py_items responses) in
    wconcat (map response_step items).

(** ** Endpoint Renderer *)

Definition endpoint_heading (path method : string) (endpoint_data : dict) : W string :=
  let title := "## `" ++ str_upper method ++ " " ++ path ++ "`" ++ nl ++ nl in
  let summary :=
    match dict_get "summary" endpoint_data with
    | Some v => "**Summary**: " ++ py_str v ++ nl ++ nl
    | None => EmptyString
    end in
  let description :=
    match dict_get "description" endpoint_data with
    | Some v => "**Description**: " ++ py_str v ++ nl ++ nl
    | None => EmptyString
    end in
  let operation_id :=
    match dict_get "operationId" endpoint_data with
    | Some v => "**Operation ID**: `" ++ py_str v ++ "`" ++ nl ++ nl
    | None => EmptyString
    end in
  let* tags :=
    match dict_get "tags" endpoint_data with
    | Some v =>
        let* joined := wlift (join_ticked v) in
        wret ("**Tags**: " ++ joined ++ nl ++ nl)
    | None => wret EmptyString
    end in
  wret (title ++ summary ++ description ++ operation_id ++ tags ++ "---" ++ nl ++ nl).

(** [if "parameters" in endpoint_data and endpoint_data["parameters"]] *)
Definition parameters_section (endpoint_data : dict) : W string :=
  match dict_get "parameters" endpoint_data with
  | Some parameters =>
      if truthy parameters then
        let* body := format_parameters parameters in
        wret ("### Parameters" ++ nl ++ nl ++ body)
      else wret EmptyString
  | None => wret EmptyString
  end.

Definition request_body_section (endpoint_data : dict) : W string :=
  match dict_get "requestBody" endpoint_data with
  | Some request_body =>
      let* body := format_request_body request_body in
      wret ("### Request Body" ++ nl ++ nl ++ body)
  | None => wret EmptyString
  end.

Definition responses_section (endpoint_data : dict) : W string :=
  match dict_get "responses" endpoint_data with
  | Some responses =>
      let* body := format_responses responses in
      wret ("### Responses" ++ nl ++ nl ++ body)
  | None => wret EmptyString
  end.

Definition security_scheme_step (entry : string * json) : W string :=
  let '(scheme_name, scopes) := entry in
  wret ("- **" ++ scheme_name ++ "**: "
        ++ (if truthy scopes then py_str scopes else "No scopes required") ++ nl).

Definition security_req_step (security_req : json) : W string :=
  let* items := wlift (py_items security_req) in
  wconcat (map security_scheme_step items).

Definition security_section (endpoint_data : dict) : W string :=
  match dict_get "security" endpoint_data with
  | Some security =>
      let* reqs := wlift (py_iter security) in
      let* body := wconcat (map security_req_step reqs) in
      wret ("### Security" ++ nl ++ nl ++ body ++ nl)
  | None => wret EmptyString
  end.

Definition format_endpoint (path method : string) (endpoint_data : dict) : W string :=
  wconcat
    [ endpoint_heading path method endpoint_data;
      parameters_section endpoint_data;
      request_body_section endpoint_data;
      responses_section endpoint_data;
      security_section endpoint_data;
      wret (nl ++ "---" ++ nl ++ nl) ].
End Formatters.

(** ** Grouping by tag ([generate_category_docs]) *)

(** An endpoint record [(path, method, endpoint_data)]. *)
Definition endpoint : Type := string * string * dict.

(** [categories]: an insertion-ordered dictionary from tag to the list of
    its endpoints.  Its keys are compared as Python compares dictionary
    keys, by hash and equality. *)
Abbreviation categories := (list (hkey * list endpoint)).

Fixpoint cat_get (tag : hkey) (cats : categories) : option (list endpoint) :=
  match cats with
  | [] => None
  | (t, es) :: rest => if decide (t = tag) then Some es else cat_get tag rest
  end.

(** [categories[tag].append(e)] *)
Fixpoint cat_append (tag : hkey) (e : endpoint) (cats : categories) : categories :=
  match cats with
  | [] => []
  | (t, es) :: rest =>
      if decide (t = tag) then (t, (es ++ [e])%list) :: rest
      else (t, es) :: cat_append tag e rest
  end.

(** The body of [for tag in tags]. *)
Definition add_to_tag (e : endpoint) (cats : categories) (tag : json) : outcome categories :=
  obind (hash_key tag) (fun t =>
    let cats :=
      match cat_get t cats with
      | None => (cats ++ [(t, [])])%list
      | Some _ => cats
      end in
    Ok (cat_append t e cats)).

(** A loop whose body may raise. *)
Fixpoint ofold {A B} (f : A -> B -> outcome A) (a : A) (l : list B) : outcome A :=
  match l with
  | [] => Ok a
  | b :: l' => obind (f a b) (fun a' => ofold f a' l')
  end.

Definition http_methods : list string :=
  ["get"; "post"; "put"; "delete"; "patch"; "options"; "head"].

Definition str_in (s : string) (l : list string) : bool :=
  existsb (String.eqb s) l.

(** The body of [for method, endpoint_data in path_data.items()]. *)
Definition add_operation (path : string) (cats : categories)
    (entry : string * json) : outcome categories :=
  let '(method, endpoint_data) := entry in
  if negb (str_in (str_lower method) http_methods) then Ok cats
  else
    obind (as_dict endpoint_data) (fun op =>
      let tags := dict_get_default "tags" (JArr [JStr "Uncategorized"]) op in
      obind (py_iter tags) (fun ts =>
        ofold (add_to_tag (path, method, op)) cats ts)).

(** The body of [for path, path_data in ....items()]. *)
Definition add_path (cats : categories) (entry : string * json) : outcome categories :=
  let '(path, path_data) := entry in
  obind (py_items path_data) (fun ops => ofold (add_operation path) cats ops).

(** The grouping step: [categories] after the loop over [paths]. *)
Definition group_endpoints (openapi_spec : json) : outcome categories :=
  obind (as_dict openapi_spec) (fun spec =>
    obind (py_items (dict_get_default "paths" (JObj []) spec)) (fun paths =>
      ofold add_path [] paths)).

(** [sorted(keys)]: strings sort by code point, integers by value; [None]
    and a mix of strings and integers cannot be compared.  A list of fewer
    than two keys is never compared. *)
Fixpoint insert_sorted {A} (le : A -> A -> bool) (x : A) (l : list A) : list A :=
  match l with
  | [] => [x]
  | y :: l' => if le x y then x :: y :: l' else y :: insert_sorted le x l'
  end.

Definition sort_by {A} (le : A -> A -> bool) (l : list A) : list A :=
  foldr (insert_sorted le) [] l.

Definition hkey_str (k : hkey) : option string :=
  match k with HStr s => Some s | _ => None end.

Definition hkey_int (k : hkey) : option Z :=
  match k with HInt z => Some z | _ => None end.

Definition sort_comparable (keys : list hkey) : outcome (list hkey) :=
  if forallb (fun k => bool_decide (is_Some (hkey_str k))) keys then
    Ok (map HStr (sort_by String.leb (omap hkey_str keys)))
  else if forallb (fun k => bool_decide (is_Some (hkey_int k))) keys then
    Ok (map HInt (sort_by Z.leb (omap hkey_int keys)))
  else Raise TypeError.

Definition sorted_keys (keys : list hkey) : outcome (list hkey) :=
  match keys with
  | [] | [_] => Ok keys
  | _ => sort_comparable keys
  end.

Fixpoint omapM {A B} (f : A -> outcome B) (l : list A) : outcome (list B) :=
  match l with
  | [] => Ok []
  | a :: l' => obind (f a) (fun b => obind (omapM f l') (fun bs => Ok (b :: bs)))
  end.

Section Index.

(** [str.lower] on a tag.  Tags may hold letters of any script, and the
    case mapping of the interpreter's Unicode tables is left open: what
    follows holds whatever this function is.  (On the keys of a path item
    the ASCII [str_lower] decides the filter on method names as
    [str.lower] does: no character outside ASCII lowers to a letter of a
    method name.) *)
Variable lower : string -> string.

(** [f"{category.lower().replace(' ', '_')}.md"] *)
Definition category_filename (category : string) : string :=
  str_replace_char " "%char "_"%char (lower category) ++ ".md".

(** One line of the index: the category, its file and its endpoint count. *)
Definition index_entry (category : string) (endpoint_count : nat) : string :=
  let filename := category_filename category in
  "- [" ++ category ++ "](" ++ filename ++ ") - "
  ++ str_of_Z (Z.of_nat endpoint_count)
  ++ " endpoint" ++ (if Nat.eqb endpoint_count 1 then EmptyString else "s") ++ nl.

Definition index_line (cats : categories) (category : hkey) : outcome string :=
  let endpoint_count := length (default [] (cat_get category cats)) in
  match category with
  | HStr c => Ok (index_entry c endpoint_count)
  | _ => Raise AttributeError
  end.

(** The lines written under [## Categories] in [index.md]. *)
Definition index_lines (cats : categories) : outcome (list string) :=
  obind (sorted_keys (map fst cats)) (fun keys => omapM (index_line cats) keys).

End Index.


(** ** Writing the documents ([generate_category_docs], one file per category)

    What the generator does to the output directory is a sequence of events:
    a file is opened for writing, which creates or empties it, and text is
    written to the file opened last.  A file is what is opened under one
    name.  The calls of the file system are taken to succeed; the creation
    of the directory and the progress lines printed to the terminal are
    left out, and so is the single-file mode, which prints tags that are
    not strings. *)

Inductive event : Type :=
| FileOpen (filename : string)
| FileWrite (text : string).

(** Computations that may raise and that act on the output directory;
    [None] when the recursion budget of a schema rendering is used up.  An
    exception leaves the events that came before it. *)
Definition IO (A : Type) : Type := option (outcome A * list event).

Definition io_ret {A} (a : A) : IO A := Some (Ok a, []).

Definition io_lift {A} (o : outcome A) : IO A := Some (o, []).

Definition io_bind {A B} (m : IO A) (f : A -> IO B) : IO B :=
  match m with
  | None => None
  | Some (Raise e, evs) => Some (Raise e, evs)
  | Some (Ok a, evs) =>
      match f a with
      | None => None
      | Some (o, evs') => Some (o, (evs ++ evs')%list)
      end
  end.

Notation "'let+' x ':=' m 'in' k" := (io_bind m (fun x => k))
  (at level 10, x name, m at level 100, k at level 200).

(** Statements one after the other. *)
Fixpoint io_seq (steps : list (IO unit)) : IO unit :=
  match steps with
  | [] => io_ret tt
  | st :: rest => let+ _ := st in io_seq rest
  end.

(** [with open(output_path / filename, 'w', encoding='utf-8') as f] *)
Definition open_file (filename : string) : IO unit := Some (Ok tt, [FileOpen filename]).

(** [f.write(text)] *)
Definition write_text (text : string) : IO unit := Some (Ok tt, [FileWrite text]).

(** A call of a formatter: its result, the log of its schema calls dropped. *)
Definition io_render (w : W string) : IO string :=
  match w with
  | None => None
  | Some (o, _) => Some (o, [])
  end.

(** [s.replace(a, '')] for a one-character [a]. *)
Fixpoint str_remove_char (a : ascii) (s : string) : string :=
  match s with
  | EmptyString => EmptyString
  | String c s' =>
      if Ascii.eqb c a then str_remove_char a s' else String c (str_remove_char a s')
  end.

(** The anchor of an endpoint in a table of contents. *)
Definition anchor_of (path method : string) : string :=
  str_lower method ++ "-"
  ++ str_replace_char "_"%char "-"%char
       (str_remove_char "}"%char (str_remove_char "{"%char (str_remove_char "/"%char path))).

(** One line of the table of contents of a category. *)
Definition toc_line (i : nat) (e : endpoint) : string :=
  let '(path, method, endpoint_data) := e in
  let summary := dict_get_default "summary" (JStr path) endpoint_data in
  str_of_Z (Z.of_nat i) ++ ". [" ++ str_upper method ++ " " ++ path ++ "](#"
  ++ anchor_of path method ++ "): " ++ py_str summary ++ nl.

Section Documents.
Variable lower : string -> string.
Variable fuel : nat.
Variable inline_refs : bool.
Variable openapi_spec : dict.
Variable cats : categories.

(** The block [if "info" in openapi_spec] of a category file. *)
Definition category_info : IO unit :=
  match dict_get "info" openapi_spec with
  | Some info_value =>
      let+ info := io_lift (as_dict info_value) in
      io_seq
        [ write_text ("**API Title**: " ++ py_str (dict_get_default "title" (JStr "N/A") info)
                      ++ nl ++ nl);
          write_text ("**API Version**: "
                      ++ py_str (dict_get_default "version" (JStr "N/A") info) ++ nl ++ nl);
          match dict_get "description" info with
          | Some d => write_text ("**Description**: " ++ py_str d ++ nl ++ nl)
          | None => io_ret tt
          end ]
  | None => io_ret tt
  end.

(** The block [if "info" in openapi_spec] of the index. *)
Definition index_info : IO unit :=
  match dict_get "info" openapi_spec with
  | Some info_value =>
      let+ info := io_lift (as_dict info_value) in
      io_seq
        [ write_text ("## " ++ py_str (dict_get_default "title" (JStr "API Documentation") info)
                      ++ nl ++ nl);
          write_text ("**Version**: "
                      ++ py_str (dict_get_default "version" (JStr "N/A") info) ++ nl ++ nl);
          match dict_get "description" info with
          | Some d => write_text (py_str d ++ nl ++ nl)
          | None => io_ret tt
          end ]
  | None => io_ret tt
  end.

(** The body of [for server in openapi_spec["servers"]]. *)
Definition server_step (server_value : json) : IO unit :=
  let+ server := io_lift (as_dict server_value) in
  let url := dict_get_default "url" (JStr "N/A") server in
  let description := dict_get_default "description" (JStr EmptyString) server in
  io_seq
    [ write_text ("- `" ++ py_str url ++ "`");
      if truthy description then write_text (" - " ++ py_str description) else io_ret tt;
      write_text nl ].

(** The block [if "servers" in openapi_spec and openapi_spec["servers"]]. *)
Definition servers_block : IO unit :=
  match dict_get "servers" openapi_spec with
  | Some servers =>
      if truthy servers then
        io_seq
          [ write_text ("**Base URLs**:" ++ nl ++ nl);
            let+ items := io_lift (py_iter servers) in
            io_seq (map server_step items);
            write_text nl ]
      else io_ret tt
  | None => io_ret tt
  end.

(** The body of the last loop of a category file. *)
Definition endpoint_step (e : endpoint) : IO unit :=
  let '(path, method, endpoint_data) := e in
  let+ endpoint_md :=
    io_render (format_endpoint fuel (JObj openapi_spec) inline_refs path method
                 endpoint_data) in
  write_text endpoint_md.

(** The body of [for category, endpoints in sorted(categories.items())]. *)
Definition category_file (key : hkey) : IO unit :=
  match key with
  | HStr category =>
      let endpoints := default [] (cat_get key cats) in
      io_seq
        [ open_file (category_filename lower category);
          write_text ("# " ++ category ++ " API Documentation" ++ nl ++ nl);
          write_text ("This document contains all endpoints tagged with `" ++ category
                      ++ "`." ++ nl ++ nl);
          category_info;
          servers_block;
          write_text ("---" ++ nl ++ nl);
          write_text ("## Table of Contents" ++ nl ++ nl);
          io_seq (imap (fun i e => write_text (toc_line (S i) e)) endpoints);
          write_text (nl ++ "---" ++ nl ++ nl);
          io_seq (map endpoint_step endpoints) ]
  | _ => io_lift (Raise AttributeError)
  end.

(** The body of [for category in sorted(categories.keys())] of the index. *)
Definition index_step (key : hkey) : IO unit :=
  let+ line := io_lift (index_line lower cats key) in
  write_text line.

(** The index file. *)
Definition index_file : IO unit :=
  io_seq
    [ open_file "index.md";
      write_text ("# API Documentation Index" ++ nl ++ nl);
      index_info;
      servers_block;
      write_text ("## Categories" ++ nl ++ nl);
      let+ keys := io_lift (sorted_keys (map fst cats)) in
      io_seq (map index_step keys);
      write_text (nl ++ "---" ++ nl ++ nl);
      write_text ("*Generated from OpenAPI specification*" ++ nl) ].

(** The branch [if chunk_by_category]. *)
Definition chunk_files : IO unit :=
  io_seq
    [ let+ keys := io_lift (sorted_keys (map fst cats)) in
      io_seq (map category_file keys);
      index_file ].

End Documents.

(** [generate_category_docs(openapi_spec, output_dir, True, inline_refs)] *)
Definition generate_category_docs (lower : string -> string) (fuel : nat)
    (openapi_spec : json) (inline_refs : bool) : IO unit :=
  let+ cats := io_lift (group_endpoints openapi_spec) in
  let+ spec := io_lift (as_dict openapi_spec) in
  chunk_files lower fuel inline_refs spec cats.
(** * Properties *)

(** ** The reference resolver *)

(** [reaches doc keys v]: indexing [doc] by the keys in sequence, every key
    being present in a mapping, ends at [v]. *)
Inductive reaches : json -> list string -> json -> Prop :=
| reaches_here v : reaches v [] v
| reaches_step d k w ks v :
    dict_get k d = Some w -> reaches w ks v -> reaches (JObj d) (k :: ks) v.

(** The current value cannot be indexed by [k]. *)
Definition stuck_at (k : string) (current : json) : Prop :=
  match current with
  | JObj d => dict_get k d = None
  | _ => True
  end.


(** The number of calls recorded in a call tree, and in a list of them. *)
Fixpoint tree_calls (c : call_tree) : nat :=
  match c with
  | Call _ _ _ _ subs => S (list_sum (map tree_calls subs))
  end.

Definition count_calls (calls : list call_tree) : nat :=
  list_sum (map tree_calls calls).

(** The indentation prefix at depth [indent]. *)
Definition indent_of (indent : nat) : string := str_repeat "  " indent.

(** ** Measures and shapes of schema nodes *)

Fixpoint json_size (v : json) : nat :=
  match v with
  | JArr xs => S (list_sum (map json_size xs))
  | JObj kvs => S (list_sum (map (fun kv => S (json_size (snd kv))) kvs))
  | _ => 1
  end.

(** The hashable value under [$ref] of a dictionary, if any. *)
Definition own_ref (d : dict) : refset :=
  match dict_get "$ref" d with
  | Some p => match hash_key p with Ok k => {[k]} | Raise _ => ∅ end
  | None => ∅
  end.

(** The reference paths that occur under [$ref] anywhere in a value. *)
Fixpoint refs_of (v : json) : refset :=
  match v with
  | JArr xs => ⋃ (map refs_of xs)
  | JObj kvs => own_ref kvs ∪ (⋃ (map (fun kv => refs_of (snd kv)) kvs))
  | _ => ∅
  end.

(** A [$ref] key occurs somewhere in the value. *)
Fixpoint has_ref (v : json) : bool :=
  match v with
  | JArr xs => existsb has_ref xs
  | JObj kvs => dict_has "$ref" kvs || existsb (fun kv => has_ref (snd kv)) kvs
  | _ => false
  end.

(** The nodes a schema without [$ref] hands to recursive calls: the values
    of [properties], [items], the options of [allOf], [anyOf] and [oneOf],
    and [additionalProperties] when it is not a boolean. *)
Definition children (d : dict) : list json :=
  (match dict_get "properties" d with
   | Some (JObj props) => map snd props
   | _ => []
   end
   ++ match dict_get "items" d with
      | Some item_schema => [item_schema]
      | None => []
      end
   ++ flat_map (fun key =>
                  match dict_get key d with
                  | Some options =>
                      match py_iter options with Ok subs => subs | Raise _ => [] end
                  | None => []
                  end) ["allOf"; "anyOf"; "oneOf"]
   ++ match dict_get "additionalProperties" d with
      | Some ap => if is_bool_like ap then [] else [ap]
      | None => []
      end)%list.

(** A budget of nested calls that suffices for [format_schema]: every
    expansion of a reference uses up one of the reference paths of the
    document and of the schema that are not yet visited, and between two
    expansions the recursion descends into a node. *)
Definition fuel_bound (schema doc : json) (seen : refset) : nat :=
  size ((refs_of doc ∪ refs_of schema) ∖ seen) * S (json_size doc) + json_size schema.

(** [for x in v] is possible. *)
Definition iterable (v : json) : bool :=
  match v with
  | JArr _ | JStr _ | JObj _ => true
  | JNull | JBool _ | JNum _ => false
  end.

Definition is_string (v : json) : bool :=
  match v with JStr _ => true | _ => false end.

Definition is_mapping (v : json) : bool :=
  match v with JObj _ => true | _ => false end.

Definition opt_all (P : json -> bool) (o : option json) : bool :=
  match o with Some v => P v | None => true end.

(** The facets of one dictionary have the shapes the renderer relies on: a
    string under [$ref], a mapping under [properties], something iterable
    under [enum], [required], [allOf], [anyOf] and [oneOf]. *)
Definition facets_shaped (d : dict) : bool :=
  opt_all is_string (dict_get "$ref" d)
  && opt_all is_mapping (dict_get "properties" d)
  && opt_all iterable (dict_get "enum" d)
  && opt_all iterable (dict_get "required" d)
  && forallb (fun key => opt_all iterable (dict_get key d)) ["allOf"; "anyOf"; "oneOf"].

(** Every dictionary inside the value has well-shaped facets. *)
Fixpoint well_shaped (v : json) : bool :=
  match v with
  | JArr xs => forallb well_shaped xs
  | JObj kvs => facets_shaped kvs && forallb (fun kv => well_shaped (snd kv)) kvs
  | _ => true
  end.

(** ** Call trees *)

Definition call_node (c : call_tree) : json := match c with Call n _ _ _ _ => n end.
Definition call_indent (c : call_tree) : nat := match c with Call _ i _ _ _ => i end.
Definition call_seen (c : call_tree) : refset := match c with Call _ _ s _ _ => s end.
Definition call_out (c : call_tree) : outcome string := match c with Call _ _ _ o _ => o end.
Definition call_subs (c : call_tree) : list call_tree := match c with Call _ _ _ _ l => l end.

(** [P] holds of every call of the tree. *)
Inductive every_call (P : call_tree -> Prop) : call_tree -> Prop :=
| every_call_intro c :
    P c -> Forall (every_call P) (call_subs c) -> every_call P c.

(** The visited-set a call hands to the calls it makes: its own, extended
    by the reference path when the node is a [$ref] node. *)
Definition seen_for_children (node : json) (seen : refset) : refset :=
  match node with
  | JObj d =>
      match dict_get "$ref" d with
      | Some p => match hash_key p with Ok k => {[k]} ∪ seen | Raise _ => seen end
      | None => seen
      end
  | _ => seen
  end.

(** A call passes to each call it makes its visited-set as it received it,
    extended by its own reference path only. *)
Definition hands_down_seen (c : call_tree) : Prop :=
  Forall (fun sub => call_seen sub = seen_for_children (call_node c) (call_seen c))
         (call_subs c).

(** The reference paths entered (added to a visited-set) by a call and by
    the calls below it. *)
Fixpoint entered (c : call_tree) : refset :=
  match c with
  | Call node _ seen _ subs =>
      (seen_for_children node seen ∖ seen) ∪ (⋃ (map entered subs))
  end.

(** No reference path entered in one of the branches below a call is in the
    visited-set that another of its branches receives. *)
Definition siblings_isolated (c : call_tree) : Prop :=
  forall i j s1 s2,
    i <> j -> call_subs c !! i = Some s1 -> call_subs c !! j = Some s2 ->
    entered s1 ## call_seen s2.

(** [s] is a call that [format_schema], called on [node] with [seen], makes
    itself: on the resolved definition for a [$ref] node, on one of the
    children otherwise. *)
Definition direct_call (doc : json) (inl : bool) (node : json) (indent : nat)
    (seen : refset) (s : call_tree) : Prop :=
  match node with
  | JObj d =>
      match dict_get "$ref" d with
      | Some p =>
          inl = true /\
          exists path,
            p = JStr path /\ (HStr path ∉ seen) /\
            truthy (resolve_ref path doc) = true /\
            call_node s = resolve_ref path doc /\
            call_indent s = indent + 1 /\
            call_seen s = {[HStr path]} ∪ seen
      | None => call_node s ∈ children d /\ call_seen s = seen
      end
  | _ => False
  end.

(** The record [c] is that of an actual call of [format_schema]. *)
Definition genuine (doc : json) (inl : bool) (c : call_tree) : Prop :=
  exists fuel r,
    format_schema fuel (call_node c) doc (call_indent c) (call_seen c) inl = Some r /\
    call_out c = r_out r /\ call_subs c = r_calls r.

(** The record [c] is that of an actual call, and so are the records of the
    calls it made. *)
Definition faithful (doc : json) (inl : bool) (c : call_tree) : Prop :=
  genuine doc inl c /\
  Forall (direct_call doc inl (call_node c) (call_indent c) (call_seen c)) (call_subs c).

(** ** Predicates on logged computations *)

(** [w2] returns what [w1] returns, and logs related calls. *)
Definition wrel (Rc : call_tree -> call_tree -> Prop) (A : Type) (w1 w2 : W A) : Prop :=
  forall o l1, w1 = Some (o, l1) -> exists l2, w2 = Some (o, l2) /\ Forall2 Rc l1 l2.

(** Every logged call satisfies [Pc]; when [strict], nothing is raised. *)
Definition wsat (strict : bool) (Pc : call_tree -> Prop) (A : Type) (w : W A) : Prop :=
  forall o l, w = Some (o, l) -> (strict = true -> exists a, o = Ok a) /\ Forall Pc l.

Definition is_ok {A} (o : outcome A) : Prop := exists a, o = Ok a.

(** [c] lies within [v]: it is no larger, holds no reference path that [v]
    does not hold, has no [$ref] if [v] has none, and is well shaped if [v]
    is. *)
Definition within (c v : json) : Prop :=
  json_size c <= json_size v /\
  refs_of c ⊆ refs_of v /\
  (has_ref v = false -> has_ref c = false) /\
  (well_shaped v = true -> well_shaped c = true).

(** ** Grouping *)

(** The endpoints listed under a tag. *)
Definition tag_list (t : hkey) (cats : categories) : list endpoint :=
  default [] (cat_get t cats).

(** The records of a list that are for the operation [method] of [path]. *)
Definition records_of (path method : string) (es : list endpoint) : list endpoint :=
  filter (fun e : endpoint => e.1 = (path, method)) es.

(** How many times a tag occurs in a list of tags. *)
Definition tag_count (t : hkey) (hs : list hkey) : nat :=
  length (filter (fun h => h = t) hs).

(** The hashable value under [$ref] of a node, if it is a [$ref] node. *)
Definition ref_key (node : json) : option hkey :=
  match node with
  | JObj d =>
      match dict_get "$ref" d with
      | Some p => match hash_key p with Ok k => Some k | Raise _ => None end
      | None => None
      end
  | _ => None
  end.

(** [on_branch seen0 chain c]: in a rendering started with the visited-set
    [seen0], the call [c] has above it, innermost first, the [$ref] nodes
    with the reference paths [chain]; its visited-set is [seen0] and these
    paths, all different and none in [seen0], so that it has grown by as
    many paths as references were followed above the call; and the same
    holds of the calls below it, each call on a [$ref] node putting its
    path on the chain of the calls it makes. *)
Inductive on_branch (seen0 : refset) : list hkey -> call_tree -> Prop :=
| on_branch_intro chain c :
    call_seen c = list_to_set chain ∪ seen0 ->
    NoDup chain ->
    (forall k, k ∈ chain -> k ∉ seen0) ->
    size (call_seen c) = length chain + size seen0 ->
    Forall (on_branch seen0 (match ref_key (call_node c) with
                             | Some k => k :: chain
                             | None => chain
                             end))
           (call_subs c) ->
    on_branch seen0 chain c.

(** Each call that [c] makes is on a strictly smaller node with the same
    visited-set, or, when [c] is on a [$ref] node, has a strictly larger
    visited-set, grown by a reference path of the node. *)
Definition descends (c : call_tree) : Prop :=
  Forall (fun s =>
            match ref_key (call_node c) with
            | Some _ =>
                call_seen c ⊂ call_seen s /\
                call_seen s ⊆ call_seen c ∪ refs_of (call_node c)
            | None =>
                call_seen s = call_seen c /\
                json_size (call_node s) < json_size (call_node c)
            end)
         (call_subs c).

(** A call on a [$ref] node whose path is in the visited-set it received
    returns the bullet and the marker line, and makes no call. *)
Definition stops_at_reentry (c : call_tree) : Prop :=
  forall d p k,
    call_node c = JObj d -> dict_get "$ref" d = Some p -> hash_key p = Ok k ->
    k ∈ call_seen c ->
    call_out c = Ok (ref_bullet (indent_of (call_indent c)) p
                     ++ indent_of (call_indent c) ++ circular_marker ++ nl) /\
    call_subs c = [].

(** A call has the visited-set [seen0], and on a [$ref] node whose path is
    not in it returns the bullet only and makes no call. *)
Definition reference_only (seen0 : refset) (c : call_tree) : Prop :=
  call_seen c = seen0 /\
  forall d p k,
    call_node c = JObj d -> dict_get "$ref" d = Some p -> hash_key p = Ok k ->
    k ∉ seen0 ->
    call_out c = Ok (ref_bullet (indent_of (call_indent c)) p) /\
    call_subs c = [].

(** A call on a [$ref] node returns the bullet only and makes no call. *)
Definition bullet_only (c : call_tree) : Prop :=
  forall d p k,
    call_node c = JObj d -> dict_get "$ref" d = Some p -> hash_key p = Ok k ->
    call_out c = Ok (indent_of (call_indent c) ++ "- **$ref**: `" ++ py_str p ++ "`" ++ nl) /\
    call_subs c = [].

(** ** Example documents *)

(** The lines of an expected output, each ended by a newline. *)
Definition unlines (ls : list string) : string :=
  String.concat EmptyString (map (fun l => l ++ nl) ls).

Definition user_doc : json :=
  JObj [("components", JObj [("schemas", JObj [
    ("User", JObj [("type", JStr "object");
                   ("properties", JObj [("id", JObj [("type", JStr "integer")])]);
                   ("required", JArr [JStr "id"])]);
    ("Node", JObj [("type", JStr "object");
                   ("properties",
                    JObj [("friend", JObj [("$ref", JStr "#/components/schemas/Node")])])])])])].

(** ** Further notions *)

(** The key has no [/] in it. *)
Definition slash_free (k : string) : Prop := str_has_char "/"%char k = false.

(** The reference path that joins the keys with [/] after the prefix. *)
Definition pointer_of (keys : list string) : string := "#/" ++ str_join "/" keys.

(** The keys [format_schema] reads in a node without [$ref]. *)
Definition facet_keys : list string :=
  ["type"; "description"; "title"; "enum"; "default"; "format"; "properties";
   "required"; "items"; "allOf"; "anyOf"; "oneOf"; "additionalProperties";
   "example"; "pattern"; "minimum"; "maximum"; "minLength"; "maxLength";
   "minItems"; "maxItems"].

(** Two dictionaries hold the same under each key of a list. *)
Definition agree_on (keys : list string) (d1 d2 : dict) : Prop :=
  forall k, k ∈ keys -> dict_get k d1 = dict_get k d2.

(** The tags of an operation as dictionary keys, in order ([] where the
    grouping step would raise on them). *)
Definition operation_tags (op : dict) : list hkey :=
  match py_iter (dict_get_default "tags" (JArr [JStr "Uncategorized"]) op) with
  | Ok tags => match omapM hash_key tags with Ok hs => hs | Raise _ => [] end
  | Raise _ => []
  end.

(** The (tag, record) pairs one entry of a path item gives rise to: none
    unless its key is an HTTP method and its value a mapping. *)
Definition operation_insertions (path : string) (entry : string * json)
    : list (hkey * endpoint) :=
  if str_in (str_lower entry.1) http_methods then
    match entry.2 with
    | JObj op => map (fun t => (t, (path, entry.1, op))) (operation_tags op)
    | _ => []
    end
  else [].

Definition path_insertions (entry : string * json) : list (hkey * endpoint) :=
  match entry.2 with
  | JObj ops => flat_map (operation_insertions entry.1) ops
  | _ => []
  end.

(** All (tag, record) pairs of the [paths] of a document, in document
    order: paths, then operations, then tags. *)
Definition document_insertions (paths : dict) : list (hkey * endpoint) :=
  flat_map path_insertions paths.

(** The records inserted under the tag [t]. *)
Definition under_tag (t : hkey) (ins : list (hkey * endpoint)) : list endpoint :=
  map snd (filter (fun x : hkey * endpoint => x.1 = t) ins).

(** [a <= b] in the order of [sorted] on strings. *)
Definition str_le (a b : string) : Prop := String.leb a b = true.

(** The dictionary [categories] has distinct keys and no empty list. *)
Definition cats_ok (cats : categories) : Prop :=
  NoDup (map fst cats) /\ Forall (fun kv : hkey * list endpoint => kv.2 <> []) cats.

(** The integer a decimal numeral stands for. *)
Definition numeral_value (s : string) : option Z :=
  Z.of_int <$> NilZero.int_of_string s.

(** The index line of a tag listed with [count] endpoints, its file name
    built with the case mapping [lower]. *)
Definition listed_line (lower : string -> string) (c : string) (count : nat) : string :=
  "- [" ++ c ++ "](" ++ str_replace_char " "%char "_"%char (lower c) ++ ".md) - "
  ++ str_of_Z (Z.of_nat count) ++ " endpoint"
  ++ (if Nat.eqb count 1 then EmptyString else "s") ++ nl.

(** A value that can be a dictionary key. *)
Definition hashable (v : json) : bool :=
  match v with JArr _ | JObj _ => false | _ => true end.

(** The grouping step can handle the entry of a path item: under an HTTP
    method name it needs a mapping whose tags can be iterated and hashed. *)
Definition operation_groupable (entry : string * json) : bool :=
  if str_in (str_lower entry.1) http_methods then
    match entry.2 with
    | JObj op =>
        match py_iter (dict_get_default "tags" (JArr [JStr "Uncategorized"]) op) with
        | Ok tags => forallb hashable tags
        | Raise _ => false
        end
    | _ => false
    end
  else true.

Definition path_groupable (entry : string * json) : bool :=
  match entry.2 with
  | JObj ops => forallb operation_groupable ops
  | _ => false
  end.

Definition spec_groupable (spec : dict) : bool :=
  match dict_get_default "paths" (JObj []) spec with
  | JObj paths => forallb path_groupable paths
  | _ => false
  end.

(** ** What the formatters reach

    [G] holds of the results of the operations that may raise, [R] of the
    schemas handed to [format_schema]. *)

Section Fine.
Variable G : forall A : Type, outcome A -> Prop.
Variable R : json -> Prop.

Definition content_entry_fine (content_spec : json) : Prop :=
  G _ (guarded_get "schema" content_spec) /\
  forall s, guarded_get "schema" content_spec = Ok (Some s) -> R s.

Definition content_fine (c : json) : Prop :=
  G _ (py_items c) /\
  forall items, py_items c = Ok items ->
                Forall (fun kv : string * json => content_entry_fine kv.2) items.

Definition param_fine (param : json) : Prop :=
  G _ (as_dict param) /\
  forall p s, as_dict param = Ok p -> dict_get "schema" p = Some s -> R s.

Definition params_fine (parameters : json) : Prop :=
  truthy parameters = true ->
  G _ (py_iter parameters) /\
  forall params, py_iter parameters = Ok params -> Forall param_fine params.

Definition body_fine (request_body : json) : Prop :=
  truthy request_body = true ->
  G _ (as_dict request_body) /\
  forall rb c, as_dict request_body = Ok rb -> dict_get "content" rb = Some c ->
               content_fine c.

Definition response_fine (response_spec : json) : Prop :=
  G _ (guarded_get "description" response_spec) /\
  G _ (guarded_get "content" response_spec) /\
  forall c, guarded_get "content" response_spec = Ok (Some c) -> content_fine c.

Definition responses_fine (responses : json) : Prop :=
  truthy responses = true ->
  G _ (py_items responses) /\
  forall items, py_items responses = Ok items ->
                Forall (fun kv : string * json => response_fine kv.2) items.

Definition security_fine (security : json) : Prop :=
  G _ (py_iter security) /\
  forall reqs, py_iter security = Ok reqs -> Forall (fun r => G _ (py_items r)) reqs.

Definition operation_fine (op : dict) : Prop :=
  (forall v, dict_get "tags" op = Some v -> G _ (join_ticked v)) /\
  (forall v, dict_get "parameters" op = Some v -> params_fine v) /\
  (forall v, dict_get "requestBody" op = Some v -> body_fine v) /\
  (forall v, dict_get "responses" op = Some v -> responses_fine v) /\
  (forall v, dict_get "security" op = Some v -> security_fine v).
End Fine.

(** ** Conforming operations *)

Definition schema_entry_ok (v : json) : bool :=
  match v with
  | JObj d => opt_all well_shaped (dict_get "schema" d)
  | _ => false
  end.

Definition params_ok (v : json) : bool :=
  negb (truthy v)
  || match v with JArr ps => forallb schema_entry_ok ps | _ => false end.

Definition content_ok (c : json) : bool :=
  match c with
  | JObj items => forallb (fun kv => schema_entry_ok (snd kv)) items
  | _ => false
  end.

Definition with_content_ok (v : json) : bool :=
  match v with
  | JObj d => opt_all content_ok (dict_get "content" d)
  | _ => false
  end.

Definition body_ok (v : json) : bool := negb (truthy v) || with_content_ok v.

Definition responses_ok (v : json) : bool :=
  negb (truthy v)
  || match v with
     | JObj items => forallb (fun kv => with_content_ok (snd kv)) items
     | _ => false
     end.

Definition security_ok (v : json) : bool :=
  match v with JArr reqs => forallb is_mapping reqs | _ => false end.

(** The operation has the structure the endpoint renderer relies on: tags
    that can be iterated; parameters that are a list of mappings; a request
    body and responses that are mappings whose [content] maps content types
    to mappings; security requirements that are a list of mappings; and
    well-shaped schemas under the [schema] keys. *)
Definition operation_conforming (op : dict) : bool :=
  opt_all iterable (dict_get "tags" op)
  && opt_all params_ok (dict_get "parameters" op)
  && opt_all body_ok (dict_get "requestBody" op)
  && opt_all responses_ok (dict_get "responses" op)
  && opt_all security_ok (dict_get "security" op).

(** No condition on the results of the operations that may raise. *)
Definition any_result : forall A : Type, outcome A -> Prop := fun _ _ => True.

(** The operations that may raise do not. *)
Definition no_raise : forall A : Type, outcome A -> Prop := fun A o => is_ok o.

(** A logged call that starts a rendering of its own: it received the empty
    visited-set, the visited-sets below it hold the reference paths followed
    on the way down and nothing else, and a path met again stops there. *)
Definition fresh_rendering (c : call_tree) : Prop :=
  call_seen c = ∅ /\ on_branch ∅ [] c /\ every_call stops_at_reentry c.

(** The keys [format_endpoint] reads in an operation. *)
Definition endpoint_keys : list string :=
  ["summary"; "description"; "operationId"; "tags"; "parameters"; "requestBody";
   "responses"; "security"].

(** ** The output directory *)

(** The names of the files opened, in order. *)
Definition opened (evs : list event) : list string :=
  omap (fun e => match e with FileOpen f => Some f | FileWrite _ => None end) evs.

(** The text written, in order. *)
Definition written (evs : list event) : string :=
  String.concat EmptyString
    (omap (fun e => match e with FileWrite t => Some t | FileOpen _ => None end) evs).

(** The text written before the first file is opened, and then every file
    opened with the text written while it was open, in order. *)
Fixpoint sessions_from (evs : list event) : string * list (string * string) :=
  match evs with
  | [] => (EmptyString, [])
  | FileWrite t :: evs' =>
      let '(pre, ss) := sessions_from evs' in (t ++ pre, ss)
  | FileOpen f :: evs' =>
      let '(pre, ss) := sessions_from evs' in (EmptyString, (f, pre) :: ss)
  end.

Definition sessions (evs : list event) : list (string * string) := (sessions_from evs).2.


(** The events of a file: it is opened, then written to. *)
Definition file_events (name : string -> string) (d : string * list event) : list event :=
  FileOpen (name d.1) :: d.2.

(** Nothing but writes. *)
Definition writes_only {A} (m : IO A) : Prop :=
  forall o evs, m = Some (o, evs) -> opened evs = [].

(** The computation returns, without raising. *)
Definition io_ok {A} (m : IO A) : Prop := exists a evs, m = Some (Ok a, evs).

(** [text] is a document of the category [c]: its title, front matter and
    table of contents, and then the rendering of each endpoint listed under
    the tag, in the order of the list. *)
Definition category_document (fuel : nat) (inline_refs : bool) (spec : dict)
    (cats : categories) (c text : string) : Prop :=
  exists front mds,
    text = "# " ++ c ++ " API Documentation" ++ nl ++ nl ++ front
           ++ String.concat EmptyString mds /\
    Forall2 (fun (e : endpoint) md =>
               fst <$> format_endpoint fuel (JObj spec) inline_refs e.1.1 e.1.2 e.2
               = Some (Ok md))
            (tag_list (HStr c) cats) mds.

(** [text] is an index: its title, front matter, one line per tag of
    [tags] with the length of the list of the tag, and the closing lines. *)
Definition index_document (lower : string -> string) (cats : categories)
    (tags : list string) (text : string) : Prop :=
  exists front,
    text = "# API Documentation Index" ++ nl ++ nl ++ front
           ++ "## Categories" ++ nl ++ nl
           ++ String.concat EmptyString
                (map (fun c => listed_line lower c (length (tag_list (HStr c) cats))) tags)
           ++ nl ++ "---" ++ nl ++ nl ++ "*Generated from OpenAPI specification*" ++ nl.

(** The documents of a run: one per tag, in ascending order of the tags,
    and the index of these tags. *)
Definition documents_of (lower : string -> string) (fuel : nat) (inline_refs : bool)
    (spec : dict) (cats : categories) (docs : list (string * string))
    (index_text : string) : Prop :=
  Sorted str_le docs.*1 /\
  map HStr docs.*1 ≡ₚ map fst cats /\
  Forall (fun doc => category_document fuel inline_refs spec cats doc.1 doc.2) docs /\
  index_document lower cats docs.*1 index_text.

(** Whatever the first computation returns, the second returns too. *)
Definition carries_over {A L : Type} (m1 m2 : option (outcome A * list L)) : Prop :=
  forall res, m1 = Some res -> m2 = Some res.

(** ** Conforming documents *)

(** Every reference path of [refs] that is a string resolves in [doc] to a
    well-shaped value. *)
Definition targets_shaped (doc : json) (refs : refset) : bool :=
  forallb (fun k => match k with
                    | HStr path => well_shaped (resolve_ref path doc)
                    | _ => true
                    end)
          (elements refs).

(** The tags of the operation (the default when it has none) are strings. *)
Definition string_tags (op : dict) : bool :=
  match py_iter (dict_get_default "tags" (JArr [JStr "Uncategorized"]) op) with
  | Ok tags => forallb is_string tags
  | Raise _ => false
  end.

Definition operation_documentable (entry : string * json) : bool :=
  if str_in (str_lower entry.1) http_methods then
    match entry.2 with
    | JObj op => string_tags op && operation_conforming op
    | _ => false
    end
  else true.

Definition path_documentable (entry : string * json) : bool :=
  match entry.2 with
  | JObj ops => forallb operation_documentable ops
  | _ => false
  end.

Definition servers_ok (v : json) : bool :=
  negb (truthy v)
  || match v with JArr items => forallb is_mapping items | _ => false end.

(** The document has the structure the generator relies on: [info] a
    mapping, [servers] a list of mappings, [paths] a mapping of path items
    that are mappings, every entry of a path item under an HTTP method name
    a conforming operation with strings as tags, and well-shaped values at
    the targets of the references of the document. *)
Definition document_conforming (d : dict) : bool :=
  opt_all is_mapping (dict_get "info" d)
  && opt_all servers_ok (dict_get "servers" d)
  && match dict_get_default "paths" (JObj []) d with
     | JObj paths => forallb path_documentable paths
     | _ => false
     end
  && targets_shaped (JObj d) (refs_of (JObj d)).
Lemma reaches_functional doc keys v1 v2 :
  reaches doc keys v1 -> reaches doc keys v2 -> v1 = v2.
Proof.
  intros H1. revert v2.
  induction H1 as [v|d k w ks v Hk _ IH]; intros v2 H2; inversion H2; subst.
  - reflexivity.
  - apply IH. congruence.
Qed.

Lemma resolve_walk_reaches doc keys v :
  reaches doc keys v -> resolve_walk keys doc = v.
Proof.
  induction 1 as [v|d k w ks v Hk _ IH]; simpl.
  - reflexivity.
  - rewrite Hk. exact IH.
Qed.

Lemma resolve_walk_stuck doc pre k rest current :
  reaches doc pre current -> stuck_at k current ->
  resolve_walk (pre ++ k :: rest)%list doc = JNull.
Proof.
  induction 1 as [v|d k' w ks v Hk _ IH]; simpl; intros Hs.
  - destruct v; try reflexivity. simpl in Hs. rewrite Hs. reflexivity.
  - rewrite Hk. apply IH, Hs.
Qed.

(** Either every key is present, or the walk gets stuck at some key. *)
Lemma reaches_or_stuck keys doc :
  (exists v, reaches doc keys v) \/
  (exists pre k rest current,
      keys = (pre ++ k :: rest)%list /\ reaches doc pre current /\ stuck_at k current).
Proof.
  revert doc. induction keys as [|k ks IH]; intros doc.
  - left. exists doc. constructor.
  - destruct doc as [| | | |xs|d];
      try (right; exists [], k, ks; eexists; repeat split; [constructor | exact I]).
    destruct (dict_get k d) as [w|] eqn:Hk.
    + destruct (IH w) as [[v Hv]|(pre & k' & rest & cur & -> & Hr & Hs)].
      * left. exists v. econstructor; eassumption.
      * right. exists (k :: pre), k', rest, cur. repeat split; [|exact Hs].
        econstructor; eassumption.
    + right. exists [], k, ks, (JObj d). repeat split; [constructor | exact Hk].
Qed.

(** C7.  [resolve_ref] returns [None] (not found) for a path that does not
    begin with [#/]; otherwise it indexes the document by the [/]-separated
    keys after the prefix: when every key in sequence is present it returns
    the subtree reached, and exactly then (when no subtree is reached the
    result is [None]); as soon as the current value is not a mapping or
    lacks the next key it returns [None], whatever keys follow. *)
Theorem resolve_ref_correct (ref_path : string) (doc : json) :
  (str_startswith "#/" ref_path = false -> resolve_ref ref_path doc = JNull) /\
  (str_startswith "#/" ref_path = true ->
   let keys := str_split "/"%char (str_drop 2 ref_path) in
   (forall v, reaches doc keys v -> resolve_ref ref_path doc = v) /\
   ((forall v, ~ reaches doc keys v) -> resolve_ref ref_path doc = JNull) /\
   (forall pre k rest current,
       keys = (pre ++ k :: rest)%list -> reaches doc pre current ->
       stuck_at k current -> resolve_ref ref_path doc = JNull)).
Proof.
  split; [intros Hp|intros Hp keys]; unfold resolve_ref; rewrite Hp; cbn [negb].
  - reflexivity.
  - split; [|split].
    + intros v Hv. apply resolve_walk_reaches, Hv.
    + intros Hno. fold keys.
      destruct (reaches_or_stuck keys doc)
        as [[v Hv]|(pre & k & rest & cur & Hk & Hr & Hs)].
      * destruct (Hno v Hv).
      * rewrite Hk. eapply resolve_walk_stuck; eassumption.
    + intros pre k rest cur Hk Hr Hs. fold keys. rewrite Hk.
      eapply resolve_walk_stuck; eassumption.
Qed.

Lemma resolve_ref_correct_witness :
  resolve_ref "#/components/schemas/User"
    (JObj [("components", JObj [("schemas", JObj [("User", JObj [("type", JStr "object")])])])])
  = JObj [("type", JStr "object")]
  /\ resolve_ref "components/schemas/User" (JObj []) = JNull
  /\ resolve_ref "#/components/missing/User"
       (JObj [("components", JObj [("schemas", JObj [])])]) = JNull.
Proof.
  split; [|split].
  - apply (proj1 (proj2 (resolve_ref_correct "#/components/schemas/User" _) eq_refl)).
    repeat (econstructor; [reflexivity|]). constructor.
  - apply (proj1 (resolve_ref_correct "components/schemas/User" _)). reflexivity.
  - apply (proj2 (proj2 (proj2 (resolve_ref_correct "#/components/missing/User" _) eq_refl))
             ["components"] "missing" ["User"] (JObj [("schemas", JObj [])])).
    + reflexivity.
    + econstructor; [reflexivity|]. constructor.
    + reflexivity.
Defined.

(** ** Reasoning about the facets, once for all properties

    Every property below of [format_facets] follows its structure: it holds
    of the pure steps, is preserved by sequencing, and holds of the
    recursive calls by assumption on the children of the node. *)

Lemma Forall2_map_same {X Y} (R : Y -> Y -> Prop) (f g : X -> Y) (l : list X) :
  (forall x, x ∈ l -> R (f x) (g x)) -> Forall2 R (map f l) (map g l).
Proof.
  induction l as [|x l IH]; intros H; simpl; constructor.
  - apply H. left.
  - apply IH. intros y Hy. apply H. right. exact Hy.
Qed.

Lemma Forall2_imap_same {X Y} (R : Y -> Y -> Prop) (l : list X) :
  forall f g : nat -> X -> Y,
  (forall i x, x ∈ l -> R (f i x) (g i x)) -> Forall2 R (imap f l) (imap g l).
Proof.
  induction l as [|x l IH]; intros f g H; simpl; constructor.
  - apply H. left.
  - apply IH. intros i y Hy. apply H. right. exact Hy.
Qed.

Lemma child_of_properties d props k c :
  dict_get "properties" d = Some (JObj props) -> (k, c) ∈ props -> c ∈ children d.
Proof.
  intros Hp Hin. unfold children. rewrite Hp.
  apply elem_of_app. left. apply list_elem_of_fmap. exists (k, c). split; [reflexivity|exact Hin].
Qed.

Lemma child_of_items d c : dict_get "items" d = Some c -> c ∈ children d.
Proof.
  intros Hi. unfold children. rewrite Hi.
  apply elem_of_app. right. apply elem_of_app. left. left.
Qed.

Lemma child_of_composition d key options subs c :
  key ∈ ["allOf"; "anyOf"; "oneOf"] ->
  dict_get key d = Some options -> py_iter options = Ok subs -> c ∈ subs ->
  c ∈ children d.
Proof.
  intros Hkey Hd Hit Hin. unfold children.
  apply elem_of_app. right. apply elem_of_app. right. apply elem_of_app. left.
  apply list_elem_of_In, in_flat_map. exists key. split.
  - apply list_elem_of_In, Hkey.
  - rewrite Hd, Hit. apply list_elem_of_In, Hin.
Qed.

Lemma child_of_additional d ap :
  dict_get "additionalProperties" d = Some ap -> is_bool_like ap = false ->
  ap ∈ children d.
Proof.
  intros Ha Hb. unfold children. rewrite Ha, Hb.
  apply elem_of_app. right. apply elem_of_app. right. apply elem_of_app. right. left.
Qed.

Section FacetsTraversal.
Variable XX : forall A : Type, W A -> W A -> Prop.
Variable good : forall A : Type, outcome A -> Prop.

Hypothesis XX_ret : forall A (a : A), XX A (wret a) (wret a).
Hypothesis XX_lift_bind :
  forall A B (o : outcome A) (f1 f2 : A -> W B),
    good A o -> (forall a, o = Ok a -> XX B (f1 a) (f2 a)) ->
    XX B (wbind (wlift o) f1) (wbind (wlift o) f2).
Hypothesis XX_bind :
  forall A B (m1 m2 : W A) (f1 f2 : A -> W B),
    XX A m1 m2 -> (forall a, XX B (f1 a) (f2 a)) ->
    XX B (wbind m1 f1) (wbind m2 f2).

Lemma XX_concat steps1 steps2 :
  Forall2 (XX string) steps1 steps2 -> XX string (wconcat steps1) (wconcat steps2).
Proof.
  induction 1 as [|s1 s2 l1 l2 Hs _ IH]; simpl.
  - apply XX_ret.
  - apply XX_bind; [exact Hs|]. intros a.
    apply XX_bind; [exact IH|]. intros b. apply XX_ret.
Qed.

Variables rec1 rec2 : renderer.
Variable d : dict.
Variable doc : json.
Variable indent : nat.
Variables seen1 seen2 : refset.
Variable inl : bool.

Hypothesis XX_child :
  forall c i, c ∈ children d ->
    XX string (wcall rec1 c doc i seen1 inl) (wcall rec2 c doc i seen2 inl).

Hypothesis good_enum :
  forall v, dict_get "enum" d = Some v -> good _ (join_ticked v).
Hypothesis good_properties :
  forall props, dict_get "properties" d = Some props -> good _ (py_items props).
Hypothesis good_required_marker :
  forall props name c,
    dict_get "properties" d = Some (JObj props) -> (name, c) ∈ props ->
    good _ (py_contains name (dict_get_default "required" (JArr []) d)).
Hypothesis good_composition :
  forall key options,
    key ∈ ["allOf"; "anyOf"; "oneOf"] -> dict_get key d = Some options ->
    good _ (py_iter options).
Hypothesis good_required :
  forall req, dict_get "required" d = Some req ->
    eq_str (dict_get_default "type" JNull d) "object" = false ->
    good _ (join_ticked req).

Lemma enum_step_related :
  XX string (enum_step d indent) (enum_step d indent).
Proof.
  unfold enum_step. case_eq (dict_get "enum" d); [intros v E|intros _; apply XX_ret].
  apply XX_lift_bind; [apply good_enum, E|]. intros a _. apply XX_ret.
Qed.

Lemma properties_step_related :
  XX string (properties_step rec1 d doc indent seen1 inl)
            (properties_step rec2 d doc indent seen2 inl).
Proof.
  unfold properties_step.
  case_eq (dict_get "properties" d); [intros props E|intros _; apply XX_ret].
  apply XX_lift_bind; [apply (good_properties _ E)|]. intros items Hitems.
  destruct props; try discriminate Hitems. injection Hitems as ->.
  apply XX_bind; [apply XX_concat|intros; apply XX_ret].
  apply Forall2_map_same. intros [name c] Hin. unfold property_step.
  apply XX_lift_bind; [apply (good_required_marker _ _ _ E Hin)|]. intros b _.
  apply XX_bind; [|intros; apply XX_ret].
  apply XX_child. eapply child_of_properties; eassumption.
Qed.

Lemma items_step_related :
  XX string (items_step rec1 d doc indent seen1 inl)
            (items_step rec2 d doc indent seen2 inl).
Proof.
  unfold items_step.
  case_eq (dict_get "items" d); [intros c E|intros _; apply XX_ret].
  apply XX_bind; [|intros; apply XX_ret].
  apply XX_child, child_of_items, E.
Qed.

Lemma composition_step_related key :
  key ∈ ["allOf"; "anyOf"; "oneOf"] ->
  XX string (composition_step rec1 d doc indent seen1 inl key)
            (composition_step rec2 d doc indent seen2 inl key).
Proof.
  intros Hkey. unfold composition_step.
  case_eq (dict_get key d); [intros options E|intros _; apply XX_ret].
  apply XX_lift_bind; [apply (good_composition _ _ Hkey E)|]. intros subs Hsubs.
  apply XX_bind; [apply XX_concat|intros; apply XX_ret].
  apply Forall2_imap_same. intros i c Hin. unfold option_step.
  apply XX_bind; [|intros; apply XX_ret].
  apply XX_child. eapply child_of_composition; eassumption.
Qed.

Lemma additional_step_related :
  XX string (additional_step rec1 d doc indent seen1 inl)
            (additional_step rec2 d doc indent seen2 inl).
Proof.
  unfold additional_step.
  case_eq (dict_get "additionalProperties" d); [intros ap E|intros _; apply XX_ret].
  case_eq (is_bool_like ap); intros Hb; cbn [negb]; [apply XX_ret|].
  apply XX_bind; [|intros; apply XX_ret].
  apply XX_child, child_of_additional; assumption.
Qed.

Lemma required_step_related :
  XX string (required_step d indent) (required_step d indent).
Proof.
  unfold required_step.
  case_eq (dict_get "required" d); [intros req E|intros _; apply XX_ret].
  case_eq (eq_str (dict_get_default "type" JNull d) "object"); intros Ht;
    cbn [negb]; [apply XX_ret|].
  apply XX_lift_bind; [apply (good_required _ E Ht)|]. intros a _. apply XX_ret.
Qed.

(** The facets rendered through [rec1] with [seen1] and through [rec2]
    with [seen2] are related as soon as the recursive calls on the
    children of the node are. *)
Lemma facets_related :
  XX string (format_facets rec1 d doc indent seen1 inl)
            (format_facets rec2 d doc indent seen2 inl).
Proof.
  unfold format_facets. apply XX_concat. cbn [map app].
  repeat (apply Forall2_cons; split); try apply Forall2_nil;
    try exact I; try apply XX_ret.
  - apply enum_step_related.
  - apply properties_step_related.
  - apply items_step_related.
  - apply composition_step_related. set_solver.
  - apply composition_step_related. set_solver.
  - apply composition_step_related. set_solver.
  - apply additional_step_related.
  - apply required_step_related.
Qed.
End FacetsTraversal.

(** *** Definedness: the budget does not run out *)

Lemma wcall_defined rec node doc i seen inl :
  is_Some (rec node doc i seen inl) -> is_Some (wcall rec node doc i seen inl).
Proof. intros [r Hr]. unfold wcall. rewrite Hr. eexists; reflexivity. Qed.

Lemma facets_defined (rec : renderer) d doc indent seen inl :
  (forall c i, c ∈ children d -> is_Some (rec c doc i seen inl)) ->
  is_Some (format_facets rec d doc indent seen inl).
Proof.
  intros H.
  apply (facets_related (fun A w1 _ => is_Some w1) (fun _ _ => True))
    with (rec2 := rec) (seen2 := seen); try (intros; exact I).
  - intros A a. eexists; reflexivity.
  - intros A B [a|e] f1 f2 _ Hf; simpl.
    + destruct (Hf a eq_refl) as [[o l] ->]. eexists; reflexivity.
    + eexists; reflexivity.
  - intros A B m1 m2 f1 f2 [[[a|e] l] ->] Hf; simpl.
    + destruct (Hf a) as [[o l'] ->]. eexists; reflexivity.
    + eexists; reflexivity.
  - intros c i Hc. apply wcall_defined, H, Hc.
Qed.

(** *** Two runs that return the same *)

Lemma wrel_ret Rc A (a : A) : wrel Rc A (wret a) (wret a).
Proof. intros o l1 [= <- <-]. exists []. split; [reflexivity|constructor]. Qed.

Lemma wrel_lift_bind Rc A B (o : outcome A) (f1 f2 : A -> W B) :
  (forall a, o = Ok a -> wrel Rc B (f1 a) (f2 a)) ->
  wrel Rc B (wbind (wlift o) f1) (wbind (wlift o) f2).
Proof.
  intros Hf o' l1. destruct o as [a|e]; simpl.
  - specialize (Hf a eq_refl). destruct (f1 a) as [[o1 l]|] eqn:E1; [|discriminate].
    intros [= <- <-]. destruct (Hf _ _ eq_refl) as (l2 & -> & Hl).
    exists l2. split; [reflexivity|exact Hl].
  - intros [= <- <-]. exists []. split; [reflexivity|constructor].
Qed.

Lemma wrel_bind Rc A B (m1 m2 : W A) (f1 f2 : A -> W B) :
  wrel Rc A m1 m2 -> (forall a, wrel Rc B (f1 a) (f2 a)) ->
  wrel Rc B (wbind m1 f1) (wbind m2 f2).
Proof.
  intros Hm Hf o l1. unfold wbind at 1.
  destruct m1 as [[[a|e] la]|]; [| |discriminate].
  - destruct (Hm _ _ eq_refl) as (lb & -> & Hl).
    destruct (f1 a) as [[o1 l]|] eqn:E1; [|discriminate].
    intros [= <- <-]. destruct (Hf a _ _ E1) as (l2 & E2 & Hl2).
    simpl. rewrite E2. eexists. split; [reflexivity|].
    apply Forall2_app; assumption.
  - destruct (Hm _ _ eq_refl) as (lb & -> & Hl).
    intros [= <- <-]. simpl. eexists. split; [reflexivity|exact Hl].
Qed.

Lemma wrel_call Rc (rec1 rec2 : renderer) node doc i seen1 seen2 inl :
  (forall r1, rec1 node doc i seen1 inl = Some r1 ->
     exists r2, rec2 node doc i seen2 inl = Some r2 /\ r_out r2 = r_out r1 /\
       Rc (Call node i seen1 (r_out r1) (r_calls r1))
          (Call node i seen2 (r_out r2) (r_calls r2))) ->
  wrel Rc string (wcall rec1 node doc i seen1 inl) (wcall rec2 node doc i seen2 inl).
Proof.
  intros H o l1. unfold wcall.
  destruct (rec1 node doc i seen1 inl) as [r1|]; [|discriminate].
  destruct (H r1 eq_refl) as (r2 & -> & Ho & Hc). intros [= <- <-].
  eexists. split; [rewrite Ho; reflexivity|].
  constructor; [rewrite <- Ho at 2; exact Hc|constructor].
Qed.

Lemma facets_wrel Rc (rec1 rec2 : renderer) d doc indent seen1 seen2 inl :
  (forall c i, c ∈ children d ->
     wrel Rc string (wcall rec1 c doc i seen1 inl) (wcall rec2 c doc i seen2 inl)) ->
  wrel Rc string (format_facets rec1 d doc indent seen1 inl)
                 (format_facets rec2 d doc indent seen2 inl).
Proof.
  intros H.
  apply (facets_related (wrel Rc) (fun _ _ => True)); try (intros; exact I).
  - apply wrel_ret.
  - intros A B o f1 f2 _. apply wrel_lift_bind.
  - apply wrel_bind.
  - exact H.
Qed.

(** *** What is logged, and whether anything is raised *)

Lemma wsat_ret strict Pc A (a : A) : wsat strict Pc A (wret a).
Proof. intros o l [= <- <-]. split; [eexists; reflexivity|constructor]. Qed.

Lemma wsat_lift_bind strict Pc A B (o : outcome A) (f : A -> W B) :
  (strict = true -> is_ok o) ->
  (forall a, o = Ok a -> wsat strict Pc B (f a)) ->
  wsat strict Pc B (wbind (wlift o) f).
Proof.
  intros Ho Hf o' l. destruct o as [a|e]; simpl.
  - specialize (Hf a eq_refl). destruct (f a) as [[o1 l1]|] eqn:E1; [|discriminate].
    intros [= <- <-]. exact (Hf _ _ eq_refl).
  - intros [= <- <-]. split; [|constructor].
    intros Hs. destruct (Ho Hs) as [a Ha]. discriminate Ha.
Qed.

Lemma wsat_bind strict Pc A B (m : W A) (f : A -> W B) :
  wsat strict Pc A m -> (forall a, wsat strict Pc B (f a)) ->
  wsat strict Pc B (wbind m f).
Proof.
  intros Hm Hf o l. unfold wbind.
  destruct m as [[[a|e] la]|]; [| |discriminate].
  - destruct (Hm _ _ eq_refl) as [_ Hla].
    destruct (f a) as [[o1 l1]|] eqn:E1; [|discriminate].
    intros [= <- <-]. destruct (Hf a _ _ E1) as [Ho1 Hl1].
    split; [exact Ho1|]. apply Forall_app. split; assumption.
  - intros [= <- <-]. destruct (Hm _ _ eq_refl) as [Ho Hl]. split; [|exact Hl].
    intros Hs. destruct (Ho Hs) as [a Ha]. discriminate Ha.
Qed.

Lemma wsat_call strict Pc (rec : renderer) node doc i seen inl :
  (forall r, rec node doc i seen inl = Some r ->
     (strict = true -> is_ok (r_out r)) /\
     Pc (Call node i seen (r_out r) (r_calls r))) ->
  wsat strict Pc string (wcall rec node doc i seen inl).
Proof.
  intros H o l. unfold wcall.
  destruct (rec node doc i seen inl) as [r|]; [|discriminate].
  destruct (H r eq_refl) as [Ho Hc]. intros [= <- <-].
  split; [exact Ho|]. constructor; [exact Hc|constructor].
Qed.

Lemma iterable_py_iter v : iterable v = true -> is_ok (py_iter v).
Proof. destruct v; try discriminate; intros _; eexists; reflexivity. Qed.

Lemma iterable_join_ticked v : iterable v = true -> is_ok (join_ticked v).
Proof.
  intros H. unfold join_ticked. destruct (iterable_py_iter v H) as [xs ->].
  eexists; reflexivity.
Qed.

Lemma iterable_py_contains x v : iterable v = true -> is_ok (py_contains x v).
Proof. destruct v; try discriminate; intros _; eexists; reflexivity. Qed.

Lemma facets_shaped_inv d :
  facets_shaped d = true ->
  opt_all is_string (dict_get "$ref" d) = true /\
  opt_all is_mapping (dict_get "properties" d) = true /\
  opt_all iterable (dict_get "enum" d) = true /\
  opt_all iterable (dict_get "required" d) = true /\
  (forall key, key ∈ ["allOf"; "anyOf"; "oneOf"] ->
               opt_all iterable (dict_get key d) = true).
Proof.
  unfold facets_shaped. rewrite !andb_true_iff, forallb_forall.
  intros [[[[H1 H2] H3] H4] H5]. repeat split; try assumption.
  intros key Hkey. apply H5, list_elem_of_In, Hkey.
Qed.

Lemma facets_wsat strict Pc (rec : renderer) d doc indent seen inl :
  (strict = true -> facets_shaped d = true) ->
  (forall c i, c ∈ children d -> wsat strict Pc string (wcall rec c doc i seen inl)) ->
  wsat strict Pc string (format_facets rec d doc indent seen inl).
Proof.
  intros Hshape H.
  apply (facets_related (fun A w1 _ => wsat strict Pc A w1)
                        (fun A o => strict = true -> is_ok o))
    with (rec2 := rec) (seen2 := seen).
  - intros A a. apply wsat_ret.
  - intros A B o f1 f2. apply wsat_lift_bind.
  - intros A B m1 m2 f1 f2. apply wsat_bind.
  - exact H.
  - intros v E Hs. destruct (facets_shaped_inv d (Hshape Hs)) as (_ & _ & He & _).
    rewrite E in He. apply iterable_join_ticked, He.
  - intros props E Hs. destruct (facets_shaped_inv d (Hshape Hs)) as (_ & Hp & _).
    rewrite E in Hp. destruct props; try discriminate Hp. eexists; reflexivity.
  - intros props name c E Hin Hs.
    destruct (facets_shaped_inv d (Hshape Hs)) as (_ & _ & _ & Hr & _).
    unfold dict_get_default. destruct (dict_get "required" d) as [req|].
    + apply iterable_py_contains, Hr.
    + eexists; reflexivity.
  - intros key options Hkey E Hs.
    destruct (facets_shaped_inv d (Hshape Hs)) as (_ & _ & _ & _ & Hc).
    specialize (Hc key Hkey). rewrite E in Hc. apply iterable_py_iter, Hc.
  - intros req E _ Hs. destruct (facets_shaped_inv d (Hshape Hs)) as (_ & _ & _ & Hr & _).
    rewrite E in Hr. apply iterable_join_ticked, Hr.
Qed.

(** ** The children of a node lie within it *)

Lemma json_size_pos v : 1 <= json_size v.
Proof. destruct v; simpl; lia. Qed.

Lemma list_sum_elem {X} (f : X -> nat) (l : list X) x :
  x ∈ l -> f x <= list_sum (map f l).
Proof.
  induction 1 as [x l|x y l _ IH]; simpl; lia.
Qed.

Lemma union_list_elem {X} (f : X -> refset) (l : list X) x :
  x ∈ l -> f x ⊆ ⋃ (map f l).
Proof.
  induction 1 as [x l|x y l _ IH]; simpl; set_solver.
Qed.

Lemma existsb_false_elem {X} (f : X -> bool) (l : list X) x :
  existsb f l = false -> x ∈ l -> f x = false.
Proof.
  intros H Hin. induction Hin as [x l|x y l _ IH]; simpl in H;
    apply orb_false_iff in H; destruct H as [H1 H2]; [exact H1|exact (IH H2)].
Qed.

Lemma forallb_true_elem {X} (f : X -> bool) (l : list X) x :
  forallb f l = true -> x ∈ l -> f x = true.
Proof.
  intros H Hin. induction Hin as [x l|x y l _ IH]; simpl in H;
    apply andb_true_iff in H; destruct H as [H1 H2]; [exact H1|exact (IH H2)].
Qed.

Lemma within_refl v : within v v.
Proof. repeat split; auto. Qed.

Lemma within_trans a b c : within a b -> within b c -> within a c.
Proof.
  intros (H1 & H2 & H3 & H4) (G1 & G2 & G3 & G4).
  repeat split; [lia|set_solver|auto|auto].
Qed.

Lemma within_atom c v :
  json_size c = 1 -> refs_of c = ∅ -> has_ref c = false -> well_shaped c = true ->
  within c v.
Proof.
  intros H1 H2 H3 H4. pose proof (json_size_pos v).
  repeat split; [lia|set_solver|auto|auto].
Qed.

Lemma within_entry d k c :
  (k, c) ∈ d -> within c (JObj d) /\ json_size c < json_size (JObj d).
Proof.
  intros Hin.
  pose proof (list_sum_elem (fun kv => S (json_size (snd kv))) d _ Hin) as Hs.
  pose proof (union_list_elem (fun kv => refs_of (snd kv)) d _ Hin) as Hr.
  simpl in Hs, Hr. split; [|simpl; lia].
  repeat split; simpl.
  - lia.
  - set_solver.
  - intros H. apply orb_false_iff in H. destruct H as [_ H].
    exact (existsb_false_elem _ _ _ H Hin).
  - intros H. apply andb_true_iff in H. destruct H as [_ H].
    exact (forallb_true_elem _ _ _ H Hin).
Qed.

Lemma within_elem xs c :
  c ∈ xs -> within c (JArr xs) /\ json_size c < json_size (JArr xs).
Proof.
  intros Hin.
  pose proof (list_sum_elem json_size xs _ Hin) as Hs.
  pose proof (union_list_elem refs_of xs _ Hin) as Hr.
  split; [|simpl; lia].
  repeat split; simpl.
  - lia.
  - exact Hr.
  - intros H. exact (existsb_false_elem _ _ _ H Hin).
  - intros H. exact (forallb_true_elem _ _ _ H Hin).
Qed.

Lemma dict_get_elem k d v : dict_get k d = Some v -> (k, v) ∈ d.
Proof.
  induction d as [|[k' v'] d IH]; simpl; [discriminate|].
  destruct (String.eqb k k') eqn:E.
  - apply String.eqb_eq in E. intros [= ->]. subst. left.
  - intros H. right. exact (IH H).
Qed.

Lemma within_dict_get d k c :
  dict_get k d = Some c -> within c (JObj d) /\ json_size c < json_size (JObj d).
Proof. intros H. eapply within_entry, dict_get_elem, H. Qed.

Lemma within_iter v xs c : py_iter v = Ok xs -> c ∈ xs -> within c v.
Proof.
  destruct v as [| | |s|ys|d]; simpl; try discriminate; intros [= <-] Hin.
  - apply list_elem_of_fmap in Hin. destruct Hin as (ch & -> & _).
    apply within_atom; reflexivity.
  - apply within_elem, Hin.
  - apply list_elem_of_fmap in Hin. destruct Hin as (kv & -> & _).
    apply within_atom; reflexivity.
Qed.

Lemma children_within d c :
  c ∈ children d -> within c (JObj d) /\ json_size c < json_size (JObj d).
Proof.
  unfold children. rewrite !elem_of_app. intros [H|[H|[H|H]]].
  - destruct (dict_get "properties" d) as [props|] eqn:E; [|inversion H].
    destruct props as [| | | | |kvs]; try (inversion H; fail).
    apply list_elem_of_fmap in H. destruct H as ([k c'] & -> & Hin).
    destruct (within_dict_get _ _ _ E) as [W1 S1].
    destruct (within_entry _ _ _ Hin) as [W2 S2].
    split; [eapply within_trans; eassumption|simpl in *; lia].
  - destruct (dict_get "items" d) as [it|] eqn:E; [|inversion H].
    apply list_elem_of_singleton in H. subst. apply within_dict_get in E. exact E.
  - apply list_elem_of_In, in_flat_map in H. destruct H as (key & _ & H).
    destruct (dict_get key d) as [options|] eqn:E; [|destruct H].
    destruct (py_iter options) as [subs|] eqn:Ei; [|destruct H].
    apply list_elem_of_In in H.
    destruct (within_dict_get _ _ _ E) as [W1 S1].
    pose proof (within_iter _ _ _ Ei H) as W2.
    split; [eapply within_trans; eassumption|].
    destruct W2 as [W2 _]. lia.
  - destruct (dict_get "additionalProperties" d) as [ap|] eqn:E; [|inversion H].
    destruct (is_bool_like ap); [inversion H|].
    apply list_elem_of_singleton in H. subst. apply within_dict_get in E. exact E.
Qed.

Lemma resolve_walk_within parts v : within (resolve_walk parts v) v.
Proof.
  revert v. induction parts as [|part rest IH]; intros v; simpl.
  - apply within_refl.
  - destruct v as [| | | | |d]; try (apply within_atom; reflexivity).
    destruct (dict_get part d) as [w|] eqn:E; [|apply within_atom; reflexivity].
    eapply within_trans; [apply IH|]. apply within_dict_get in E. apply E.
Qed.

Lemma resolve_ref_within p doc : within (resolve_ref p doc) doc.
Proof.
  unfold resolve_ref. destruct (negb (str_startswith "#/" p)).
  - apply within_atom; reflexivity.
  - apply resolve_walk_within.
Qed.

(** *** Strings *)

Lemma str_app_assoc (a b c : string) : (a ++ b) ++ c = a ++ b ++ c.
Proof.
  induction a as [|x a IH]; [reflexivity|].
  change (String x ((a ++ b) ++ c) = String x (a ++ b ++ c)). rewrite IH. reflexivity.
Qed.

Lemma str_app_nil_r (a : string) : a ++ EmptyString = a.
Proof.
  induction a as [|x a IH]; [reflexivity|].
  change (String x (a ++ EmptyString) = String x a). rewrite IH. reflexivity.
Qed.

(** ** Termination *)

Lemma own_ref_subset d : own_ref d ⊆ refs_of (JObj d).
Proof. simpl. set_solver. Qed.

Lemma fuel_bound_child d c doc seen :
  c ∈ children d -> fuel_bound c doc seen < fuel_bound (JObj d) doc seen.
Proof.
  intros Hc. destruct (children_within d c Hc) as [(_ & Hr & _) Hs].
  unfold fuel_bound.
  assert (size ((refs_of doc ∪ refs_of c) ∖ seen)
          <= size ((refs_of doc ∪ refs_of (JObj d)) ∖ seen)) as Hle.
  { apply subseteq_size. set_solver. }
  nia.
Qed.

Lemma fuel_bound_resolved d p k resolved doc seen :
  dict_get "$ref" d = Some p -> hash_key p = Ok k -> k ∉ seen ->
  within resolved doc ->
  fuel_bound resolved doc ({[k]} ∪ seen) < fuel_bound (JObj d) doc seen.
Proof.
  intros Hp Hk Hnot (Hs & Hr & _).
  assert (k ∈ refs_of (JObj d)) as Hin.
  { apply own_ref_subset. unfold own_ref. rewrite Hp, Hk. set_solver. }
  unfold fuel_bound.
  assert (size ((refs_of doc ∪ refs_of resolved) ∖ ({[k]} ∪ seen))
          < size ((refs_of doc ∪ refs_of (JObj d)) ∖ seen)) as Hlt.
  { apply subset_size. split; [set_solver|].
    intros Hsub. assert (k ∈ (refs_of doc ∪ refs_of (JObj d)) ∖ seen) as Hk' by set_solver.
    apply Hsub in Hk'. set_solver. }
  pose proof (json_size_pos (JObj d)). nia.
Qed.

Lemma format_schema_defined doc inl n :
  forall schema indent seen,
    fuel_bound schema doc seen < n ->
    is_Some (format_schema n schema doc indent seen inl).
Proof.
  induction n as [|n IH]; intros schema indent seen Hb; [lia|].
  simpl. unfold format_schema_body.
  destruct schema as [| | | | |d]; try (eexists; reflexivity).
  destruct (dict_get "$ref" d) as [p|] eqn:Href.
  - unfold format_ref. destruct (hash_key p) as [k|e] eqn:Hk; [|eexists; reflexivity].
    destruct (bool_decide (k ∈ seen)) eqn:Hseen; [eexists; reflexivity|].
    apply bool_decide_eq_false in Hseen.
    destruct inl; [|eexists; reflexivity].
    destruct (resolve_ref_value p doc) as [resolved|e] eqn:Hres; [|eexists; reflexivity].
    destruct (truthy resolved); [|eexists; reflexivity].
    assert (within resolved doc) as Hw.
    { destruct p; try discriminate Hres. injection Hres as <-. apply resolve_ref_within. }
    pose proof (fuel_bound_resolved d p k resolved doc seen Href Hk Hseen Hw) as Hlt.
    destruct (wcall_defined (format_schema n) resolved doc (indent + 1) ({[k]} ∪ seen) true)
      as [[o l] ->]; [apply IH; lia|].
    eexists; reflexivity.
  - destruct (facets_defined (format_schema n) d doc indent seen inl) as [[o l] ->].
    + intros c i Hc. apply IH. pose proof (fuel_bound_child d c doc seen Hc). lia.
    + eexists; reflexivity.
Qed.

(** A larger budget does not change what a call returns. *)
Lemma format_schema_body_mono (rec1 rec2 : renderer) :
  (forall s doc i seen inl r, rec1 s doc i seen inl = Some r -> rec2 s doc i seen inl = Some r) ->
  forall schema doc i seen inl r,
    format_schema_body rec1 schema doc i seen inl = Some r ->
    format_schema_body rec2 schema doc i seen inl = Some r.
Proof.
  intros Hrec schema doc i seen inl r. unfold format_schema_body.
  destruct schema as [| | | | |d]; try (intros H; exact H).
  destruct (dict_get "$ref" d) as [p|].
  - unfold format_ref. destruct (hash_key p) as [k|e]; [|intros H; exact H].
    destruct (bool_decide (k ∈ seen)); [intros H; exact H|].
    destruct inl; [|intros H; exact H].
    destruct (resolve_ref_value p doc) as [resolved|e]; [|intros H; exact H].
    destruct (truthy resolved); [|intros H; exact H].
    unfold wcall.
    destruct (rec1 resolved doc (i + 1) ({[k]} ∪ seen) true) as [r1|] eqn:E1; [|discriminate].
    rewrite (Hrec _ _ _ _ _ _ E1). intros H; exact H.
  - destruct (format_facets rec1 d doc i seen inl) as [[o l1]|] eqn:E1; [|discriminate].
    intros [= <-].
    destruct (facets_wrel eq rec1 rec2 d doc i seen seen inl) with (o := o) (l1 := l1)
      as (l2 & -> & Hl); [|exact E1|].
    + intros c j _. apply wrel_call. intros r1 Hr1. exists r1.
      split; [apply Hrec, Hr1|]. split; reflexivity.
    + assert (l1 = l2) as ->; [|reflexivity].
      clear E1. induction Hl; congruence.
Qed.

Lemma format_schema_mono_step n :
  forall schema doc i seen inl r,
    format_schema n schema doc i seen inl = Some r ->
    format_schema (S n) schema doc i seen inl = Some r.
Proof.
  induction n as [|n IH]; intros schema doc i seen inl r; [discriminate|].
  change (format_schema (S (S n))) with (format_schema_body (format_schema (S n))).
  change (format_schema (S n)) with (format_schema_body (format_schema n)) at 1.
  apply format_schema_body_mono. exact IH.
Qed.

Lemma format_schema_mono n m schema doc i seen inl r :
  n <= m ->
  format_schema n schema doc i seen inl = Some r ->
  format_schema m schema doc i seen inl = Some r.
Proof.
  induction 1 as [|m _ IH]; intros H; [exact H|].
  apply format_schema_mono_step, IH, H.
Qed.

(** There is one result that every budget above [fuel_bound] produces. *)
Lemma format_schema_total (schema doc : json) (indent : nat) (seen : refset)
    (inline : bool) :
  exists r,
    forall fuel, fuel_bound schema doc seen < fuel ->
      format_schema fuel schema doc indent seen inline = Some r.
Proof.
  destruct (format_schema_defined doc inline (S (fuel_bound schema doc seen))
              schema indent seen) as [r Hr]; [lia|].
  exists r. intros fuel Hf.
  apply (format_schema_mono (S (fuel_bound schema doc seen))); [lia|exact Hr].
Qed.

(** ** The [$ref] branch of the schema renderer *)

Lemma format_schema_ref fuel d ref_path doc indent seen inline :
  dict_get "$ref" d = Some ref_path ->
  format_schema (S fuel) (JObj d) doc indent seen inline
  = format_ref (format_schema fuel) ref_path doc indent seen inline.
Proof. intros H. simpl. rewrite H. reflexivity. Qed.


(** A [$ref] node whose reference path is already in the visited-set: the
    bullet, the marker line, and nothing else. *)
Lemma circular_reference_local (fuel : nat) (d : dict) (ref_path : json) (k : hkey)
    (doc : json) (indent : nat) (seen : refset) (inline : bool) :
  dict_get "$ref" d = Some ref_path ->
  hash_key ref_path = Ok k ->
  k ∈ seen ->
  format_schema (S fuel) (JObj d) doc indent seen inline
  = Some (Run (Ok (ref_bullet (indent_of indent) ref_path
                   ++ indent_of indent ++ circular_marker ++ nl)) seen []).
Proof.
  intros Href Hk Hin. rewrite (format_schema_ref _ _ _ _ _ _ _ Href).
  unfold format_ref. rewrite Hk. rewrite bool_decide_true by exact Hin.
  reflexivity.
Qed.

(** With inlining disabled, a [$ref] node not yet visited: the bullet only,
    whatever the document. *)
Lemma reference_only_local (fuel : nat) (d : dict) (ref_path : json) (k : hkey)
    (doc : json) (indent : nat) (seen : refset) :
  dict_get "$ref" d = Some ref_path ->
  hash_key ref_path = Ok k ->
  k ∉ seen ->
  format_schema (S fuel) (JObj d) doc indent seen false
  = Some (Run (Ok (ref_bullet (indent_of indent) ref_path)) ({[k]} ∪ seen) []).
Proof.
  intros Href Hk Hnot. rewrite (format_schema_ref _ _ _ _ _ _ _ Href).
  unfold format_ref. rewrite Hk. rewrite bool_decide_false by exact Hnot.
  reflexivity.
Qed.

(** With inlining enabled, what a [$ref] node not yet visited renders is
    decided by the truth value of what [resolve_ref] returned. *)
Lemma inline_ref_unfold fuel d p doc indent seen :
  dict_get "$ref" d = Some (JStr p) ->
  HStr p ∉ seen ->
  format_schema (S fuel) (JObj d) doc indent seen true
  = if truthy (resolve_ref p doc) then
      match wcall (format_schema fuel) (resolve_ref p doc) doc (indent + 1)
                  ({[HStr p]} ∪ seen) true with
      | None => None
      | Some (o, calls) =>
          Some (Run (obind o (fun sub =>
                       Ok (ref_bullet (indent_of indent) (JStr p)
                           ++ indent_of indent ++ resolved_header ++ nl ++ sub)))
                    ({[HStr p]} ∪ seen) calls)
      end
    else
      Some (Run (Ok (ref_bullet (indent_of indent) (JStr p)
                     ++ indent_of indent ++ unresolved_marker ++ nl))
                ({[HStr p]} ∪ seen) []).
Proof.
  intros Href Hnot. rewrite (format_schema_ref _ _ _ _ _ _ _ Href).
  unfold format_ref. cbn [hash_key resolve_ref_value].
  rewrite bool_decide_false by exact Hnot. reflexivity.
Qed.

(** C2, at a reference to the empty schema.  [resolve_ref] locates the
    subtree ([{}], the schema that accepts anything), yet the renderer, which
    tests the truth value of what was resolved, writes the unable-to-resolve
    marker and does not recurse. *)
Theorem empty_schema_reported_unresolved :
  let doc := JObj [("components", JObj [("schemas", JObj [("Any", JObj [])])])] in
  let schema := JObj [("$ref", JStr "#/components/schemas/Any")] in
  reaches doc ["components"; "schemas"; "Any"] (JObj []) /\
  resolve_ref "#/components/schemas/Any" doc = JObj [] /\
  forall fuel,
    format_schema (S fuel) schema doc 0 ∅ true
    = Some (Run (Ok (ref_bullet (indent_of 0) (JStr "#/components/schemas/Any")
                     ++ indent_of 0 ++ unresolved_marker ++ nl))
                ({[HStr "#/components/schemas/Any"]} ∪ ∅) []).
Proof.
  intros doc schema. split; [|split].
  - repeat (econstructor; [reflexivity|]). constructor.
  - reflexivity.
  - intros fuel. unfold schema.
    rewrite (inline_ref_unfold fuel [("$ref", JStr "#/components/schemas/Any")]
               "#/components/schemas/Any" doc 0 ∅ eq_refl)
      by apply not_elem_of_empty.
    reflexivity.
Qed.

(** ** The endpoint renderer *)

Lemma dict_get_remove_eq k d : dict_get k (dict_remove k d) = None.
Proof.
  induction d as [|[k' v] d IH]; simpl; [reflexivity|].
  destruct (String.eqb k k') eqn:E; [exact IH|]. simpl. rewrite E. exact IH.
Qed.

Lemma dict_get_remove_ne k k' d :
  k <> k' -> dict_get k' (dict_remove k d) = dict_get k' d.
Proof.
  intros Hne. induction d as [|[k'' v] d IH]; simpl; [reflexivity|].
  destruct (String.eqb k k'') eqn:E.
  - apply String.eqb_eq in E. subst k''.
    destruct (String.eqb k' k) eqn:E'; [|exact IH].
    apply String.eqb_eq in E'. congruence.
  - simpl. rewrite IH. reflexivity.
Qed.

Lemma parameters_section_falsy fuel doc inline op parameters :
  dict_get "parameters" op = Some parameters -> truthy parameters = false ->
  parameters_section fuel doc inline op = wret EmptyString.
Proof. intros H Hf. unfold parameters_section. rewrite H, Hf. reflexivity. Qed.

(** C3, as the code has it.  An operation whose [parameters] key is present
    but bound to an empty list (or to any other false value) gets no
    parameters section at all: the endpoint renders exactly as if the key
    were absent.  The "no parameters" marker is what [format_parameters]
    returns for an empty list, but the endpoint renderer does not call it
    then.  A section whose key is absent from the operation is omitted. *)
Theorem empty_parameters_section_omitted (fuel : nat) (doc : json) (inline : bool)
    (path method : string) (op : dict) :
  (forall parameters,
      dict_get "parameters" op = Some parameters -> truthy parameters = false ->
      parameters_section fuel doc inline op = wret EmptyString /\
      format_endpoint fuel doc inline path method op
      = format_endpoint fuel doc inline path method (dict_remove "parameters" op)) /\
  (dict_get "parameters" op = None ->
   parameters_section fuel doc inline op = wret EmptyString) /\
  (dict_get "requestBody" op = None ->
   request_body_section fuel doc inline op = wret EmptyString) /\
  (dict_get "responses" op = None ->
   responses_section fuel doc inline op = wret EmptyString) /\
  (dict_get "security" op = None -> security_section op = wret EmptyString) /\
  format_parameters fuel doc inline (JArr []) = wret ("*No parameters*" ++ nl ++ nl).
Proof.
  split; [|repeat split].
  - intros parameters H Hf. split.
    + exact (parameters_section_falsy fuel doc inline op parameters H Hf).
    + unfold format_endpoint.
      rewrite (parameters_section_falsy fuel doc inline op parameters H Hf).
      unfold parameters_section, request_body_section, responses_section,
        security_section, endpoint_heading.
      rewrite dict_get_remove_eq.
      rewrite !dict_get_remove_ne by discriminate.
      reflexivity.
  - intros H. unfold parameters_section. rewrite H. reflexivity.
  - intros H. unfold request_body_section. rewrite H. reflexivity.
  - intros H. unfold responses_section. rewrite H. reflexivity.
  - intros H. unfold security_section. rewrite H. reflexivity.
Qed.

Lemma empty_parameters_section_omitted_witness :
  parameters_section 1 (JObj []) true [("summary", JStr "List"); ("parameters", JArr [])]
  = wret EmptyString /\
  format_endpoint 1 (JObj []) true "/pets" "get"
    [("summary", JStr "List"); ("parameters", JArr [])]
  = format_endpoint 1 (JObj []) true "/pets" "get"
      (dict_remove "parameters" [("summary", JStr "List"); ("parameters", JArr [])]).
Proof.
  apply (proj1 (empty_parameters_section_omitted 1 (JObj []) true "/pets" "get"
                  [("summary", JStr "List"); ("parameters", JArr [])]) (JArr []));
    reflexivity.
Defined.

(** C3 as written fails: for an operation with [parameters: []] the endpoint
    renderer writes neither the parameters heading nor the marker. *)
Lemma empty_parameters_marker_absent :
  exists out,
    format_endpoint 1 (JObj []) true "/pets" "get" [("parameters", JArr [])]
    = Some (Ok out, []) /\
    out = "## `GET /pets`" ++ nl ++ nl ++ "---" ++ nl ++ nl ++ nl ++ "---" ++ nl ++ nl /\
    str_contains "No parameters" out = false /\
    str_contains "### Parameters" out = false.
Proof.
  eexists. split; [reflexivity|]. split; [reflexivity|]. split; reflexivity.
Qed.

(** ** Schemas without references *)

Lemma has_ref_false_no_ref d : has_ref (JObj d) = false -> dict_get "$ref" d = None.
Proof.
  simpl. intros H. apply orb_false_iff in H. destruct H as [H _].
  unfold dict_has in H. destruct (dict_get "$ref" d); [discriminate|reflexivity].
Qed.

Lemma wrel_output_eq {A} (w1 w2 : W A) :
  wrel (fun _ _ => True) A w1 w2 -> wrel (fun _ _ => True) A w2 w1 ->
  fst <$> w1 = fst <$> w2.
Proof.
  intros H12 H21. destruct w1 as [[o1 l1]|].
  - destruct (H12 _ _ eq_refl) as (l2 & -> & _). reflexivity.
  - destruct w2 as [[o2 l2]|]; [|reflexivity].
    destruct (H21 _ _ eq_refl) as (l1 & Habs & _). discriminate Habs.
Qed.

Lemma no_ref_same_output doc inl n :
  forall schema indent seen1 seen2,
    has_ref schema = false ->
    r_out <$> format_schema n schema doc indent seen1 inl
    = r_out <$> format_schema n schema doc indent seen2 inl.
Proof.
  induction n as [|n IH]; intros schema indent seen1 seen2 Hno; [reflexivity|].
  simpl. unfold format_schema_body.
  destruct schema as [| | | | |d]; try reflexivity.
  rewrite (has_ref_false_no_ref d Hno).
  assert (forall s1 s2,
             wrel (fun _ _ => True) string
               (format_facets (format_schema n) d doc indent s1 inl)
               (format_facets (format_schema n) d doc indent s2 inl)) as Hrel.
  { intros s1 s2. apply facets_wrel. intros c i Hc. apply wrel_call. intros r1 Hr1.
    destruct (children_within d c Hc) as [(_ & _ & Hh & _) _].
    pose proof (IH c i s1 s2 (Hh Hno)) as Heq. rewrite Hr1 in Heq.
    destruct (format_schema n c doc i s2 inl) as [r2|]; [|discriminate Heq].
    injection Heq as Heq. exists r2. repeat split. symmetry. exact Heq. }
  pose proof (wrel_output_eq _ _ (Hrel seen1 seen2) (Hrel seen2 seen1)) as Heq.
  destruct (format_facets (format_schema n) d doc indent seen1 inl) as [[o1 l1]|];
    destruct (format_facets (format_schema n) d doc indent seen2 inl) as [[o2 l2]|];
    simpl in *; congruence.
Qed.

Lemma fuel_bound_seen schema doc seen :
  fuel_bound schema doc seen <= fuel_bound schema doc ∅.
Proof.
  unfold fuel_bound.
  assert (size ((refs_of doc ∪ refs_of schema) ∖ seen)
          <= size ((refs_of doc ∪ refs_of schema) ∖ ∅)) as H.
  { apply subseteq_size. set_solver. }
  nia.
Qed.

(** C8.  A schema node with no [$ref] anywhere in it renders to one and the
    same output whatever visited-set it is given: the rendering terminates,
    and the string it returns (or the exception it raises) is the same for
    every visited-set. *)
Theorem no_ref_render_ignores_visited (schema doc : json) (indent : nat) (inline : bool) :
  has_ref schema = false ->
  exists out,
    forall (seen : refset) fuel, fuel_bound schema doc ∅ < fuel ->
      r_out <$> format_schema fuel schema doc indent seen inline = Some out.
Proof.
  intros Hno.
  destruct (format_schema_total schema doc indent ∅ inline) as [r Hr].
  exists (r_out r). intros seen fuel Hf.
  rewrite (no_ref_same_output doc inline fuel schema indent seen ∅ Hno).
  rewrite (Hr fuel Hf). reflexivity.
Qed.

Lemma no_ref_render_ignores_visited_witness :
  exists out,
    forall (seen : refset) fuel,
      fuel_bound (JObj [("type", JStr "array"); ("items", JObj [("type", JStr "string")])])
                 (JObj []) ∅ < fuel ->
      r_out <$> format_schema fuel
                  (JObj [("type", JStr "array"); ("items", JObj [("type", JStr "string")])])
                  (JObj []) 0 seen true
      = Some out.
Proof.
  apply (no_ref_render_ignores_visited
           (JObj [("type", JStr "array"); ("items", JObj [("type", JStr "string")])])
           (JObj []) 0 true).
  reflexivity.
Defined.

(** ** The calls a rendering makes *)

Lemma call_tree_induction (P : call_tree -> Prop) :
  (forall node i seen o subs, Forall P subs -> P (Call node i seen o subs)) ->
  forall c, P c.
Proof.
  intros H. fix IH 1. intros [node i seen o subs]. apply H.
  induction subs as [|s subs IHs]; constructor; [apply IH|exact IHs].
Qed.

Lemma every_call_impl (P Q : call_tree -> Prop) c :
  (forall c', P c' -> Q c') -> every_call P c -> every_call Q c.
Proof.
  intros HPQ. induction c as [node i seen o subs IH] using call_tree_induction.
  intros H. inversion H as [c' Hc Hsubs]; subst. constructor; [apply HPQ, Hc|].
  simpl in *. apply Forall_forall. intros s Hin.
  apply (proj1 (Forall_forall _ _) IH s Hin).
  apply (proj1 (Forall_forall _ _) Hsubs s Hin).
Qed.

(** The calls logged by one call are direct calls of it and are genuine. *)
Lemma run_direct_calls n node doc i seen inl r :
  format_schema n node doc i seen inl = Some r ->
  Forall (fun s => direct_call doc inl node i seen s /\ genuine doc inl s) (r_calls r).
Proof.
  destruct n as [|n]; [discriminate|]. simpl. unfold format_schema_body.
  destruct node as [| | | | |d]; try (intros [= <-]; constructor).
  unfold direct_call. destruct (dict_get "$ref" d) as [p|] eqn:Href.
  - unfold format_ref. destruct (hash_key p) as [k|e] eqn:Hk; [|intros [= <-]; constructor].
    destruct (bool_decide (k ∈ seen)) eqn:Hseen; [intros [= <-]; constructor|].
    apply bool_decide_eq_false in Hseen.
    destruct inl; [|intros [= <-]; constructor].
    destruct (resolve_ref_value p doc) as [resolved|e] eqn:Hres; [|intros [= <-]; constructor].
    destruct (truthy resolved) eqn:Ht; [|intros [= <-]; constructor].
    unfold wcall.
    destruct (format_schema n resolved doc (i + 1) ({[k]} ∪ seen) true) as [r1|] eqn:E1;
      [|discriminate].
    intros [= <-]. simpl. constructor; [|constructor].
    destruct p as [| | |path| |]; try discriminate Hres.
    injection Hres as <-. injection Hk as <-.
    split.
    + split; [reflexivity|]. exists path. repeat split; assumption.
    + exists n, r1. repeat split. exact E1.
  - destruct (format_facets (format_schema n) d doc i seen inl) as [[o l]|] eqn:E;
      [|discriminate].
    intros [= <-]. simpl.
    refine (proj2 (facets_wsat false
              (fun s => (call_node s ∈ children d /\ call_seen s = seen) /\ genuine doc inl s)
              (format_schema n) d doc i seen inl _ _ o l E)).
    + discriminate.
    + intros c j Hc. apply wsat_call. intros r1 Hr1. split; [discriminate|].
      split; [split; [exact Hc|reflexivity]|].
      exists n, r1. repeat split. exact Hr1.
Qed.

Lemma genuine_faithful doc inl c : genuine doc inl c -> every_call (faithful doc inl) c.
Proof.
  induction c as [node i seen o subs IH] using call_tree_induction.
  intros Hg. pose proof Hg as (n & r & Hr & Ho & Hs). simpl in Hr, Ho, Hs. subst o subs.
  pose proof (run_direct_calls _ _ _ _ _ _ _ Hr) as Hd.
  constructor.
  - split; [exact Hg|]. simpl. eapply Forall_impl; [exact Hd|]. intros s Hsd. apply Hsd.
  - simpl. apply Forall_forall. intros s Hin.
    apply (proj1 (Forall_forall _ _) IH s Hin).
    apply (proj1 (Forall_forall _ _) Hd s Hin).
Qed.

(** Every call recorded in the call tree of a rendering is an actual call
    of [format_schema], made by the call above it. *)
Lemma run_faithful n node doc i seen inl r :
  format_schema n node doc i seen inl = Some r ->
  every_call (faithful doc inl) (Call node i seen (r_out r) (r_calls r)).
Proof.
  intros Hr. apply genuine_faithful. exists n, r. repeat split. exact Hr.
Qed.

Lemma run_seen n node doc i seen inl r :
  format_schema n node doc i seen inl = Some r ->
  r_seen r = seen_for_children node seen.
Proof.
  destruct n as [|n]; [discriminate|]. simpl. unfold format_schema_body, seen_for_children.
  destruct node as [| | | | |d]; try (intros [= <-]; reflexivity).
  destruct (dict_get "$ref" d) as [p|].
  - unfold format_ref. destruct (hash_key p) as [k|e]; [|intros [= <-]; reflexivity].
    destruct (bool_decide (k ∈ seen)) eqn:Hseen.
    + apply bool_decide_eq_true in Hseen. intros [= <-]. simpl. set_solver.
    + destruct inl; [|intros [= <-]; reflexivity].
      destruct (resolve_ref_value p doc) as [resolved|e]; [|intros [= <-]; reflexivity].
      destruct (truthy resolved); [|intros [= <-]; reflexivity].
      destruct (wcall _ _ _ _ _ _) as [[o l]|]; [|discriminate].
      intros [= <-]. reflexivity.
  - destruct (format_facets _ _ _ _ _ _) as [[o l]|]; [|discriminate].
    intros [= <-]. reflexivity.
Qed.

Lemma faithful_hands_down doc inl c : faithful doc inl c -> hands_down_seen c.
Proof.
  intros [_ Hd]. unfold hands_down_seen. eapply Forall_impl; [exact Hd|].
  intros s. unfold direct_call, seen_for_children.
  destruct (call_node c) as [| | | | |d]; try (intros []).
  destruct (dict_get "$ref" d) as [p|].
  - intros (_ & path & -> & _ & _ & _ & _ & Hs). exact Hs.
  - intros [_ Hs]. exact Hs.
Qed.

Lemma seen_for_children_grows node seen : seen ⊆ seen_for_children node seen.
Proof.
  unfold seen_for_children. destruct node as [| | | | |d]; try set_solver.
  destruct (dict_get "$ref" d) as [p|]; [|set_solver].
  destruct (hash_key p); set_solver.
Qed.

(** What a call and the calls below it enter was not in the visited-set the
    call received. *)
Lemma entered_fresh c : every_call hands_down_seen c -> entered c ## call_seen c.
Proof.
  induction c as [node i seen o subs IH] using call_tree_induction.
  intros H. inversion H as [c' Hh Hsubs]; subst. simpl in *.
  apply disjoint_union_l. split; [set_solver|].
  apply elem_of_disjoint. intros k Hk Hin.
  apply elem_of_union_list in Hk. destruct Hk as (X & HX & HkX).
  apply list_elem_of_fmap in HX. destruct HX as (s & -> & Hs).
  pose proof (proj1 (Forall_forall _ _) IH s Hs
                (proj1 (Forall_forall _ _) Hsubs s Hs)) as Hdis.
  pose proof (proj1 (Forall_forall _ _) Hh s Hs) as Heq. simpl in Heq.
  pose proof (seen_for_children_grows node seen) as Hsub.
  set_solver.
Qed.

Lemma hands_down_isolated c :
  every_call hands_down_seen c -> every_call siblings_isolated c.
Proof.
  induction c as [node i seen o subs IH] using call_tree_induction.
  intros H. inversion H as [c' Hh Hsubs]; subst. simpl in *. constructor.
  - intros a b s1 s2 _ H1 H2. simpl in H1, H2.
    apply list_elem_of_lookup_2 in H1, H2.
    pose proof (entered_fresh s1 (proj1 (Forall_forall _ _) Hsubs s1 H1)) as Hf.
    pose proof (proj1 (Forall_forall _ _) Hh s1 H1) as E1.
    pose proof (proj1 (Forall_forall _ _) Hh s2 H2) as E2.
    simpl in E1, E2. rewrite E2, <- E1. exact Hf.
  - simpl. apply Forall_forall. intros s Hs.
    apply (proj1 (Forall_forall _ _) IH s Hs), (proj1 (Forall_forall _ _) Hsubs s Hs).
Qed.

Lemma every_call_and (P Q : call_tree -> Prop) c :
  every_call P c -> every_call Q c -> every_call (fun c' => P c' /\ Q c') c.
Proof.
  induction c as [node i seen o subs IH] using call_tree_induction.
  intros HP HQ. inversion HP as [c1 Hp Hps]; inversion HQ as [c2 Hq Hqs]; subst.
  constructor; [split; assumption|]. simpl in *.
  apply Forall_forall. intros s Hs.
  apply (proj1 (Forall_forall _ _) IH s Hs).
  - apply (proj1 (Forall_forall _ _) Hps s Hs).
  - apply (proj1 (Forall_forall _ _) Hqs s Hs).
Qed.

(** C5.  Every rendering returns; throughout it, every call hands to each call it
    makes the visited-set exactly as it received it (extended by its own
    reference path when the node is a [$ref] node, which has a single
    child): the calls on sibling properties, on [items], on the options of
    a composition and on [additionalProperties] all receive the visited-set
    as it stood at the parent call, and no reference path entered in one
    branch is in the visited-set that another branch receives.  The set
    object of the call itself ends as that same set. *)
Theorem sibling_branches_isolated (schema doc : json) (indent : nat)
    (seen : refset) (inline : bool) :
  exists r,
    (forall fuel, fuel_bound schema doc seen < fuel ->
       format_schema fuel schema doc indent seen inline = Some r) /\
    r_seen r = seen_for_children schema seen /\
    every_call
      (fun c =>
         hands_down_seen c /\
         siblings_isolated c /\
         (forall d, call_node c = JObj d -> dict_get "$ref" d = None ->
                    Forall (fun s => call_seen s = call_seen c) (call_subs c)))
      (Call schema indent seen (r_out r) (r_calls r)).
Proof.
  destruct (format_schema_total schema doc indent seen inline) as [r Hall].
  exists r. split; [exact Hall|].
  pose proof (Hall _ (Nat.lt_succ_diag_r _)) as Hr.
  split; [exact (run_seen _ _ _ _ _ _ _ Hr)|].
  pose proof (run_faithful _ _ _ _ _ _ _ Hr) as Hf.
  assert (every_call hands_down_seen (Call schema indent seen (r_out r) (r_calls r))) as Hh.
  { eapply every_call_impl; [|exact Hf]. apply faithful_hands_down. }
  apply every_call_and; [exact Hh|]. apply every_call_and.
  - apply hands_down_isolated, Hh.
  - eapply every_call_impl; [|exact Hh]. intros c Hc d Hd Href.
    unfold hands_down_seen, seen_for_children in Hc. rewrite Hd, Href in Hc. exact Hc.
Qed.

(** The rendering of a schema with two properties that refer to the same
    definition: both branches expand it. *)
Lemma sibling_branches_isolated_witness :
  let schema :=
    JObj [("properties",
           JObj [("owner", JObj [("$ref", JStr "#/defs/User")]);
                 ("editor", JObj [("$ref", JStr "#/defs/User")])])] in
  let doc := JObj [("defs", JObj [("User", JObj [("type", JStr "string")])])] in
  exists r,
    (forall fuel, fuel_bound schema doc ∅ < fuel ->
       format_schema fuel schema doc 0 ∅ true = Some r) /\
    r_seen r = seen_for_children schema ∅ /\
    every_call
      (fun c =>
         hands_down_seen c /\
         siblings_isolated c /\
         (forall d, call_node c = JObj d -> dict_get "$ref" d = None ->
                    Forall (fun s => call_seen s = call_seen c) (call_subs c)))
      (Call schema 0 ∅ (r_out r) (r_calls r)).
Proof.
  intros schema doc. exact (sibling_branches_isolated schema doc 0 ∅ true).
Defined.

(** A property of the root that each call passes on to the calls it makes
    holds of every call. *)
Lemma every_call_propagate (F P : call_tree -> Prop) c :
  every_call F c -> P c ->
  (forall c' s, F c' -> P c' -> s ∈ call_subs c' -> P s) ->
  every_call P c.
Proof.
  intros HF HP Hstep. revert HF HP.
  induction c as [node i seen o subs IH] using call_tree_induction.
  intros HF HP. inversion HF as [c' Hf Hsubs]; subst. simpl in *.
  constructor; [exact HP|]. simpl. apply Forall_forall. intros s Hs.
  apply (proj1 (Forall_forall _ _) IH s Hs).
  - apply (proj1 (Forall_forall _ _) Hsubs s Hs).
  - apply (Hstep _ s Hf HP). exact Hs.
Qed.

Lemma direct_call_ref_key doc inl node indent seen s :
  direct_call doc inl node indent seen s ->
  match ref_key node with
  | Some k => (k ∉ seen) /\ call_seen s = {[k]} ∪ seen /\ inl = true
  | None => call_seen s = seen /\ json_size (call_node s) < json_size node
  end.
Proof.
  unfold direct_call, ref_key. destruct node as [| | | | |d]; try (intros []).
  destruct (dict_get "$ref" d) as [p|].
  - intros (Hinl & path & -> & Hnot & _ & _ & _ & Hs). simpl. auto.
  - intros [Hc Hs]. split; [exact Hs|]. apply children_within, Hc.
Qed.

Lemma faithful_descends doc inl c : faithful doc inl c -> descends c.
Proof.
  intros [_ Hd]. unfold descends. eapply Forall_impl; [exact Hd|].
  intros s Hs. apply direct_call_ref_key in Hs.
  destruct (ref_key (call_node c)) as [k|] eqn:Hk; [|exact Hs].
  destruct Hs as (Hnot & Hs & _). rewrite Hs.
  assert (k ∈ refs_of (call_node c)) as Hin.
  { unfold ref_key in Hk. destruct (call_node c) as [| | | | |d]; try discriminate Hk.
    apply own_ref_subset. unfold own_ref.
    destruct (dict_get "$ref" d) as [p|]; [|discriminate Hk].
    destruct (hash_key p); [|discriminate Hk]. injection Hk as ->. set_solver. }
  split; [|set_solver]. split; [set_solver|].
  intros Hsub. apply Hnot, Hsub. set_solver.
Qed.

Lemma faithful_on_branch doc inl seen0 c :
  every_call (faithful doc inl) c ->
  forall chain,
    call_seen c = list_to_set chain ∪ seen0 -> NoDup chain ->
    (forall k, k ∈ chain -> k ∉ seen0) ->
    on_branch seen0 chain c.
Proof.
  induction c as [node i seen o subs IH] using call_tree_induction.
  intros Hf chain Hseen Hnd Hfresh. inversion Hf as [c' [_ Hd] Hsubs]; subst.
  simpl in *. constructor; try assumption.
  { simpl. rewrite Hseen, size_union by set_solver.
    rewrite size_list_to_set by exact Hnd. reflexivity. }
  simpl. apply Forall_forall. intros s Hs.
  pose proof (direct_call_ref_key _ _ _ _ _ _ (proj1 (Forall_forall _ _) Hd s Hs)) as Hk.
  apply (proj1 (Forall_forall _ _) IH s Hs).
  - apply (proj1 (Forall_forall _ _) Hsubs s Hs).
  - destruct (ref_key node) as [k|].
    + destruct Hk as (_ & -> & _). rewrite Hseen. simpl. set_solver.
    + destruct Hk as [-> _]. exact Hseen.
  - destruct (ref_key node) as [k|]; [|exact Hnd].
    destruct Hk as (Hnot & _ & _). apply NoDup_cons. split; [|exact Hnd].
    intros Hin. apply Hnot. rewrite Hseen. set_solver.
  - destruct (ref_key node) as [k|]; [|exact Hfresh].
    destruct Hk as (Hnot & _ & _). intros k' Hin.
    apply elem_of_cons in Hin. destruct Hin as [->|Hin]; [|apply Hfresh, Hin].
    intros Hk0. apply Hnot. rewrite Hseen. set_solver.
Qed.

(** In a rendering, the visited-set of every call is the initial set and
    the reference paths of the [$ref] nodes above the call. *)
Lemma run_on_branch n node doc i seen inl r :
  format_schema n node doc i seen inl = Some r ->
  on_branch seen [] (Call node i seen (r_out r) (r_calls r)).
Proof.
  intros Hr. eapply faithful_on_branch.
  - exact (run_faithful _ _ _ _ _ _ _ Hr).
  - simpl. set_solver.
  - constructor.
  - intros k Hk. inversion Hk.
Qed.

Lemma genuine_stops_at_reentry doc inl c : genuine doc inl c -> stops_at_reentry c.
Proof.
  intros (n & r & Hr & Ho & Hs) d p k Hd Hp Hk Hin.
  destruct n as [|n]; [discriminate Hr|]. rewrite Hd in Hr.
  rewrite (circular_reference_local n d p k doc _ _ inl Hp Hk Hin) in Hr.
  injection Hr as <-. rewrite Ho, Hs. split; reflexivity.
Qed.



Lemma faithful_no_inline_seen doc c s :
  faithful doc false c -> s ∈ call_subs c -> call_seen s = call_seen c.
Proof.
  intros [_ Hd] Hs.
  pose proof (direct_call_ref_key _ _ _ _ _ _ (proj1 (Forall_forall _ _) Hd s Hs)) as Hk.
  destruct (ref_key (call_node c)).
  - destruct Hk as (_ & _ & Habs). discriminate Habs.
  - apply Hk.
Qed.

Lemma genuine_reference_only doc c :
  genuine doc false c -> reference_only (call_seen c) c.
Proof.
  intros (n & r & Hr & Ho & Hs). split; [reflexivity|]. intros d p k Hd Hp Hk Hnot.
  destruct n as [|n]; [discriminate Hr|]. rewrite Hd in Hr.
  rewrite (reference_only_local n d p k doc _ _ Hp Hk Hnot) in Hr.
  injection Hr as <-. rewrite Ho, Hs. split; reflexivity.
Qed.

(** C6, as the code has it.  With inlining disabled, every rendering
    returns and each of its calls receives the visited-set the rendering
    started with.  A [$ref] node whose path is not in this set renders as
    the reference-path bullet line only, with no recursive call: no
    resolved-definition block and no unable-to-resolve marker, whatever the
    document holds at the path; in a rendering started with the empty set,
    as [format_endpoint] starts every one, this is so for every [$ref]
    node.  A [$ref] node whose path is in the set renders as the bullet
    line followed by the circular-reference marker line: the visited-set
    is tested before the mode. *)
Theorem reference_only_mode (schema doc : json) (indent : nat) (seen : refset) :
  exists r,
    (forall fuel, fuel_bound schema doc seen < fuel ->
       format_schema fuel schema doc indent seen false = Some r) /\
    every_call (reference_only seen) (Call schema indent seen (r_out r) (r_calls r)) /\
    every_call stops_at_reentry (Call schema indent seen (r_out r) (r_calls r)) /\
    (seen = ∅ -> every_call bullet_only (Call schema indent seen (r_out r) (r_calls r))).
Proof.
  destruct (format_schema_total schema doc indent seen false) as [r Hall].
  exists r. split; [exact Hall|].
  pose proof (Hall _ (Nat.lt_succ_diag_r _)) as Hr.
  pose proof (run_faithful _ _ _ _ _ _ _ Hr) as Hf.
  assert (every_call (fun c => call_seen c = seen)
            (Call schema indent seen (r_out r) (r_calls r))) as Hseen.
  { eapply every_call_propagate; [exact Hf|reflexivity|].
    intros c s Hc Hcs Hin. rewrite <- Hcs. exact (faithful_no_inline_seen doc c s Hc Hin). }
  assert (every_call (reference_only seen)
            (Call schema indent seen (r_out r) (r_calls r))) as Hro.
  { eapply every_call_impl; [|exact (every_call_and _ _ _ Hf Hseen)].
    intros c [[Hg _] Hcs]. rewrite <- Hcs. exact (genuine_reference_only doc c Hg). }
  split; [exact Hro|]. split.
  - eapply every_call_impl; [|exact Hf].
    intros c [Hg _]. exact (genuine_stops_at_reentry doc false c Hg).
  - intros ->. eapply every_call_impl; [|exact Hro].
    intros c [_ Hc] d p k Hd Hp Hk. apply (Hc d p k Hd Hp Hk). set_solver.
Qed.

(** A schema with one reference that resolves and one that does not. *)
Lemma reference_only_mode_witness :
  let schema :=
    JObj [("properties",
           JObj [("owner", JObj [("$ref", JStr "#/defs/User")]);
                 ("pet", JObj [("$ref", JStr "#/defs/Missing")])])] in
  let doc := JObj [("defs", JObj [("User", JObj [("type", JStr "string")])])] in
  exists r,
    (forall fuel, fuel_bound schema doc ∅ < fuel ->
       format_schema fuel schema doc 0 ∅ false = Some r) /\
    every_call (reference_only ∅) (Call schema 0 ∅ (r_out r) (r_calls r)) /\
    every_call stops_at_reentry (Call schema 0 ∅ (r_out r) (r_calls r)) /\
    every_call bullet_only (Call schema 0 ∅ (r_out r) (r_calls r)).
Proof.
  intros schema doc.
  destruct (reference_only_mode schema doc 0 ∅) as (r & Hall & Hro & Hstop & Hbullet).
  exists r. split; [exact Hall|]. split; [exact Hro|]. split; [exact Hstop|].
  apply Hbullet. reflexivity.
Defined.

(** C6 as written fails: with inlining disabled, a [$ref] node whose path
    is already in the visited-set it receives does not render as the
    bullet line only; the circular-reference marker line follows. *)
Lemma visited_reference_gets_marker :
  format_schema 1 (JObj [("$ref", JStr "#/defs/User")])
    (JObj [("defs", JObj [("User", JObj [("type", JStr "string")])])])
    0 {[HStr "#/defs/User"]} false
  = Some (Run (Ok (unlines [ "- **$ref**: `#/defs/User`";
                             "  *(circular reference, see definition above)*" ]))
              {[HStr "#/defs/User"]} []).
Proof.
  rewrite (circular_reference_local 0 _ (JStr "#/defs/User") (HStr "#/defs/User"));
    [reflexivity|reflexivity|reflexivity|set_solver].
Qed.

(** C10.  [format_schema] terminates on every schema node, document,
    visited-set and mode, with no cap on the depth: there is one result
    that every budget of nested calls above [fuel_bound] produces.  In its
    call tree every call made from a [$ref] node has a strictly larger
    visited-set than the node's, grown within the reference paths that
    occur in the node, and every other call has the same visited-set and a
    strictly smaller node, which is what [fuel_bound] counts. *)
Theorem format_schema_terminates (schema doc : json) (indent : nat) (seen : refset)
    (inline : bool) :
  exists r,
    (forall fuel, fuel_bound schema doc seen < fuel ->
       format_schema fuel schema doc indent seen inline = Some r) /\
    every_call descends (Call schema indent seen (r_out r) (r_calls r)).
Proof.
  destruct (format_schema_total schema doc indent seen inline) as [r Hr].
  exists r. split; [exact Hr|].
  eapply every_call_impl; [|exact (run_faithful _ _ _ _ _ _ _ (Hr _ (Nat.lt_succ_diag_r _)))].
  apply faithful_descends.
Qed.

(** ** Exceptions *)

Lemma well_shaped_dict d :
  well_shaped (JObj d) = true -> facets_shaped d = true.
Proof. simpl. intros H. apply andb_true_iff in H. apply H. Qed.







(** ** Grouping endpoints by tag *)

Lemma cat_get_app_new t t' cats :
  cat_get t' (cats ++ [(t, [])])%list
  = match cat_get t' cats with
    | Some es => Some es
    | None => if decide (t = t') then Some [] else None
    end.
Proof.
  induction cats as [|[t0 es0] cats IH]; simpl.
  - reflexivity.
  - destruct (decide (t0 = t')); [reflexivity|exact IH].
Qed.

Lemma cat_get_append t t' e cats :
  cat_get t' (cat_append t e cats)
  = if decide (t = t') then (fun es => (es ++ [e])%list) <$> cat_get t cats
    else cat_get t' cats.
Proof.
  induction cats as [|[t0 es0] cats IH]; simpl.
  - destruct (decide (t = t')); reflexivity.
  - destruct (decide (t0 = t)) as [->|Hne]; simpl.
    + destruct (decide (t = t')); reflexivity.
    + destruct (decide (t0 = t')) as [->|Hne'].
      * destruct (decide (t = t')); [congruence|reflexivity].
      * exact IH.
Qed.

Lemma tag_list_add e cats tag cats' :
  add_to_tag e cats tag = Ok cats' ->
  exists h, hash_key tag = Ok h /\
    forall t, tag_list t cats'
              = (tag_list t cats ++ (if decide (h = t) then [e] else []))%list.
Proof.
  unfold add_to_tag. destruct (hash_key tag) as [h|]; [|discriminate].
  simpl. intros [= <-]. exists h. split; [reflexivity|]. intros t.
  unfold tag_list. rewrite cat_get_append.
  destruct (decide (h = t)) as [->|Hne].
  - destruct (cat_get t cats) as [es|] eqn:E.
    + rewrite E. reflexivity.
    + rewrite cat_get_app_new, E. rewrite decide_True by reflexivity. reflexivity.
  - destruct (cat_get h cats) as [es|] eqn:E.
    + rewrite app_nil_r. reflexivity.
    + rewrite cat_get_app_new. destruct (cat_get t cats); [rewrite app_nil_r; reflexivity|].
      rewrite decide_False by exact Hne. reflexivity.
Qed.

Lemma tag_list_add_tags e :
  forall tags cats cats',
    ofold (add_to_tag e) cats tags = Ok cats' ->
    exists hs, omapM hash_key tags = Ok hs /\
      forall t, tag_list t cats' = (tag_list t cats ++ replicate (tag_count t hs) e)%list.
Proof.
  induction tags as [|tag tags IH]; intros cats cats'; simpl.
  - intros [= <-]. exists []. split; [reflexivity|]. intros t.
    rewrite app_nil_r. reflexivity.
  - destruct (add_to_tag e cats tag) as [cats1|] eqn:E1; [|discriminate]. simpl.
    intros H. destruct (tag_list_add _ _ _ _ E1) as (h & Hh & H1).
    destruct (IH _ _ H) as (hs & Hhs & H2).
    exists (h :: hs). rewrite Hh, Hhs. split; [reflexivity|]. intros t.
    rewrite H2, H1, <- app_assoc. f_equal. unfold tag_count.
    rewrite filter_cons. destruct (decide (h = t)); reflexivity.
Qed.

Lemma records_of_app path method es1 es2 :
  records_of path method (es1 ++ es2)%list
  = (records_of path method es1 ++ records_of path method es2)%list.
Proof. apply filter_app. Qed.

Lemma records_of_replicate path method n (e : endpoint) :
  records_of path method (replicate n e)
  = if decide (e.1 = (path, method)) then replicate n e else [].
Proof.
  unfold records_of. induction n as [|n IH]; simpl.
  - destruct (decide _); reflexivity.
  - rewrite filter_cons, IH. destruct (decide _); reflexivity.
Qed.

(** What one operation entry adds, under tag [t], to the records of the
    operation [method] of [path]. *)
Lemma records_add_operation path method t path' cats entry cats' :
  add_operation path' cats entry = Ok cats' ->
  (entry.1 <> method \/ path' <> path ->
   records_of path method (tag_list t cats') = records_of path method (tag_list t cats)) /\
  (forall op tags hs,
      path' = path -> entry = (method, JObj op) ->
      str_in (str_lower method) http_methods = true ->
      py_iter (dict_get_default "tags" (JArr [JStr "Uncategorized"]) op) = Ok tags ->
      omapM hash_key tags = Ok hs ->
      records_of path method (tag_list t cats')
      = (records_of path method (tag_list t cats)
         ++ replicate (tag_count t hs) (path, method, op))%list).
Proof.
  destruct entry as [m ed]. unfold add_operation.
  destruct (str_in (str_lower m) http_methods) eqn:Hm; cbn [negb].
  2:{ intros [= <-]. split; [reflexivity|].
      intros op tags hs _ [= -> _] Hm'. congruence. }
  destruct (as_dict ed) as [op'|] eqn:Hd; [|discriminate]. cbn [obind].
  destruct (py_iter _) as [ts|] eqn:Hts; [|discriminate]. cbn [obind].
  intros H. destruct (tag_list_add_tags _ _ _ _ H) as (hs' & Hhs' & Hl).
  split.
  - intros Hne. rewrite Hl, records_of_app, records_of_replicate.
    rewrite decide_False; [apply app_nil_r|].
    simpl. intros [= -> ->]. destruct Hne as [Hne|Hne]; apply Hne; reflexivity.
  - intros op tags hs -> [= -> ->] _ Htags Hhs.
    injection Hd as <-. rewrite Hts in Htags. injection Htags as <-.
    rewrite Hhs' in Hhs. injection Hhs as <-.
    rewrite Hl, records_of_app, records_of_replicate.
    rewrite decide_True by reflexivity. reflexivity.
Qed.

Lemma dict_get_not_in k (d : dict) : k ∉ map fst d -> dict_get k d = None.
Proof.
  induction d as [|[k' v] d IH]; simpl; [reflexivity|]. intros Hn.
  destruct (String.eqb k k') eqn:E.
  - apply String.eqb_eq in E. subst. exfalso. apply Hn. left.
  - apply IH. intros Hin. apply Hn. right. exact Hin.
Qed.

Lemma records_add_operations path method t op tags hs path' :
  str_in (str_lower method) http_methods = true ->
  py_iter (dict_get_default "tags" (JArr [JStr "Uncategorized"]) op) = Ok tags ->
  omapM hash_key tags = Ok hs ->
  forall ops cats cats',
    ofold (add_operation path') cats ops = Ok cats' ->
    NoDup (map fst ops) ->
    (path' <> path \/ method ∉ map fst ops ->
     records_of path method (tag_list t cats') = records_of path method (tag_list t cats)) /\
    (path' = path -> dict_get method ops = Some (JObj op) ->
     records_of path method (tag_list t cats')
     = (records_of path method (tag_list t cats)
        ++ replicate (tag_count t hs) (path, method, op))%list).
Proof.
  intros Hm Htags Hhs. induction ops as [|[m ed] ops IH]; intros cats cats'; cbn [ofold].
  - intros [= <-] _. split; [reflexivity|discriminate].
  - destruct (add_operation path' cats (m, ed)) as [cats1|] eqn:E1; [|discriminate].
    cbn [obind]. intros H Hnd. cbn [map fst] in Hnd.
    apply NoDup_cons in Hnd. destruct Hnd as [Hm_notin Hnd].
    destruct (IH _ _ H Hnd) as [IH1 IH2].
    destruct (records_add_operation path method t path' cats (m, ed) cats1 E1) as [A1 A2].
    split.
    + intros Hne. rewrite IH1, A1; [reflexivity| |].
      * cbn [fst]. destruct Hne as [Hne|Hne]; [right; exact Hne|].
        left. intros ->. apply Hne. left.
      * destruct Hne as [Hne|Hne]; [left; exact Hne|].
        right. intros Hin. apply Hne. right. exact Hin.
    + intros -> Hget. cbn [dict_get] in Hget. destruct (String.eqb method m) eqn:E.
      * apply String.eqb_eq in E. subst m. injection Hget as ->.
        rewrite IH1 by (right; exact Hm_notin).
        apply (A2 op tags hs); auto.
      * assert (m <> method) as Hne.
        { intros ->. rewrite String.eqb_refl in E. discriminate. }
        rewrite (IH2 eq_refl Hget), A1; [reflexivity|]. left. exact Hne.
Qed.

Lemma records_other_path path method t p :
  p <> path ->
  forall ops cats cats1,
    ofold (add_operation p) cats ops = Ok cats1 ->
    records_of path method (tag_list t cats1) = records_of path method (tag_list t cats).
Proof.
  intros Hp. induction ops as [|entry ops IHo]; intros cats cats1; cbn [ofold].
  - intros [= <-]. reflexivity.
  - destruct (add_operation p cats entry) as [cats2|] eqn:E2; [|discriminate].
    cbn [obind]. intros E1. rewrite (IHo _ _ E1).
    apply (records_add_operation path method t p cats entry cats2 E2).
    right. exact Hp.
Qed.

Lemma records_add_paths path method t op tags hs path_data :
  str_in (str_lower method) http_methods = true ->
  py_iter (dict_get_default "tags" (JArr [JStr "Uncategorized"]) op) = Ok tags ->
  omapM hash_key tags = Ok hs ->
  NoDup (map fst path_data) ->
  dict_get method path_data = Some (JObj op) ->
  forall paths cats cats',
    ofold add_path cats paths = Ok cats' ->
    NoDup (map fst paths) ->
    (path ∉ map fst paths ->
     records_of path method (tag_list t cats') = records_of path method (tag_list t cats)) /\
    (dict_get path paths = Some (JObj path_data) ->
     records_of path method (tag_list t cats')
     = (records_of path method (tag_list t cats)
        ++ replicate (tag_count t hs) (path, method, op))%list).
Proof.
  intros Hm Htags Hhs Hnd_ops Hget_op.
  induction paths as [|[p pd] paths IH]; intros cats cats'; cbn [ofold].
  - intros [= <-] _. split; [reflexivity|discriminate].
  - unfold add_path at 1.
    destruct (py_items pd) as [ops|] eqn:Hops; [|discriminate]. cbn [obind].
    destruct (ofold (add_operation p) cats ops) as [cats1|] eqn:E1; [|discriminate].
    cbn [obind]. intros H Hnd. cbn [map fst] in Hnd.
    apply NoDup_cons in Hnd. destruct Hnd as [Hp_notin Hnd].
    destruct (IH _ _ H Hnd) as [IH1 IH2].
    destruct pd as [| | | | |ops']; try discriminate Hops.
    injection Hops as Hops. subst ops'.
    split.
    + intros Hne. rewrite IH1 by (intros Hin; apply Hne; right; exact Hin).
      assert (p <> path) as Hp by (intros ->; apply Hne; left).
      exact (records_other_path path method t p Hp ops cats cats1 E1).
    + cbn [dict_get]. destruct (String.eqb path p) eqn:E.
      * apply String.eqb_eq in E. subst p. intros [= ->].
        rewrite IH1 by exact Hp_notin.
        apply (records_add_operations path method t op tags hs path Hm Htags Hhs
                 path_data cats cats1 E1 Hnd_ops); [reflexivity|exact Hget_op].
      * intros Hget. rewrite (IH2 Hget). f_equal.
        assert (p <> path) as Hp.
        { intros ->. rewrite String.eqb_refl in E. discriminate. }
        exact (records_other_path path method t p Hp ops cats cats1 E1).
Qed.

Lemma tag_count_once t hs : NoDup hs -> t ∈ hs -> tag_count t hs = 1.
Proof.
  unfold tag_count. induction 1 as [|h hs Hnotin Hnd IH]; intros Hin.
  - inversion Hin.
  - rewrite filter_cons. destruct (decide (h = t)) as [->|Hne].
    + simpl. f_equal. clear IH Hin Hnd.
      induction hs as [|h' hs IHh]; [reflexivity|].
      rewrite filter_cons. destruct (decide (h' = t)) as [->|_].
      * exfalso. apply Hnotin. left.
      * apply IHh. intros Hin. apply Hnotin. right. exact Hin.
    + apply IH. inversion Hin; subst; [congruence|assumption].
Qed.

Lemma insert_sorted_elem {X} (le : X -> X -> bool) a l x :
  x ∈ l \/ x = a -> x ∈ insert_sorted le a l.
Proof.
  induction l as [|y l IH]; simpl; intros [H|H].
  - inversion H.
  - subst. left.
  - destruct (le a y); [right; exact H|].
    inversion H; subst; [left|right; apply IH; left; assumption].
  - subst. destruct (le a y); [left|right; apply IH; right; reflexivity].
Qed.

Lemma sort_by_elem {X} (le : X -> X -> bool) l x : x ∈ l -> x ∈ sort_by le l.
Proof.
  unfold sort_by. induction 1 as [x l|x y l _ IH]; simpl.
  - apply insert_sorted_elem. right. reflexivity.
  - apply insert_sorted_elem. left. exact IH.
Qed.

Lemma sort_comparable_elem keys ks c :
  sort_comparable keys = Ok ks -> HStr c ∈ keys -> HStr c ∈ ks.
Proof.
  unfold sort_comparable.
  destruct (forallb (fun k => bool_decide (is_Some (hkey_str k))) keys) eqn:Hs.
  - intros [= <-] Hin. apply list_elem_of_fmap. exists c. split; [reflexivity|].
    apply sort_by_elem. apply list_elem_of_omap. exists (HStr c). split; [exact Hin|reflexivity].
  - destruct (forallb (fun k => bool_decide (is_Some (hkey_int k))) keys) eqn:Hi; [|discriminate].
    intros _ Hin. pose proof (forallb_true_elem _ _ _ Hi Hin) as Habs.
    apply bool_decide_eq_true in Habs. destruct Habs as [z Hz]. discriminate Hz.
Qed.

Lemma sorted_keys_elem keys ks c :
  sorted_keys keys = Ok ks -> HStr c ∈ keys -> HStr c ∈ ks.
Proof.
  unfold sorted_keys. destruct keys as [|k1 [|k2 keys]]; try (intros [= <-] H; exact H).
  apply sort_comparable_elem.
Qed.

Lemma omapM_elem {X Y} (f : X -> outcome Y) l ys x :
  omapM f l = Ok ys -> x ∈ l -> exists y, f x = Ok y /\ y ∈ ys.
Proof.
  revert ys. induction l as [|a l IH]; intros ys; simpl; intros H Hin.
  - inversion Hin.
  - destruct (f a) as [b|] eqn:Ea; [|discriminate]. cbn [obind] in H.
    destruct (omapM f l) as [bs|] eqn:El; [|discriminate]. cbn [obind] in H.
    injection H as <-. inversion Hin; subst.
    + exists b. split; [exact Ea|left].
    + destruct (IH bs eq_refl) as (y & Hy & Hyin); [assumption|].
      exists y. split; [exact Hy|right; exact Hyin].
Qed.

Lemma cat_get_key t cats es : cat_get t cats = Some es -> t ∈ map fst cats.
Proof.
  induction cats as [|[t0 es0] cats IH]; simpl; [discriminate|].
  destruct (decide (t0 = t)) as [->|_]; [intros _; left|].
  intros H. right. exact (IH H).
Qed.

Lemma numeral_value_str_of_Z z : numeral_value (str_of_Z z) = Some z.
Proof.
  unfold numeral_value, str_of_Z. rewrite <- (of_to z) at 2.
  destruct (Z.to_int z) as [[| | | | | | | | | |]|[| | | | | | | | | |]];
    try (rewrite NilZero.isi by discriminate; reflexivity); reflexivity.
Qed.

(** C9, as the code has it.  After the grouping step, the record of an
    operation of the document occurs under each tag exactly as many times
    as the tag occurs in the operation's [tags]: once under each of its [n]
    tags when they are distinct, twice under a tag given twice, under no
    tag when the list is empty, and nowhere else.  An operation without
    [tags] is listed under ["Uncategorized"].  The index line of a tag
    shows, in decimal, the length of the tag's list, repetitions
    included. *)
Theorem operation_listed_under_each_tag (lower : string -> string)
    (spec paths path_data op : dict)
    (path method : string) (tags : list json) (hs : list hkey) (cats : categories) :
  group_endpoints (JObj spec) = Ok cats ->
  dict_get_default "paths" (JObj []) spec = JObj paths ->
  NoDup (map fst paths) ->
  dict_get path paths = Some (JObj path_data) ->
  NoDup (map fst path_data) ->
  dict_get method path_data = Some (JObj op) ->
  str_in (str_lower method) http_methods = true ->
  py_iter (dict_get_default "tags" (JArr [JStr "Uncategorized"]) op) = Ok tags ->
  omapM hash_key tags = Ok hs ->
  (forall t, records_of path method (tag_list t cats)
             = replicate (tag_count t hs) (path, method, op)) /\
  (NoDup hs ->
   forall t, t ∈ hs ->
     exists es, cat_get t cats = Some es /\
                records_of path method es = [(path, method, op)]) /\
  (dict_get "tags" op = None -> hs = [HStr "Uncategorized"]) /\
  (forall lines c es,
      index_lines lower cats = Ok lines -> cat_get (HStr c) cats = Some es ->
      ("- [" ++ c ++ "](" ++ str_replace_char " "%char "_"%char (lower c) ++ ".md) - "
       ++ str_of_Z (Z.of_nat (length es)) ++ " endpoint"
       ++ (if Nat.eqb (length es) 1 then EmptyString else "s") ++ nl) ∈ lines /\
      numeral_value (str_of_Z (Z.of_nat (length es))) = Some (Z.of_nat (length es))).
Proof.
  intros Hg Hpaths Hnd_paths Hpath Hnd_ops Hop Hm Htags Hhs.
  assert (forall t, records_of path method (tag_list t cats)
                    = replicate (tag_count t hs) (path, method, op)) as Hall.
  { intros t. unfold group_endpoints in Hg. cbn [as_dict obind] in Hg.
    rewrite Hpaths in Hg. cbn [py_items obind] in Hg.
    destruct (records_add_paths path method t op tags hs path_data Hm Htags Hhs
                Hnd_ops Hop paths [] cats Hg Hnd_paths) as [_ H].
    rewrite (H Hpath). reflexivity. }
  split; [exact Hall|]. split; [|split].
  - intros Hnd t Hin. specialize (Hall t). rewrite (tag_count_once t hs Hnd Hin) in Hall.
    unfold tag_list in Hall. destruct (cat_get t cats) as [es|]; [|discriminate Hall].
    exists es. split; [reflexivity|exact Hall].
  - intros Hnone. unfold dict_get_default in Htags. rewrite Hnone in Htags.
    injection Htags as <-. injection Hhs as <-. reflexivity.
  - intros lines c es Hlines Hget. split; [|apply numeral_value_str_of_Z].
    unfold index_lines in Hlines.
    destruct (sorted_keys (map fst cats)) as [ks|] eqn:Hks; [|discriminate].
    cbn [obind] in Hlines.
    pose proof (sorted_keys_elem _ _ c Hks (cat_get_key _ _ _ Hget)) as Hin.
    destruct (omapM_elem _ _ _ _ Hlines Hin) as (line & Hline & Hlin).
    unfold index_line in Hline. rewrite Hget in Hline. injection Hline as <-.
    unfold index_entry, category_filename in Hlin. cbn [default] in Hlin.
    rewrite str_app_assoc in Hlin. exact Hlin.
Qed.

Lemma operation_listed_under_each_tag_witness :
  let op := [("tags", JArr [JStr "Products"; JStr "Admin"])] in
  let path_data := [("get", JObj op)] in
  let paths := [("/products", JObj path_data)] in
  let hs := [HStr "Products"; HStr "Admin"] in
  exists cats,
    group_endpoints (JObj [("paths", JObj paths)]) = Ok cats /\
    (forall t, records_of "/products" "get" (tag_list t cats)
               = replicate (tag_count t hs) ("/products", "get", op)) /\
    (NoDup hs ->
     forall t, t ∈ hs ->
       exists es, cat_get t cats = Some es /\
                  records_of "/products" "get" es = [("/products", "get", op)]) /\
    (dict_get "tags" op = None -> hs = [HStr "Uncategorized"]) /\
    (forall lines c es,
        index_lines str_lower cats = Ok lines -> cat_get (HStr c) cats = Some es ->
        ("- [" ++ c ++ "](" ++ str_replace_char " "%char "_"%char (str_lower c) ++ ".md) - "
         ++ str_of_Z (Z.of_nat (length es)) ++ " endpoint"
         ++ (if Nat.eqb (length es) 1 then EmptyString else "s") ++ nl) ∈ lines /\
        numeral_value (str_of_Z (Z.of_nat (length es))) = Some (Z.of_nat (length es))).
Proof.
  intros op path_data paths hs. eexists. split; [reflexivity|].
  apply (operation_listed_under_each_tag str_lower [("paths", JObj paths)] paths path_data
           op "/products" "get" [JStr "Products"; JStr "Admin"] hs).
  - reflexivity.
  - reflexivity.
  - apply NoDup_singleton.
  - reflexivity.
  - apply NoDup_singleton.
  - reflexivity.
  - reflexivity.
  - reflexivity.
  - reflexivity.
Defined.

(** C9 as written fails: the record of an operation whose [tags] give a
    tag twice stands twice in the list of the tag, and an operation with an
    empty [tags] list stands in no list, not under ["Uncategorized"]. *)
Lemma repeated_tag_listed_twice :
  let op := [("tags", JArr [JStr "Products"; JStr "Products"])] in
  group_endpoints (JObj [("paths", JObj [("/products", JObj [("get", JObj op)])])])
  = Ok [(HStr "Products", [("/products", "get", op); ("/products", "get", op)])] /\
  group_endpoints
    (JObj [("paths", JObj [("/products", JObj [("get", JObj [("tags", JArr [])])])])])
  = Ok [].
Proof. split; reflexivity. Qed.

(** ** The scenarios of the specification, evaluated *)

(** A reference to [User] renders the reference line, then the resolved
    definition with its type and its one required property. *)
Example render_user_reference :
  r_out <$> format_schema_fresh 4 (JObj [("$ref", JStr "#/components/schemas/User")])
              user_doc 0 true
  = Some (Ok (unlines
      [ "- **$ref**: `#/components/schemas/User`";
        "  **Resolved Definition**:";
        "  - **Type**: `object`";
        "  - **Properties**:";
        "    - **`id`** *(required)*:";
        "      - **Type**: `integer`" ])).
Proof. reflexivity. Qed.

(** A definition that refers to itself through a property is expanded once;
    the second encounter on the branch gets the marker. *)
Example render_self_reference :
  r_out <$> format_schema_fresh 4 (JObj [("$ref", JStr "#/components/schemas/Node")])
              user_doc 0 true
  = Some (Ok (unlines
      [ "- **$ref**: `#/components/schemas/Node`";
        "  **Resolved Definition**:";
        "  - **Type**: `object`";
        "  - **Properties**:";
        "    - **`friend`**:";
        "      - **$ref**: `#/components/schemas/Node`";
        "        *(circular reference, see definition above)*" ])).
Proof. reflexivity. Qed.

(** The same reference with inlining disabled. *)
Example render_reference_only :
  r_out <$> format_schema_fresh 1 (JObj [("$ref", JStr "#/components/schemas/User")])
              user_doc 0 false
  = Some (Ok (unlines [ "- **$ref**: `#/components/schemas/User`" ])).
Proof. reflexivity. Qed.

(** An operation tagged twice is grouped under both tags, and the index
    counts it under each. *)
Example group_two_tags :
  obind (group_endpoints
           (JObj [("paths",
                   JObj [("/products",
                          JObj [("get", JObj [("tags", JArr [JStr "Products"; JStr "Admin"])]);
                                ("post", JObj [])])])]))
        (index_lines str_lower)
  = Ok [ "- [Admin](admin.md) - 1 endpoint" ++ nl;
         "- [Products](products.md) - 1 endpoint" ++ nl;
         "- [Uncategorized](uncategorized.md) - 1 endpoint" ++ nl ].
Proof. reflexivity. Qed.

(** ** More on the reference resolver *)

Lemma str_split_nonempty c s : str_split c s <> [].
Proof.
  destruct s as [|a s]; simpl; [discriminate|].
  destruct (Ascii.eqb a c); [discriminate|].
  destruct (str_split c s); discriminate.
Qed.

Lemma str_split_app c a b :
  str_split c (a ++ String c b) = (str_split c a ++ str_split c b)%list.
Proof.
  induction a as [|x a IH]; simpl.
  - rewrite Ascii.eqb_refl. reflexivity.
  - destruct (Ascii.eqb x c); [rewrite IH; reflexivity|].
    rewrite IH. pose proof (str_split_nonempty c a) as Hne.
    destruct (str_split c a) as [|h t]; [congruence|reflexivity].
Qed.

Lemma resolve_walk_null parts : parts <> [] -> resolve_walk parts JNull = JNull.
Proof. destruct parts; [congruence|reflexivity]. Qed.

Lemma resolve_walk_app l1 l2 doc :
  l2 <> [] ->
  resolve_walk (l1 ++ l2)%list doc = resolve_walk l2 (resolve_walk l1 doc).
Proof.
  intros Hne. revert doc. induction l1 as [|k l1 IH]; intros doc; simpl.
  - reflexivity.
  - destruct doc as [| | | | |d]; try (symmetry; apply resolve_walk_null, Hne).
    destruct (dict_get k d) as [w|]; [apply IH|].
    symmetry. apply resolve_walk_null, Hne.
Qed.

Lemma prefix_append p s : String.prefix p (p ++ s) = true.
Proof.
  induction p as [|a p IH]; simpl.
  - destruct s; reflexivity.
  - destruct (ascii_dec a a); [exact IH|congruence].
Qed.

Lemma resolve_ref_pointer s doc :
  resolve_ref ("#/" ++ s) doc = resolve_walk (str_split "/"%char s) doc.
Proof.
  unfold resolve_ref, str_startswith. rewrite prefix_append. reflexivity.
Qed.

(** X1.  Reference paths compose: resolving [#/a/b] in a document is
    resolving [#/b] in what [#/a] resolves to, for any [a] and [b] (each
    possibly with further slashes); when the first part is not found the
    whole is not found. *)
Theorem resolve_ref_compose (a b : string) (doc : json) :
  resolve_ref ("#/" ++ a ++ "/" ++ b) doc
  = resolve_ref ("#/" ++ b) (resolve_ref ("#/" ++ a) doc).
Proof.
  rewrite !resolve_ref_pointer.
  change (a ++ "/" ++ b) with (a ++ String "/"%char b).
  rewrite str_split_app. apply resolve_walk_app, str_split_nonempty.
Qed.

Lemma resolve_walk_smaller parts doc :
  parts <> [] ->
  resolve_walk parts doc = JNull \/ json_size (resolve_walk parts doc) < json_size doc.
Proof.
  destruct parts as [|k parts]; [congruence|]. intros _. simpl.
  destruct doc as [| | | | |d]; try (left; reflexivity).
  destruct (dict_get k d) as [w|] eqn:E; [|left; reflexivity].
  right. destruct (within_dict_get _ _ _ E) as [_ Hlt].
  destruct (resolve_walk_within parts w) as [Hle _]. lia.
Qed.

(** X2.  What [resolve_ref] returns is [None] or a part of the document
    strictly inside it: every reference path has at least one key, so no
    path, [#/] included, resolves to the document itself. *)
Theorem resolve_ref_strictly_inside (ref_path : string) (doc : json) :
  (resolve_ref ref_path doc = JNull \/
   json_size (resolve_ref ref_path doc) < json_size doc) /\
  (doc <> JNull -> resolve_ref ref_path doc <> doc).
Proof.
  assert (resolve_ref ref_path doc = JNull \/
          json_size (resolve_ref ref_path doc) < json_size doc) as H.
  { unfold resolve_ref. destruct (negb (str_startswith "#/" ref_path)); [left; reflexivity|].
    apply resolve_walk_smaller, str_split_nonempty. }
  split; [exact H|]. intros Hdoc Heq. rewrite Heq in H.
  destruct H as [H|H]; [exact (Hdoc H)|lia].
Qed.

Lemma resolve_ref_strictly_inside_witness :
  resolve_ref "#/" (JObj [("info", JObj [])]) <> JObj [("info", JObj [])].
Proof.
  apply (proj2 (resolve_ref_strictly_inside "#/" (JObj [("info", JObj [])]))).
  discriminate.
Defined.

Lemma str_split_slash_free s : Forall slash_free (str_split "/"%char s).
Proof.
  induction s as [|a s IH]; simpl.
  - constructor; [reflexivity|constructor].
  - destruct (Ascii.eqb a "/"%char) eqn:E.
    + constructor; [reflexivity|exact IH].
    + pose proof (str_split_nonempty "/"%char s) as Hne.
      destruct (str_split "/"%char s) as [|h t]; [congruence|].
      inversion IH; subst. constructor; [|assumption].
      unfold slash_free in *. simpl. rewrite E. assumption.
Qed.

Lemma str_join_split s : str_join "/" (str_split "/"%char s) = s.
Proof.
  induction s as [|a s IH]; simpl; [reflexivity|].
  destruct (Ascii.eqb a "/"%char) eqn:E.
  - apply Ascii.eqb_eq in E. subst a.
    pose proof (str_split_nonempty "/"%char s) as Hne.
    destruct (str_split "/"%char s) as [|h t]; [congruence|].
    simpl in *. rewrite IH. reflexivity.
  - pose proof (str_split_nonempty "/"%char s) as Hne.
    destruct (str_split "/"%char s) as [|h t]; [congruence|].
    destruct t as [|h' t]; simpl in *; rewrite <- IH; reflexivity.
Qed.

Lemma str_split_slash_free_one k : slash_free k -> str_split "/"%char k = [k].
Proof.
  unfold slash_free. induction k as [|a k IH]; simpl; [reflexivity|].
  intros H. apply orb_false_iff in H. destruct H as [Ha Hk].
  rewrite Ha, (IH Hk). reflexivity.
Qed.

Lemma str_split_join keys :
  keys <> [] -> Forall slash_free keys ->
  str_split "/"%char (str_join "/" keys) = keys.
Proof.
  induction keys as [|k keys IH]; [congruence|]. intros _ Hall.
  inversion Hall as [|? ? Hk Hrest]; subst.
  destruct keys as [|k' keys].
  - simpl. apply str_split_slash_free_one, Hk.
  - change (str_join "/" (k :: k' :: keys))
      with (k ++ String "/"%char (str_join "/" (k' :: keys))).
    rewrite str_split_app, (str_split_slash_free_one k Hk), IH by (congruence || assumption).
    reflexivity.
Qed.

(** X3.  Splitting a path at [/] and joining the pieces with [/] gives the
    path back, and no piece has a [/]; conversely the keys of a non-empty
    list without [/] are recovered from their joined path.  Hence a subtree
    reached from the document root through such keys is what [resolve_ref]
    returns for the path [#/k1/.../kn]. *)
Theorem resolve_ref_finds_reached :
  (forall s, str_join "/" (str_split "/"%char s) = s /\
             Forall slash_free (str_split "/"%char s)) /\
  (forall keys, keys <> [] -> Forall slash_free keys ->
                str_split "/"%char (str_join "/" keys) = keys) /\
  (forall keys doc v,
      keys <> [] -> Forall slash_free keys -> reaches doc keys v ->
      resolve_ref (pointer_of keys) doc = v).
Proof.
  split; [|split].
  - intros s. split; [apply str_join_split|apply str_split_slash_free].
  - exact str_split_join.
  - intros keys doc v Hne Hall Hr.
    unfold pointer_of. rewrite resolve_ref_pointer, (str_split_join keys Hne Hall).
    apply resolve_walk_reaches, Hr.
Qed.

Lemma resolve_ref_finds_reached_witness :
  resolve_ref (pointer_of ["components"; "schemas"; "User"]) user_doc
  = JObj [("type", JStr "object");
          ("properties", JObj [("id", JObj [("type", JStr "integer")])]);
          ("required", JArr [JStr "id"])].
Proof.
  apply (proj2 (proj2 resolve_ref_finds_reached)
           ["components"; "schemas"; "User"] user_doc).
  - discriminate.
  - repeat constructor.
  - repeat (econstructor; [reflexivity|]). constructor.
Defined.

Lemma str_split_head_slash_free s :
  exists h t, str_split "/"%char s = h :: t /\ slash_free h.
Proof.
  pose proof (str_split_slash_free s) as H.
  pose proof (str_split_nonempty "/"%char s) as Hne.
  destruct (str_split "/"%char s) as [|h t]; [congruence|].
  inversion H; subst. exists h, t. split; [reflexivity|assumption].
Qed.

(** X4.  A key that contains a [/] cannot be referenced: the path is cut at
    every [/] and there is no escape for it, so in a mapping whose keys all
    contain a [/] no reference path finds anything. *)
Theorem slash_keys_unreachable (d : dict) (ref_path : string) :
  Forall (fun kv => ~ slash_free (fst kv)) d ->
  resolve_ref ref_path (JObj d) = JNull.
Proof.
  intros Hall. unfold resolve_ref.
  destruct (negb (str_startswith "#/" ref_path)); [reflexivity|].
  destruct (str_split_head_slash_free (str_drop 2 ref_path)) as (h & t & -> & Hh).
  simpl. destruct (dict_get h d) as [w|] eqn:E; [|reflexivity].
  apply dict_get_elem in E.
  pose proof (proj1 (Forall_forall _ _) Hall _ E) as Hn. destruct (Hn Hh).
Qed.

Lemma slash_keys_unreachable_witness :
  resolve_ref "#/application/json" (JObj [("application/json", JObj [])]) = JNull.
Proof.
  apply (slash_keys_unreachable [("application/json", JObj [])]).
  repeat constructor. discriminate.
Defined.

(** ** More on the schema renderer *)

Lemma wbind_ext {A B} (m : W A) (f1 f2 : A -> W B) :
  (forall a, f1 a = f2 a) -> wbind m f1 = wbind m f2.
Proof.
  intros H. destruct m as [[[a|e] l]|]; simpl; try rewrite H; reflexivity.
Qed.

Lemma facets_agree (rec : renderer) d1 d2 doc indent seen inl :
  agree_on facet_keys d1 d2 ->
  format_facets rec d1 doc indent seen inl = format_facets rec d2 doc indent seen inl.
Proof.
  intros H.
  assert (forall k, k ∈ facet_keys -> dict_get k d1 = dict_get k d2) as Hk by exact H.
  unfold format_facets, enum_step, properties_step, items_step, composition_step,
    additional_step, required_step, facet_ticked, facet_plain, dict_get_default.
  cbn [map app].
  rewrite (Hk "type"), (Hk "description"), (Hk "title"), (Hk "enum"), (Hk "default"),
    (Hk "format"), (Hk "properties"), (Hk "required"), (Hk "items"), (Hk "allOf"),
    (Hk "anyOf"), (Hk "oneOf"), (Hk "additionalProperties"), (Hk "example"),
    (Hk "pattern"), (Hk "minimum"), (Hk "maximum"), (Hk "minLength"), (Hk "maxLength"),
    (Hk "minItems"), (Hk "maxItems") by (unfold facet_keys; set_solver).
  repeat f_equal.
  destruct (dict_get "properties" d2) as [props|]; [|reflexivity].
  apply wbind_ext. intros items. f_equal. f_equal. apply map_ext. intros [name c].
  unfold property_step, dict_get_default. rewrite (Hk "required") by (unfold facet_keys; set_solver).
  reflexivity.
Qed.

(** X5.  The rendering of a node depends only on what it holds under
    [$ref] and the twenty-one facet keys: two nodes that agree on these
    render alike, whatever other keys they have and in whatever order the
    keys stand.  When [$ref] is present nothing else of the node is read:
    the node renders as the bare reference. *)
Theorem format_schema_reads_facets_only (fuel : nat) (d1 d2 : dict) (doc : json)
    (indent : nat) (seen : refset) (inline : bool) :
  (agree_on ("$ref" :: facet_keys) d1 d2 ->
   format_schema fuel (JObj d1) doc indent seen inline
   = format_schema fuel (JObj d2) doc indent seen inline) /\
  (forall p, dict_get "$ref" d1 = Some p ->
             format_schema fuel (JObj d1) doc indent seen inline
             = format_schema fuel (JObj [("$ref", p)]) doc indent seen inline).
Proof.
  split.
  - intros H. destruct fuel as [|fuel]; [reflexivity|]. simpl.
    rewrite <- (H "$ref") by left.
    destruct (dict_get "$ref" d1); [reflexivity|].
    rewrite (facets_agree (format_schema fuel) d1 d2 doc indent seen inline);
      [reflexivity|].
    intros k Hk. apply H. right. exact Hk.
  - intros p Hp. destruct fuel as [|fuel]; [reflexivity|]. simpl. rewrite Hp. reflexivity.
Qed.

Lemma format_schema_reads_facets_only_witness :
  format_schema 2 (JObj [("nullable", JBool true); ("type", JStr "string");
                         ("deprecated", JBool true)]) (JObj []) 0 ∅ true
  = format_schema 2 (JObj [("type", JStr "string")]) (JObj []) 0 ∅ true.
Proof.
  apply (proj1 (format_schema_reads_facets_only 2
                  [("nullable", JBool true); ("type", JStr "string");
                   ("deprecated", JBool true)]
                  [("type", JStr "string")] (JObj []) 0 ∅ true)).
  intros k Hk. unfold facet_keys in Hk.
  repeat (apply elem_of_cons in Hk; destruct Hk as [->|Hk]; [reflexivity|]).
  inversion Hk.
Defined.

(** Without references neither the document nor the mode is consulted. *)
Lemma no_ref_same_output_any n :
  forall schema doc1 doc2 indent seen1 seen2 inl1 inl2,
    has_ref schema = false ->
    r_out <$> format_schema n schema doc1 indent seen1 inl1
    = r_out <$> format_schema n schema doc2 indent seen2 inl2.
Proof.
  induction n as [|n IH]; intros schema doc1 doc2 indent seen1 seen2 inl1 inl2 Hno;
    [reflexivity|].
  simpl. unfold format_schema_body.
  destruct schema as [| | | | |d]; try reflexivity.
  rewrite (has_ref_false_no_ref d Hno).
  assert (forall docA docB sA sB iA iB,
             wrel (fun _ _ => True) string
               (format_facets (format_schema n) d docA indent sA iA)
               (format_facets (format_schema n) d docB indent sB iB)) as Hrel.
  { intros docA docB sA sB iA iB.
    change (format_facets (format_schema n) d docB indent sB iB)
      with (format_facets (fun c _ j s _ => format_schema n c docB j s iB)
              d docA indent sB iA).
    apply facets_wrel. intros c i Hc. apply wrel_call. intros r1 Hr1.
    destruct (children_within d c Hc) as [(_ & _ & Hh & _) _].
    pose proof (IH c docA docB i sA sB iA iB (Hh Hno)) as Heq. rewrite Hr1 in Heq.
    destruct (format_schema n c docB i sB iB) as [r2|]; [|discriminate Heq].
    injection Heq as Heq. exists r2. repeat split. symmetry. exact Heq. }
  pose proof (wrel_output_eq _ _ (Hrel doc1 doc2 seen1 seen2 inl1 inl2)
                (Hrel doc2 doc1 seen2 seen1 inl2 inl1)) as Heq.
  destruct (format_facets (format_schema n) d doc1 indent seen1 inl1) as [[o1 l1]|];
    destruct (format_facets (format_schema n) d doc2 indent seen2 inl2) as [[o2 l2]|];
    simpl in *; congruence.
Qed.

(** X6.  A schema with no [$ref] in it renders to one output whatever the
    document and whether references are inlined or not (and whatever the
    visited-set): without references the document is never consulted. *)
Theorem no_ref_render_ignores_document (schema : json) (indent : nat) :
  has_ref schema = false ->
  exists out,
    forall (doc : json) (seen : refset) (inline : bool) fuel,
      fuel_bound schema JNull ∅ < fuel ->
      r_out <$> format_schema fuel schema doc indent seen inline = Some out.
Proof.
  intros Hno.
  destruct (format_schema_total schema JNull indent ∅ true) as [r Hr].
  exists (r_out r). intros doc seen inline fuel Hf.
  rewrite (no_ref_same_output_any fuel schema doc JNull indent seen ∅ inline true Hno).
  rewrite (Hr fuel Hf). reflexivity.
Qed.

Lemma no_ref_render_ignores_document_witness :
  exists out,
    forall (doc : json) (seen : refset) (inline : bool) fuel,
      fuel_bound (JObj [("type", JStr "array"); ("items", JObj [("type", JStr "string")])])
                 JNull ∅ < fuel ->
      r_out <$> format_schema fuel
                  (JObj [("type", JStr "array"); ("items", JObj [("type", JStr "string")])])
                  doc 0 seen inline
      = Some out.
Proof.
  apply (no_ref_render_ignores_document
           (JObj [("type", JStr "array"); ("items", JObj [("type", JStr "string")])]) 0).
  reflexivity.
Defined.

(** ** More on the grouping step *)

Lemma under_tag_app t l1 l2 :
  under_tag t (l1 ++ l2)%list = (under_tag t l1 ++ under_tag t l2)%list.
Proof. unfold under_tag. rewrite filter_app, map_app. reflexivity. Qed.

Lemma under_tag_same_record t (e : endpoint) hs :
  under_tag t (map (fun h => (h, e)) hs) = replicate (tag_count t hs) e.
Proof.
  unfold under_tag, tag_count. induction hs as [|h hs IH]; [reflexivity|].
  cbn [map]. rewrite !filter_cons. cbn [fst].
  destruct (decide (h = t)); simpl; rewrite IH; reflexivity.
Qed.

Lemma tag_list_add_operation path t cats entry cats' :
  add_operation path cats entry = Ok cats' ->
  tag_list t cats'
  = (tag_list t cats ++ under_tag t (operation_insertions path entry))%list.
Proof.
  destruct entry as [m ed]. unfold add_operation, operation_insertions. cbn [fst snd].
  destruct (str_in (str_lower m) http_methods); cbn [negb].
  2:{ intros [= <-]. rewrite app_nil_r. reflexivity. }
  destruct ed as [| | | | |op]; try discriminate. cbn [as_dict obind].
  unfold operation_tags.
  destruct (py_iter _) as [ts|]; [|discriminate]. cbn [obind].
  intros H. destruct (tag_list_add_tags _ _ _ _ H) as (hs & -> & Hl).
  rewrite Hl, under_tag_same_record. reflexivity.
Qed.

Lemma tag_list_add_operations path t :
  forall ops cats cats',
    ofold (add_operation path) cats ops = Ok cats' ->
    tag_list t cats'
    = (tag_list t cats ++ under_tag t (flat_map (operation_insertions path) ops))%list.
Proof.
  induction ops as [|entry ops IH]; intros cats cats'; cbn [ofold flat_map].
  - intros [= <-]. rewrite app_nil_r. reflexivity.
  - destruct (add_operation path cats entry) as [cats1|] eqn:E1; [|discriminate].
    cbn [obind]. intros H.
    rewrite (IH _ _ H), (tag_list_add_operation _ t _ _ _ E1), under_tag_app, app_assoc.
    reflexivity.
Qed.

Lemma tag_list_add_paths t :
  forall paths cats cats',
    ofold add_path cats paths = Ok cats' ->
    tag_list t cats' = (tag_list t cats ++ under_tag t (document_insertions paths))%list.
Proof.
  unfold document_insertions.
  induction paths as [|[p pd] paths IH]; intros cats cats'; cbn [ofold flat_map].
  - intros [= <-]. rewrite app_nil_r. reflexivity.
  - unfold add_path at 1, path_insertions at 1. cbn [fst snd].
    destruct pd as [| | | | |ops]; try discriminate. cbn [py_items obind].
    destruct (ofold (add_operation p) cats ops) as [cats1|] eqn:E1; [|discriminate].
    cbn [obind]. intros H.
    rewrite (IH _ _ H), (tag_list_add_operations p t _ _ _ E1), under_tag_app, app_assoc.
    reflexivity.
Qed.

Lemma group_endpoints_paths spec cats :
  group_endpoints (JObj spec) = Ok cats ->
  exists paths, dict_get_default "paths" (JObj []) spec = JObj paths /\
                ofold add_path [] paths = Ok cats.
Proof.
  unfold group_endpoints. cbn [as_dict obind].
  destruct (dict_get_default "paths" (JObj []) spec) as [| | | | |paths]; try discriminate.
  cbn [py_items obind]. intros H. exists paths. split; [reflexivity|exact H].
Qed.

Lemma under_tag_elem t e ins : e ∈ under_tag t ins <-> (t, e) ∈ ins.
Proof.
  unfold under_tag. rewrite list_elem_of_fmap. split.
  - intros ([t' e'] & -> & Hin). apply list_elem_of_filter in Hin.
    destruct Hin as [Ht Hin]. simpl in *. subst. exact Hin.
  - intros Hin. exists (t, e). split; [reflexivity|].
    apply list_elem_of_filter. split; [reflexivity|exact Hin].
Qed.

Lemma omapM_ok_elem {X Y} (f : X -> outcome Y) l ys y :
  omapM f l = Ok ys -> (y ∈ ys <-> exists x, x ∈ l /\ f x = Ok y).
Proof.
  revert ys. induction l as [|a l IH]; intros ys; simpl.
  - intros [= <-]. split; [intros H; inversion H|intros (x & H & _); inversion H].
  - destruct (f a) as [b|] eqn:Ea; [|discriminate]. cbn [obind].
    destruct (omapM f l) as [bs|]; [|discriminate]. cbn [obind]. intros [= <-].
    rewrite elem_of_cons, (IH bs eq_refl). split.
    + intros [->|(x & Hx & Hfx)]; [exists a; split; [left|exact Ea]|].
      exists x. split; [right; exact Hx|exact Hfx].
    + intros (x & Hx & Hfx). apply elem_of_cons in Hx. destruct Hx as [->|Hx].
      * left. congruence.
      * right. exists x. split; assumption.
Qed.

Lemma document_insertions_elem paths t e :
  (t, e) ∈ document_insertions paths ->
  exists path path_data method op,
    e = (path, method, op) /\
    (path, JObj path_data) ∈ paths /\ (method, JObj op) ∈ path_data /\
    str_in (str_lower method) http_methods = true /\
    t ∈ operation_tags op.
Proof.
  unfold document_insertions. intros H.
  apply list_elem_of_In, in_flat_map in H. destruct H as ([p pd] & Hp & H).
  unfold path_insertions in H. cbn [fst snd] in H.
  destruct pd as [| | | | |ops]; try destruct H.
  apply in_flat_map in H. destruct H as ([m ed] & Hm & H).
  unfold operation_insertions in H. cbn [fst snd] in H.
  destruct (str_in (str_lower m) http_methods) eqn:Hrec; [|destruct H].
  destruct ed as [| | | | |op]; try destruct H.
  apply list_elem_of_In, list_elem_of_fmap in H. destruct H as (t' & [= -> ->] & Ht).
  exists p, ops, m, op. repeat split; try assumption; apply list_elem_of_In; assumption.
Qed.

(** X7.  After the grouping step the list of a tag holds the records of
    exactly the operations of the document that carry the tag, in document
    order (paths, then the operations of a path), each as often as the tag
    is repeated in its [tags]: nothing is listed that is not an entry of a
    path item under an HTTP method name, with a mapping as value and the
    tag among its tags, and path-item keys that are not HTTP methods give
    no record whatever they hold. *)
Theorem grouping_lists_document_order (spec : dict) (cats : categories) :
  group_endpoints (JObj spec) = Ok cats ->
  exists paths,
    dict_get_default "paths" (JObj []) spec = JObj paths /\
    (forall t, tag_list t cats = under_tag t (document_insertions paths)) /\
    (forall t e,
        e ∈ tag_list t cats ->
        exists path path_data method op,
          e = (path, method, op) /\
          (path, JObj path_data) ∈ paths /\ (method, JObj op) ∈ path_data /\
          str_in (str_lower method) http_methods = true /\
          t ∈ operation_tags op).
Proof.
  intros Hg. destruct (group_endpoints_paths spec cats Hg) as (paths & Hp & Hfold).
  exists paths. split; [exact Hp|].
  assert (forall t, tag_list t cats = under_tag t (document_insertions paths)) as Hall.
  { intros t. rewrite (tag_list_add_paths t paths [] cats Hfold). reflexivity. }
  split; [exact Hall|].
  intros t e Hin. rewrite Hall in Hin. apply under_tag_elem in Hin.
  exact (document_insertions_elem paths t e Hin).
Qed.

Lemma grouping_lists_document_order_witness :
  exists paths,
    dict_get_default "paths" (JObj [])
      [("paths", JObj [("/a", JObj [("summary", JStr "s");
                                    ("get", JObj [("tags", JArr [JStr "T"])])]);
                       ("/b", JObj [("POST", JObj [("tags", JArr [JStr "T"])])])])]
    = JObj paths /\
    (forall t,
        tag_list t [(HStr "T", [("/a", "get", [("tags", JArr [JStr "T"])]);
                                ("/b", "POST", [("tags", JArr [JStr "T"])])])]
        = under_tag t (document_insertions paths)) /\
    (forall t e,
        e ∈ tag_list t [(HStr "T", [("/a", "get", [("tags", JArr [JStr "T"])]);
                                    ("/b", "POST", [("tags", JArr [JStr "T"])])])] ->
        exists path path_data method op,
          e = (path, method, op) /\
          (path, JObj path_data) ∈ paths /\ (method, JObj op) ∈ path_data /\
          str_in (str_lower method) http_methods = true /\
          t ∈ operation_tags op).
Proof.
  apply (grouping_lists_document_order
           [("paths", JObj [("/a", JObj [("summary", JStr "s");
                                         ("get", JObj [("tags", JArr [JStr "T"])])]);
                            ("/b", JObj [("POST", JObj [("tags", JArr [JStr "T"])])])])]).
  reflexivity.
Defined.

Lemma cat_append_keys t e cats : map fst (cat_append t e cats) = map fst cats.
Proof.
  induction cats as [|[t0 es0] cats IH]; simpl; [reflexivity|].
  destruct (decide (t0 = t)); simpl; [reflexivity|]. rewrite IH. reflexivity.
Qed.

Lemma cat_get_None_keys t cats : cat_get t cats = None -> t ∉ map fst cats.
Proof.
  induction cats as [|[t0 es0] cats IH]; simpl; intros H Hin; [inversion Hin|].
  destruct (decide (t0 = t)) as [->|Hne]; [discriminate|].
  apply elem_of_cons in Hin. destruct Hin as [->|Hin]; [congruence|exact (IH H Hin)].
Qed.

Lemma cat_append_nonempty t e cats :
  NoDup (map fst cats) -> t ∈ map fst cats ->
  Forall (fun kv : hkey * list endpoint => kv.1 <> t -> kv.2 <> []) cats ->
  Forall (fun kv : hkey * list endpoint => kv.2 <> []) (cat_append t e cats).
Proof.
  induction cats as [|[t0 es0] cats IH]; simpl; intros Hnd Hin Hall; [constructor|].
  apply NoDup_cons in Hnd. destruct Hnd as [Hnot Hnd].
  inversion Hall as [|? ? H0 Hrest]; subst. simpl in H0.
  destruct (decide (t0 = t)) as [->|Hne].
  - constructor; [simpl; destruct es0; discriminate|].
    apply Forall_forall. intros [t1 es1] Hin1.
    apply (proj1 (Forall_forall _ _) Hrest _ Hin1). simpl. intros ->.
    apply Hnot. apply list_elem_of_fmap. exists (t, es1). split; [reflexivity|exact Hin1].
  - constructor; [simpl; auto|].
    apply elem_of_cons in Hin. destruct Hin as [->|Hin]; [congruence|].
    apply IH; assumption.
Qed.

Lemma add_to_tag_ok e cats tag cats' :
  cats_ok cats -> add_to_tag e cats tag = Ok cats' -> cats_ok cats'.
Proof.
  intros [Hnd Hne]. unfold add_to_tag. destruct (hash_key tag) as [t|]; [|discriminate].
  cbn [obind]. intros [= <-].
  destruct (cat_get t cats) as [es|] eqn:E.
  - split; [rewrite cat_append_keys; exact Hnd|].
    apply cat_append_nonempty; [exact Hnd|exact (cat_get_key _ _ _ E)|].
    eapply Forall_impl; [exact Hne|]. auto.
  - pose proof (cat_get_None_keys _ _ E) as Hnot.
    assert (NoDup (map fst (cats ++ [(t, [])])%list)) as Hnd'.
    { rewrite map_app. apply NoDup_app. split; [exact Hnd|]. split.
      - intros x Hx Hx'. apply list_elem_of_singleton in Hx'. simpl in Hx'. subst. auto.
      - apply NoDup_singleton. }
    split; [rewrite cat_append_keys; exact Hnd'|].
    apply cat_append_nonempty; [exact Hnd'| |].
    + rewrite map_app. apply elem_of_app. right. left.
    + apply Forall_app. split.
      * eapply Forall_impl; [exact Hne|]. auto.
      * constructor; [|constructor]. simpl. congruence.
Qed.

Lemma ofold_ok {X} (f : categories -> X -> outcome categories) :
  (forall cats x cats', cats_ok cats -> f cats x = Ok cats' -> cats_ok cats') ->
  forall l cats cats', cats_ok cats -> ofold f cats l = Ok cats' -> cats_ok cats'.
Proof.
  intros Hf. induction l as [|x l IH]; intros cats cats' Hok; cbn [ofold].
  - intros [= <-]. exact Hok.
  - destruct (f cats x) as [cats1|] eqn:E; [|discriminate]. cbn [obind].
    apply IH. exact (Hf _ _ _ Hok E).
Qed.

Lemma group_endpoints_ok spec cats : group_endpoints spec = Ok cats -> cats_ok cats.
Proof.
  unfold group_endpoints. destruct (as_dict spec) as [d|]; [|discriminate]. cbn [obind].
  destruct (py_items _) as [paths|]; [|discriminate]. cbn [obind].
  apply ofold_ok; [|split; constructor].
  intros c [p pd] c' Hok. unfold add_path.
  destruct (py_items pd) as [ops|]; [|discriminate]. cbn [obind].
  apply ofold_ok; [|exact Hok].
  clear. intros c [m ed] c' Hok. unfold add_operation.
  destruct (negb _); [intros [= <-]; exact Hok|].
  destruct (as_dict ed) as [op|]; [|discriminate]. cbn [obind].
  destruct (py_iter _) as [ts|]; [|discriminate]. cbn [obind].
  apply ofold_ok; [|exact Hok]. intros c1 tag c1'. apply add_to_tag_ok.
Qed.

Lemma insert_sorted_perm {X} (le : X -> X -> bool) x l :
  insert_sorted le x l ≡ₚ x :: l.
Proof.
  induction l as [|y l IH]; simpl; [reflexivity|].
  destruct (le x y); [reflexivity|]. rewrite IH. apply Permutation_swap.
Qed.

Lemma sort_by_perm {X} (le : X -> X -> bool) l : sort_by le l ≡ₚ l.
Proof.
  unfold sort_by. induction l as [|x l IH]; simpl; [reflexivity|].
  rewrite insert_sorted_perm, IH. reflexivity.
Qed.

Lemma insert_sorted_sorted x l :
  Sorted str_le l -> Sorted str_le (insert_sorted String.leb x l).
Proof.
  induction 1 as [|y l Hs IH Hhd]; simpl.
  - repeat constructor.
  - destruct (String.leb x y) eqn:E.
    + constructor; [constructor; assumption|constructor; exact E].
    + constructor; [exact IH|].
      assert (str_le y x) as Hyx.
      { destruct (String.leb_total x y) as [H|H]; [congruence|exact H]. }
      destruct l as [|z l]; simpl.
      * constructor. exact Hyx.
      * destruct (String.leb x z); constructor; [exact Hyx|].
        inversion Hhd; assumption.
Qed.

Lemma sort_by_sorted l : Sorted str_le (sort_by String.leb l).
Proof.
  unfold sort_by. induction l as [|x l IH]; simpl; [constructor|].
  apply insert_sorted_sorted, IH.
Qed.

Lemma omap_hkey_str_all keys :
  forallb (fun k => bool_decide (is_Some (hkey_str k))) keys = true ->
  map HStr (omap hkey_str keys) = keys.
Proof.
  induction keys as [|k keys IH]; simpl; [reflexivity|]. intros H.
  apply andb_true_iff in H. destruct H as [Hk Hrest].
  apply bool_decide_eq_true in Hk. destruct Hk as [c Hc].
  destruct k as [|z|c']; try discriminate Hc.
  change (HStr c' :: map HStr (omap hkey_str keys) = HStr c' :: keys).
  rewrite (IH Hrest). reflexivity.
Qed.

Lemma index_entry_text lower c n : index_entry lower c n = listed_line lower c n.
Proof. unfold index_entry, category_filename, listed_line. rewrite str_app_assoc. reflexivity. Qed.

Lemma index_lines_strings lower cats :
  forall ks lines,
    omapM (index_line lower cats) ks = Ok lines ->
    exists tags,
      ks = map HStr tags /\
      lines = map (fun c => listed_line lower c (length (tag_list (HStr c) cats))) tags.
Proof.
  induction ks as [|k ks IH]; intros lines; simpl.
  - intros [= <-]. exists []. split; reflexivity.
  - destruct (index_line lower cats k) as [line|] eqn:Ek; [|discriminate]. cbn [obind].
    destruct (omapM (index_line lower cats) ks) as [ls|]; [|discriminate]. cbn [obind].
    intros [= <-]. destruct (IH ls eq_refl) as (tags & -> & ->).
    unfold index_line in Ek. destruct k as [|z|c]; try discriminate Ek.
    injection Ek as <-. exists (c :: tags). split; [reflexivity|].
    cbn [map]. rewrite index_entry_text. reflexivity.
Qed.

Lemma map_HStr_inj l1 l2 : map HStr l1 = map HStr l2 -> l1 = l2.
Proof.
  revert l2. induction l1 as [|a l1 IH]; intros [|b l2]; simpl; try discriminate.
  - reflexivity.
  - intros [= -> H]. rewrite (IH _ H). reflexivity.
Qed.

Lemma omap_hkey_int_length l :
  forallb (fun k => bool_decide (is_Some (hkey_int k))) l = true ->
  length (omap hkey_int l) = length l.
Proof.
  induction l as [|k l IH]; [reflexivity|]. simpl. intros Hi.
  apply andb_true_iff in Hi. destruct Hi as [Hk Hrest].
  apply bool_decide_eq_true in Hk. destruct Hk as [z Hz].
  destruct k as [|z'|c']; try discriminate Hz.
  change (length (z' :: omap hkey_int l) = S (length l)).
  simpl. rewrite (IH Hrest). reflexivity.
Qed.

Lemma sort_comparable_strings keys tags :
  keys <> [] ->
  sort_comparable keys = Ok (map HStr tags) ->
  Sorted str_le tags /\ map HStr tags ≡ₚ keys.
Proof.
  intros Hne. unfold sort_comparable.
  destruct (forallb (fun k => bool_decide (is_Some (hkey_str k))) keys) eqn:Hs.
  - intros H. injection H as H. apply map_HStr_inj in H. subst tags.
    split; [apply sort_by_sorted|].
    rewrite sort_by_perm, (omap_hkey_str_all keys Hs). reflexivity.
  - destruct (forallb (fun k => bool_decide (is_Some (hkey_int k))) keys) eqn:Hi;
      [|discriminate].
    intros H. injection H as H. exfalso.
    assert (length (map HInt (sort_by Z.leb (omap hkey_int keys))) = length keys) as Hlen.
    { rewrite length_map, (Permutation_length (sort_by_perm Z.leb _)).
      apply omap_hkey_int_length, Hi. }
    destruct (sort_by Z.leb (omap hkey_int keys)) as [|z zs].
    + destruct keys; [congruence|discriminate Hlen].
    + destruct tags; discriminate H.
Qed.

Lemma sorted_keys_strings keys tags :
  sorted_keys keys = Ok (map HStr tags) ->
  Sorted str_le tags /\ map HStr tags ≡ₚ keys.
Proof.
  unfold sorted_keys. destruct keys as [|k1 [|k2 keys]].
  - intros [= H]. destruct tags; [|discriminate H]. split; [constructor|reflexivity].
  - intros [= H]. destruct tags as [|c [|c' tags]]; try discriminate H.
    split; [repeat constructor|rewrite <- H; reflexivity].
  - apply sort_comparable_strings. discriminate.
Qed.

(** X8.  What the grouping step builds has one entry per tag and no empty
    entry; so the index, when it is written, has exactly one line per tag,
    the lines in the order of the tags as strings; the line of a tag names
    the tag and its file and shows, in decimal, the length of the list of
    the tag, which is at least one.  (The index is written only when every
    tag is a string.) *)
Theorem index_one_line_per_tag (lower : string -> string) (spec : json)
    (cats : categories) (lines : list string) :
  group_endpoints spec = Ok cats ->
  index_lines lower cats = Ok lines ->
  NoDup (map fst cats) /\
  exists tags,
    lines = map (fun c =>
                   "- [" ++ c ++ "](" ++ str_replace_char " "%char "_"%char (lower c)
                   ++ ".md) - "
                   ++ str_of_Z (Z.of_nat (length (tag_list (HStr c) cats))) ++ " endpoint"
                   ++ (if Nat.eqb (length (tag_list (HStr c) cats)) 1
                       then EmptyString else "s") ++ nl) tags /\
    Sorted str_le tags /\ NoDup tags /\
    map HStr tags ≡ₚ map fst cats /\
    (forall c, c ∈ tags ->
       1 <= length (tag_list (HStr c) cats) /\
       numeral_value (str_of_Z (Z.of_nat (length (tag_list (HStr c) cats))))
       = Some (Z.of_nat (length (tag_list (HStr c) cats)))).
Proof.
  intros Hg Hlines. destruct (group_endpoints_ok spec cats Hg) as [Hnd Hne].
  split; [exact Hnd|].
  unfold index_lines in Hlines.
  destruct (sorted_keys (map fst cats)) as [ks|] eqn:Hks; [|discriminate].
  cbn [obind] in Hlines.
  destruct (index_lines_strings lower cats ks lines Hlines) as (tags & -> & ->).
  destruct (sorted_keys_strings _ _ Hks) as [Hsorted Hperm].
  exists tags. split; [reflexivity|]. split; [exact Hsorted|].
  assert (NoDup (map HStr tags)) as Hnd'.
  { rewrite Hperm. exact Hnd. }
  split; [|split; [exact Hperm|]].
  - apply (NoDup_fmap_1 HStr). exact Hnd'.
  - intros c Hc. split; [|apply numeral_value_str_of_Z].
    assert (HStr c ∈ map fst cats) as Hin.
    { rewrite <- Hperm. apply list_elem_of_fmap. exists c. split; [reflexivity|exact Hc]. }
    apply list_elem_of_fmap in Hin. destruct Hin as ([t es] & Ht & Hin). simpl in Ht. subst t.
    pose proof (proj1 (Forall_forall _ _) Hne _ Hin) as Hes. simpl in Hes.
    assert (cat_get (HStr c) cats = Some es) as Hget.
    { clear -Hnd Hin. induction cats as [|[t0 es0] cats IH]; [inversion Hin|].
      simpl in *. apply NoDup_cons in Hnd. destruct Hnd as [Hnot Hnd].
      apply elem_of_cons in Hin. destruct Hin as [[= <- <-]|Hin].
      - rewrite decide_True by reflexivity. reflexivity.
      - destruct (decide (t0 = HStr c)) as [->|_]; [|exact (IH Hnd Hin)].
        exfalso. apply Hnot. apply list_elem_of_fmap. exists (HStr c, es).
        split; [reflexivity|exact Hin]. }
    unfold tag_list. rewrite Hget. simpl. destruct es; [congruence|simpl; lia].
Qed.

Lemma index_one_line_per_tag_witness :
  let spec :=
    JObj [("paths", JObj [("/p", JObj [("get", JObj [("tags", JArr [JStr "Products"])]);
                                       ("post", JObj [("tags", JArr [JStr "Admin"])])])])] in
  exists cats lines,
    group_endpoints spec = Ok cats /\ index_lines str_lower cats = Ok lines /\
    NoDup (map fst cats) /\
    exists tags,
      lines = map (fun c =>
                     "- [" ++ c ++ "](" ++ str_replace_char " "%char "_"%char (str_lower c)
                     ++ ".md) - "
                     ++ str_of_Z (Z.of_nat (length (tag_list (HStr c) cats))) ++ " endpoint"
                     ++ (if Nat.eqb (length (tag_list (HStr c) cats)) 1
                         then EmptyString else "s") ++ nl) tags /\
      Sorted str_le tags /\ NoDup tags /\
      map HStr tags ≡ₚ map fst cats /\
      (forall c, c ∈ tags ->
         1 <= length (tag_list (HStr c) cats) /\
         numeral_value (str_of_Z (Z.of_nat (length (tag_list (HStr c) cats))))
         = Some (Z.of_nat (length (tag_list (HStr c) cats)))).
Proof.
  intros spec. eexists. eexists. split; [reflexivity|]. split; [reflexivity|].
  apply (index_one_line_per_tag str_lower spec); reflexivity.
Defined.

Lemma ofold_ok_iff {X Y} (f : X -> Y -> outcome X) (P : Y -> bool) :
  (forall a y, is_ok (f a y) <-> P y = true) ->
  forall l a, is_ok (ofold f a l) <-> forallb P l = true.
Proof.
  intros Hf. induction l as [|y l IH]; intros a; cbn [ofold forallb].
  - split; [reflexivity|]. intros _. eexists; reflexivity.
  - rewrite andb_true_iff, <- (Hf a y). destruct (f a y) as [a'|e]; cbn [obind].
    + rewrite (IH a'). split; [intros H; split; [eexists; reflexivity|exact H]|tauto].
    + split; [intros [x Hx]; discriminate Hx|intros [[x Hx] _]; discriminate Hx].
Qed.

Lemma hash_key_ok v : is_ok (hash_key v) <-> hashable v = true.
Proof.
  destruct v; simpl; split; intros H; try reflexivity; try (eexists; reflexivity);
    try discriminate H; destruct H as [x Hx]; discriminate Hx.
Qed.

Lemma add_to_tag_ok_iff e cats tag : is_ok (add_to_tag e cats tag) <-> hashable tag = true.
Proof.
  rewrite <- hash_key_ok. unfold add_to_tag.
  destruct (hash_key tag); cbn [obind]; split; intros H; try (eexists; reflexivity);
    destruct H as [x Hx]; discriminate Hx.
Qed.

Lemma add_operation_ok_iff path cats entry :
  is_ok (add_operation path cats entry) <-> operation_groupable entry = true.
Proof.
  destruct entry as [m ed]. unfold add_operation, operation_groupable. cbn [fst snd].
  destruct (str_in (str_lower m) http_methods); cbn [negb].
  - destruct ed as [| | | | |op]; cbn [as_dict obind];
      try (split; [intros [x Hx]; discriminate Hx|discriminate]).
    destruct (py_iter _) as [ts|]; cbn [obind].
    + apply ofold_ok_iff. intros a y. apply add_to_tag_ok_iff.
    + split; [intros [x Hx]; discriminate Hx|discriminate].
  - split; [reflexivity|]. intros _. eexists; reflexivity.
Qed.

Lemma add_path_ok_iff cats entry :
  is_ok (add_path cats entry) <-> path_groupable entry = true.
Proof.
  destruct entry as [p pd]. unfold add_path, path_groupable. cbn [fst snd].
  destruct pd as [| | | | |ops]; cbn [py_items obind];
    try (split; [intros [x Hx]; discriminate Hx|discriminate]).
  apply ofold_ok_iff. intros a y. apply add_operation_ok_iff.
Qed.

(** X9.  The grouping step raises exactly on the documents it cannot walk:
    it returns when [paths] (if present) is a mapping, each path item is a
    mapping, and each entry of a path item under an HTTP method name is a
    mapping whose [tags] (if present) can be iterated and hold only
    hashable values; otherwise it raises.  Entries under other keys are not
    looked at. *)
Theorem grouping_raises_exactly (spec : dict) :
  is_ok (group_endpoints (JObj spec)) <-> spec_groupable spec = true.
Proof.
  unfold group_endpoints, spec_groupable. cbn [as_dict obind].
  destruct (dict_get_default "paths" (JObj []) spec) as [| | | | |paths];
    cbn [py_items obind];
    try (split; [intros [x Hx]; discriminate Hx|discriminate]).
  apply ofold_ok_iff. intros a y. apply add_path_ok_iff.
Qed.

Lemma grouping_raises_exactly_witness :
  is_ok (group_endpoints
           (JObj [("paths", JObj [("/p", JObj [("parameters", JNull);
                                               ("get", JObj [("tags", JStr "ab")])])])])).
Proof.
  apply (proj2 (grouping_raises_exactly
                  [("paths", JObj [("/p", JObj [("parameters", JNull);
                                                ("get", JObj [("tags", JStr "ab")])])])])).
  reflexivity.
Defined.

(** ** Reasoning about the formatters, once for all properties *)

Section FormattersTraversal.
Variable XX : forall A : Type, W A -> W A -> Prop.
Variable G : forall A : Type, outcome A -> Prop.
Variable R : json -> Prop.

Hypothesis XX_ret : forall A (a : A), XX A (wret a) (wret a).
Hypothesis XX_lift_bind :
  forall A B (o : outcome A) (f1 f2 : A -> W B),
    G A o -> (forall a, o = Ok a -> XX B (f1 a) (f2 a)) ->
    XX B (wbind (wlift o) f1) (wbind (wlift o) f2).
Hypothesis XX_bind :
  forall A B (m1 m2 : W A) (f1 f2 : A -> W B),
    XX A m1 m2 -> (forall a, XX B (f1 a) (f2 a)) ->
    XX B (wbind m1 f1) (wbind m2 f2).

Variables fuel1 fuel2 : nat.
Variables doc1 doc2 : json.
Variables inl1 inl2 : bool.

Hypothesis XX_schema :
  forall n s, R s ->
    XX string (schema_at fuel1 doc1 inl1 n s) (schema_at fuel2 doc2 inl2 n s).

Lemma steps_related {X} (f1 f2 : X -> W string) (l : list X) :
  (forall x, x ∈ l -> XX string (f1 x) (f2 x)) ->
  XX string (wconcat (map f1 l)) (wconcat (map f2 l)).
Proof.
  intros H. apply (XX_concat XX XX_ret XX_bind). apply Forall2_map_same. exact H.
Qed.

Lemma parameter_step_related param :
  param_fine G R param ->
  XX string (parameter_step fuel1 doc1 inl1 param) (parameter_step fuel2 doc2 inl2 param).
Proof.
  intros [Hg Hr]. unfold parameter_step.
  apply XX_lift_bind; [exact Hg|]. intros p Hp.
  apply XX_bind; [|intros; apply XX_ret].
  case_eq (dict_get "schema" p); [intros s E|intros _; apply XX_ret].
  apply XX_bind; [|intros; apply XX_ret].
  apply XX_schema. exact (Hr p s Hp E).
Qed.

Lemma format_parameters_related parameters :
  params_fine G R parameters ->
  XX string (format_parameters fuel1 doc1 inl1 parameters)
            (format_parameters fuel2 doc2 inl2 parameters).
Proof.
  intros H. unfold format_parameters.
  case_eq (truthy parameters); intros Ht; cbn [negb]; [|apply XX_ret].
  destruct (H Ht) as [Hg Hall].
  apply XX_lift_bind; [exact Hg|]. intros params Hp.
  apply steps_related. intros x Hx. apply parameter_step_related.
  exact (proj1 (Forall_forall _ _) (Hall params Hp) x Hx).
Qed.

Lemma content_step_related entry :
  content_entry_fine G R entry.2 ->
  XX string (content_step fuel1 doc1 inl1 entry) (content_step fuel2 doc2 inl2 entry).
Proof.
  destruct entry as [content_type content_spec]. intros [Hg Hr]. unfold content_step.
  apply XX_lift_bind; [exact Hg|]. intros schema Hs.
  apply XX_bind; [|intros; apply XX_ret].
  destruct schema as [s|]; [|apply XX_ret].
  apply XX_schema. exact (Hr s Hs).
Qed.

Lemma content_related c (k : string -> string) :
  content_fine G R c ->
  XX string
    (let* items := wlift (py_items c) in
     let* body := wconcat (map (content_step fuel1 doc1 inl1) items) in
     wret (k body))
    (let* items := wlift (py_items c) in
     let* body := wconcat (map (content_step fuel2 doc2 inl2) items) in
     wret (k body)).
Proof.
  intros [Hg Hall].
  apply XX_lift_bind; [exact Hg|]. intros items Hi.
  apply XX_bind; [|intros; apply XX_ret].
  apply steps_related. intros x Hx. apply content_step_related.
  exact (proj1 (Forall_forall _ _) (Hall items Hi) x Hx).
Qed.

Lemma format_request_body_related request_body :
  body_fine G R request_body ->
  XX string (format_request_body fuel1 doc1 inl1 request_body)
            (format_request_body fuel2 doc2 inl2 request_body).
Proof.
  intros H. unfold format_request_body.
  case_eq (truthy request_body); intros Ht; cbn [negb]; [|apply XX_ret].
  destruct (H Ht) as [Hg Hc].
  apply XX_lift_bind; [exact Hg|]. intros rb Hrb.
  apply XX_bind; [|intros; apply XX_ret].
  case_eq (dict_get "content" rb); [intros c E|intros _; apply XX_ret].
  apply (content_related c). exact (Hc rb c Hrb E).
Qed.

Lemma response_step_related entry :
  response_fine G R entry.2 ->
  XX string (response_step fuel1 doc1 inl1 entry) (response_step fuel2 doc2 inl2 entry).
Proof.
  destruct entry as [status_code response_spec]. intros (Hd & Hc & Hfine).
  unfold response_step.
  apply XX_lift_bind; [exact Hd|]. intros description _.
  apply XX_lift_bind; [exact Hc|]. intros content Hcontent.
  apply XX_bind; [|intros; apply XX_ret].
  destruct content as [c|]; [|apply XX_ret].
  apply (content_related c). exact (Hfine c Hcontent).
Qed.

Lemma format_responses_related responses :
  responses_fine G R responses ->
  XX string (format_responses fuel1 doc1 inl1 responses)
            (format_responses fuel2 doc2 inl2 responses).
Proof.
  intros H. unfold format_responses.
  case_eq (truthy responses); intros Ht; cbn [negb]; [|apply XX_ret].
  destruct (H Ht) as [Hg Hall].
  apply XX_lift_bind; [exact Hg|]. intros items Hi.
  apply steps_related. intros x Hx. apply response_step_related.
  exact (proj1 (Forall_forall _ _) (Hall items Hi) x Hx).
Qed.

Lemma security_section_related op :
  (forall v, dict_get "security" op = Some v -> security_fine G v) ->
  XX string (security_section op) (security_section op).
Proof.
  intros H. unfold security_section.
  case_eq (dict_get "security" op); [intros v E|intros _; apply XX_ret].
  destruct (H v E) as [Hg Hall].
  apply XX_lift_bind; [exact Hg|]. intros reqs Hr.
  apply XX_bind; [|intros; apply XX_ret].
  apply steps_related. intros req Hreq. unfold security_req_step.
  apply XX_lift_bind; [exact (proj1 (Forall_forall _ _) (Hall reqs Hr) req Hreq)|].
  intros items _. apply steps_related. intros [scheme_name scopes] _. apply XX_ret.
Qed.

Lemma endpoint_heading_related path method op :
  (forall v, dict_get "tags" op = Some v -> G _ (join_ticked v)) ->
  XX string (endpoint_heading path method op) (endpoint_heading path method op).
Proof.
  intros H. unfold endpoint_heading.
  apply XX_bind; [|intros; apply XX_ret].
  case_eq (dict_get "tags" op); [intros v E|intros _; apply XX_ret].
  apply XX_lift_bind; [exact (H v E)|]. intros joined _. apply XX_ret.
Qed.

(** Two renderings of an endpoint are related as soon as the renderings of
    the schemas it reaches are. *)
Lemma format_endpoint_related path method op :
  operation_fine G R op ->
  XX string (format_endpoint fuel1 doc1 inl1 path method op)
            (format_endpoint fuel2 doc2 inl2 path method op).
Proof.
  intros (Htags & Hparams & Hbody & Hresp & Hsec). unfold format_endpoint.
  apply (XX_concat XX XX_ret XX_bind).
  repeat (apply Forall2_cons; split); try apply Forall2_nil; try exact I.
  - apply endpoint_heading_related, Htags.
  - unfold parameters_section.
    case_eq (dict_get "parameters" op); [intros v E|intros _; apply XX_ret].
    case_eq (truthy v); intros Ht; [|apply XX_ret].
    apply XX_bind; [|intros; apply XX_ret].
    apply format_parameters_related. exact (Hparams v E).
  - unfold request_body_section.
    case_eq (dict_get "requestBody" op); [intros v E|intros _; apply XX_ret].
    apply XX_bind; [|intros; apply XX_ret].
    apply format_request_body_related. exact (Hbody v E).
  - unfold responses_section.
    case_eq (dict_get "responses" op); [intros v E|intros _; apply XX_ret].
    apply XX_bind; [|intros; apply XX_ret].
    apply format_responses_related. exact (Hresp v E).
  - apply security_section_related, Hsec.
  - apply XX_ret.
Qed.
End FormattersTraversal.

(** *** The schemas an endpoint reaches lie within the operation *)

Lemma within_get d k c : dict_get k d = Some c -> within c (JObj d).
Proof. intros H. apply (within_dict_get d k c H). Qed.

Lemma within_in d k c : (k, c) ∈ d -> within c (JObj d).
Proof. intros H. apply (within_entry d k c H). Qed.

Lemma guarded_get_some key v s :
  guarded_get key v = Ok (Some s) -> exists d, v = JObj d /\ dict_get key d = Some s.
Proof.
  destruct v as [| | |x|xs|d]; simpl; try discriminate.
  - destruct (str_contains key x); discriminate.
  - destruct (existsb _ xs); discriminate.
  - intros [= H]. exists d. split; [reflexivity|exact H].
Qed.

Lemma content_fine_within root c :
  within c root -> content_fine any_result (fun s => within s root) c.
Proof.
  intros Hc. split; [exact I|]. intros items Hi.
  destruct c as [| | | | |d]; try discriminate Hi. injection Hi as <-.
  apply Forall_forall. intros [ct cs] Hin. split; [exact I|]. intros s Hs. simpl in Hs.
  destruct (guarded_get_some _ _ _ Hs) as (d' & -> & Hd').
  eapply within_trans; [apply (within_get _ _ _ Hd')|].
  eapply within_trans; [apply (within_in d ct _ Hin)|exact Hc].
Qed.

Lemma with_content_fine_within root v d c :
  within v root -> v = JObj d -> dict_get "content" d = Some c ->
  content_fine any_result (fun s => within s root) c.
Proof.
  intros Hv -> Hc. apply content_fine_within.
  eapply within_trans; [apply (within_get _ _ _ Hc)|exact Hv].
Qed.

Lemma operation_fine_within op :
  operation_fine any_result (fun s => within s (JObj op)) op.
Proof.
  split; [intros; exact I|]. split; [|split; [|split]].
  - intros v Hv Ht. split; [exact I|]. intros params Hp.
    apply Forall_forall. intros x Hx. split; [exact I|]. intros p s Hxp Hs.
    destruct x; try discriminate Hxp. injection Hxp as ->.
    eapply within_trans; [apply (within_get _ _ _ Hs)|].
    eapply within_trans; [exact (within_iter _ _ _ Hp Hx)|apply (within_get _ _ _ Hv)].
  - intros v Hv Ht. split; [exact I|]. intros rb c Hrb Hc.
    destruct v; try discriminate Hrb. injection Hrb as ->.
    eapply with_content_fine_within; [apply (within_get _ _ _ Hv)|reflexivity|exact Hc].
  - intros v Hv Ht. split; [exact I|]. intros items Hi.
    destruct v as [| | | | |d]; try discriminate Hi. injection Hi as <-.
    apply Forall_forall. intros [code r] Hin. split; [exact I|]. split; [exact I|].
    intros c Hc. simpl in Hc. destruct (guarded_get_some _ _ _ Hc) as (d' & -> & Hd').
    eapply with_content_fine_within; [|reflexivity|exact Hd'].
    eapply within_trans; [apply (within_in d code _ Hin)|apply (within_get _ _ _ Hv)].
  - intros v Hv. split; [exact I|]. intros reqs _. apply Forall_forall. intros; exact I.
Qed.

(** *** Equal renderings *)

Lemma format_endpoint_congruence fuel1 fuel2 doc1 doc2 inl1 inl2 path method op :
  (forall n s, within s (JObj op) ->
     schema_at fuel1 doc1 inl1 n s = schema_at fuel2 doc2 inl2 n s) ->
  format_endpoint fuel1 doc1 inl1 path method op
  = format_endpoint fuel2 doc2 inl2 path method op.
Proof.
  intros H.
  apply (format_endpoint_related (fun A w1 w2 => w1 = w2) any_result
           (fun s => within s (JObj op))).
  - reflexivity.
  - intros A B [a|e] f1 f2 _ Hf; simpl; [rewrite (Hf a eq_refl)|]; reflexivity.
  - intros A B m1 m2 f1 f2 -> Hf. apply wbind_ext, Hf.
  - exact H.
  - apply operation_fine_within.
Qed.

Lemma fuel_bound_within s v doc seen :
  within s v -> fuel_bound s doc seen <= fuel_bound v doc seen.
Proof.
  intros (Hs & Hr & _). unfold fuel_bound.
  assert (size ((refs_of doc ∪ refs_of s) ∖ seen)
          <= size ((refs_of doc ∪ refs_of v) ∖ seen)) as Hle.
  { apply subseteq_size. set_solver. }
  nia.
Qed.

Lemma format_endpoint_defined fuel doc inl path method op :
  fuel_bound (JObj op) doc ∅ < fuel ->
  is_Some (format_endpoint fuel doc inl path method op).
Proof.
  intros Hf.
  apply (format_endpoint_related (fun A w1 _ => is_Some w1) any_result
           (fun s => within s (JObj op)))
    with (fuel2 := fuel) (doc2 := doc) (inl2 := inl).
  - intros A a. eexists; reflexivity.
  - intros A B [a|e] f1 f2 _ H; simpl.
    + destruct (H a eq_refl) as [[o l] ->]. eexists; reflexivity.
    + eexists; reflexivity.
  - intros A B m1 m2 f1 f2 [[[a|e] l] ->] H; simpl.
    + destruct (H a) as [[o l'] ->]. eexists; reflexivity.
    + eexists; reflexivity.
  - intros n s Hs. unfold schema_at. apply wcall_defined, format_schema_defined.
    pose proof (fuel_bound_within s (JObj op) doc ∅ Hs). lia.
  - apply operation_fine_within.
Qed.

Lemma format_endpoint_total doc inl path method op :
  exists res,
    forall fuel, fuel_bound (JObj op) doc ∅ < fuel ->
      format_endpoint fuel doc inl path method op = Some res.
Proof.
  destruct (format_endpoint_defined (S (fuel_bound (JObj op) doc ∅)) doc inl
              path method op) as [res Hres]; [lia|].
  exists res. intros fuel Hf. rewrite <- Hres.
  apply format_endpoint_congruence. intros n s Hs. unfold schema_at, wcall.
  destruct (format_schema_total s doc n ∅ inl) as [r Hr].
  pose proof (fuel_bound_within s (JObj op) doc ∅ Hs) as Hle.
  rewrite (Hr fuel), (Hr (S (fuel_bound (JObj op) doc ∅))) by lia. reflexivity.
Qed.

(** X10.  [format_endpoint] terminates: for every operation, document and
    mode there is one result, a string or an exception, that every budget
    of nested calls above the bound of the operation produces; in every
    schema rendering it started, each call goes to a strictly smaller node
    or, from a [$ref] node, strictly grows the visited-set by a reference
    path of the node, so that reference cycles do not make it loop. *)
Theorem format_endpoint_terminates (doc : json) (inline : bool) (path method : string)
    (op : dict) :
  exists o calls,
    (forall fuel, fuel_bound (JObj op) doc ∅ < fuel ->
       format_endpoint fuel doc inline path method op = Some (o, calls)) /\
    Forall (every_call descends) calls.
Proof.
  destruct (format_endpoint_total doc inline path method op) as [[o l] Hres].
  exists o, l. split; [exact Hres|].
  pose proof (Hres _ (Nat.lt_succ_diag_r _)) as Hrun.
  refine (proj2 (format_endpoint_related
                   (fun A w1 _ => wsat false (every_call descends) A w1) any_result
                   (fun s => within s (JObj op)) _ _ _
                   (S (fuel_bound (JObj op) doc ∅)) (S (fuel_bound (JObj op) doc ∅))
                   doc doc inline inline _ path method op
                   (operation_fine_within op) o l Hrun)).
  - intros A a. apply wsat_ret.
  - intros A B o' f1 f2 _ Hf. apply wsat_lift_bind; [discriminate|exact Hf].
  - intros A B m1 m2 f1 f2. apply wsat_bind.
  - intros n s _. unfold schema_at. apply wsat_call. intros r Hr.
    split; [discriminate|].
    eapply every_call_impl; [|exact (run_faithful _ _ _ _ _ _ _ Hr)].
    intros c. apply faithful_descends.
Qed.

(** *** Conforming operations do not raise *)

Lemma schema_entry_ok_inv v :
  schema_entry_ok v = true ->
  exists d, v = JObj d /\ opt_all well_shaped (dict_get "schema" d) = true.
Proof. destruct v; try discriminate. intros H. eexists. split; [reflexivity|exact H]. Qed.

Lemma content_fine_conforming c :
  content_ok c = true -> content_fine no_raise (fun s => well_shaped s = true) c.
Proof.
  destruct c as [| | | | |items]; try discriminate. simpl. intros Hall.
  split; [eexists; reflexivity|]. intros items' [= <-].
  apply Forall_forall. intros [ct cs] Hin.
  pose proof (forallb_true_elem _ _ _ Hall Hin) as Hcs. simpl in Hcs.
  destruct (schema_entry_ok_inv cs Hcs) as (d & -> & Hd). simpl.
  split; [eexists; reflexivity|]. intros s [= Hs]. rewrite Hs in Hd. exact Hd.
Qed.

Lemma with_content_ok_inv v :
  with_content_ok v = true ->
  exists d, v = JObj d /\ opt_all content_ok (dict_get "content" d) = true.
Proof. destruct v; try discriminate. intros H. eexists. split; [reflexivity|exact H]. Qed.

Lemma operation_fine_conforming op :
  operation_conforming op = true ->
  operation_fine no_raise (fun s => well_shaped s = true) op.
Proof.
  unfold operation_conforming. rewrite !andb_true_iff.
  intros [[[[Htags Hparams] Hbody] Hresp] Hsec].
  split; [|split; [|split; [|split]]].
  - intros v E. rewrite E in Htags. apply iterable_join_ticked, Htags.
  - intros v E Ht. rewrite E in Hparams. unfold opt_all, params_ok in Hparams.
    rewrite Ht in Hparams. cbn [negb orb] in Hparams.
    destruct v as [| | | |ps|]; try discriminate Hparams.
    split; [eexists; reflexivity|]. intros params [= <-].
    apply Forall_forall. intros x Hx.
    destruct (schema_entry_ok_inv x (forallb_true_elem _ _ _ Hparams Hx)) as (d & -> & Hd).
    split; [eexists; reflexivity|]. intros p s [= <-] Hs. rewrite Hs in Hd. exact Hd.
  - intros v E Ht. rewrite E in Hbody. unfold opt_all, body_ok in Hbody.
    rewrite Ht in Hbody. cbn [negb orb] in Hbody.
    destruct (with_content_ok_inv v Hbody) as (d & -> & Hd).
    split; [eexists; reflexivity|]. intros rb c [= <-] Hc. rewrite Hc in Hd.
    apply content_fine_conforming, Hd.
  - intros v E Ht. rewrite E in Hresp. unfold opt_all, responses_ok in Hresp.
    rewrite Ht in Hresp. cbn [negb orb] in Hresp.
    destruct v as [| | | | |items]; try discriminate Hresp.
    split; [eexists; reflexivity|]. intros items' [= <-].
    apply Forall_forall. intros [code r] Hin.
    pose proof (forallb_true_elem _ _ _ Hresp Hin) as Hr. simpl in Hr.
    destruct (with_content_ok_inv r Hr) as (d & -> & Hd). simpl.
    split; [eexists; reflexivity|]. split; [eexists; reflexivity|].
    intros c [= Hc]. rewrite Hc in Hd. apply content_fine_conforming, Hd.
  - intros v E. rewrite E in Hsec. unfold opt_all, security_ok in Hsec.
    destruct v as [| | | |reqs|]; try discriminate Hsec.
    split; [eexists; reflexivity|]. intros reqs' [= <-].
    apply Forall_forall. intros req Hreq.
    pose proof (forallb_true_elem _ _ _ Hsec Hreq) as Hm.
    destruct req; try discriminate Hm. eexists; reflexivity.
Qed.




(** *** Reference-only mode never consults the document *)

Lemma facets_ext (rec1 rec2 : renderer) d doc indent seen1 seen2 inl :
  (forall c i, c ∈ children d ->
     wcall rec1 c doc i seen1 inl = wcall rec2 c doc i seen2 inl) ->
  format_facets rec1 d doc indent seen1 inl = format_facets rec2 d doc indent seen2 inl.
Proof.
  intros H.
  apply (facets_related (fun A w1 w2 => w1 = w2) any_result); try (intros; exact I).
  - reflexivity.
  - intros A B [a|e] f1 f2 _ Hf; simpl; [rewrite (Hf a eq_refl)|]; reflexivity.
  - intros A B m1 m2 f1 f2 -> Hf. apply wbind_ext, Hf.
  - exact H.
Qed.

Lemma reference_only_any_document n :
  forall schema doc1 doc2 indent seen,
    format_schema n schema doc1 indent seen false
    = format_schema n schema doc2 indent seen false.
Proof.
  induction n as [|n IH]; intros schema doc1 doc2 indent seen; [reflexivity|].
  simpl. unfold format_schema_body.
  destruct schema as [| | | | |d]; try reflexivity.
  destruct (dict_get "$ref" d) as [p|].
  - unfold format_ref. destruct (hash_key p) as [k|e]; [|reflexivity].
    destruct (bool_decide (k ∈ seen)); reflexivity.
  - assert (format_facets (format_schema n) d doc1 indent seen false
            = format_facets (format_schema n) d doc2 indent seen false) as ->;
      [|reflexivity].
    change (format_facets (format_schema n) d doc2 indent seen false)
      with (format_facets (fun c _ j s _ => format_schema n c doc2 j s false)
              d doc1 indent seen false).
    apply facets_ext. intros c i _. unfold wcall.
    rewrite (IH c doc1 doc2 i seen). reflexivity.
Qed.

(** X12.  With [inline_refs] false the document is never consulted: a
    schema, and a whole endpoint, renders to one result, log of calls
    included, whatever document is passed. *)
Theorem reference_only_ignores_document :
  (forall (schema : json) (indent : nat) (seen : refset),
      exists r,
        forall (doc : json) fuel, fuel_bound schema JNull seen < fuel ->
          format_schema fuel schema doc indent seen false = Some r) /\
  (forall (path method : string) (op : dict),
      exists res,
        forall (doc : json) fuel, fuel_bound (JObj op) JNull ∅ < fuel ->
          format_endpoint fuel doc false path method op = Some res).
Proof.
  split.
  - intros schema indent seen.
    destruct (format_schema_total schema JNull indent seen false) as [r Hr].
    exists r. intros doc fuel Hf.
    rewrite (reference_only_any_document fuel schema doc JNull indent seen).
    apply Hr, Hf.
  - intros path method op.
    destruct (format_endpoint_total JNull false path method op) as [res Hres].
    exists res. intros doc fuel Hf. rewrite <- (Hres fuel Hf).
    apply format_endpoint_congruence. intros n s _. unfold schema_at, wcall.
    rewrite (reference_only_any_document fuel s doc JNull n ∅). reflexivity.
Qed.

(** *** Each schema of an endpoint is rendered afresh *)

Lemma run_fresh_rendering n node doc i inl r :
  format_schema n node doc i ∅ inl = Some r ->
  fresh_rendering (Call node i ∅ (r_out r) (r_calls r)).
Proof.
  intros Hr. split; [reflexivity|]. split; [exact (run_on_branch _ _ _ _ _ _ _ Hr)|].
  eapply every_call_impl; [|exact (run_faithful _ _ _ _ _ _ _ Hr)].
  intros c [Hg _]. exact (genuine_stops_at_reentry doc inl c Hg).
Qed.

(** X13.  [format_endpoint] starts the rendering of every schema of the
    operation with an empty visited-set: what one section has inlined is
    inlined again in the next, and the circular marker can only stand for
    a reference met again below itself. *)
Theorem endpoint_schemas_rendered_afresh (doc : json) (inline : bool)
    (path method : string) (op : dict) :
  exists o calls,
    (forall fuel, fuel_bound (JObj op) doc ∅ < fuel ->
       format_endpoint fuel doc inline path method op = Some (o, calls)) /\
    Forall fresh_rendering calls.
Proof.
  destruct (format_endpoint_total doc inline path method op) as [[o l] Hres].
  exists o, l. split; [exact Hres|].
  pose proof (Hres _ (Nat.lt_succ_diag_r _)) as Hrun.
  refine (proj2 (format_endpoint_related
                   (fun A w1 _ => wsat false fresh_rendering A w1) any_result
                   (fun s => within s (JObj op)) _ _ _
                   (S (fuel_bound (JObj op) doc ∅)) (S (fuel_bound (JObj op) doc ∅))
                   doc doc inline inline _ path method op
                   (operation_fine_within op) o l Hrun)).
  - intros A a. apply wsat_ret.
  - intros A B o' f1 f2 _ Hf. apply wsat_lift_bind; [discriminate|exact Hf].
  - intros A B m1 m2 f1 f2. apply wsat_bind.
  - intros n s _. unfold schema_at. apply wsat_call. intros r Hr.
    split; [discriminate|]. exact (run_fresh_rendering _ _ _ _ _ _ Hr).
Qed.

(** *** The keys of an operation that are read *)

(** X14.  [format_endpoint] reads eight keys of the operation and nothing
    else: two operations that agree on them render alike, whatever other
    keys they hold and in whatever order the keys stand, so the sections
    come in the fixed order of the code. *)
Theorem format_endpoint_reads_known_keys (fuel : nat) (doc : json) (inline : bool)
    (path method : string) (op1 op2 : dict) :
  agree_on endpoint_keys op1 op2 ->
  format_endpoint fuel doc inline path method op1
  = format_endpoint fuel doc inline path method op2.
Proof.
  intros H.
  assert (forall k, k ∈ endpoint_keys -> dict_get k op1 = dict_get k op2) as Hk by exact H.
  unfold format_endpoint, endpoint_heading, parameters_section, request_body_section,
    responses_section, security_section.
  rewrite (Hk "summary"), (Hk "description"), (Hk "operationId"), (Hk "tags"),
    (Hk "parameters"), (Hk "requestBody"), (Hk "responses"), (Hk "security")
    by (unfold endpoint_keys; set_solver).
  reflexivity.
Qed.

Lemma format_endpoint_reads_known_keys_witness :
  format_endpoint 3 (JObj []) true "/pets" "get"
    [("deprecated", JBool true); ("responses", JObj [("200", JObj [])]);
     ("summary", JStr "List pets")]
  = format_endpoint 3 (JObj []) true "/pets" "get"
      [("summary", JStr "List pets"); ("responses", JObj [("200", JObj [])])].
Proof.
  apply (format_endpoint_reads_known_keys 3 (JObj []) true "/pets" "get"
           [("deprecated", JBool true); ("responses", JObj [("200", JObj [])]);
            ("summary", JStr "List pets")]
           [("summary", JStr "List pets"); ("responses", JObj [("200", JObj [])])]).
  intros k Hk. unfold endpoint_keys in Hk.
  repeat (apply elem_of_cons in Hk; destruct Hk as [->|Hk]; [reflexivity|]).
  inversion Hk.
Defined.
(** ** The documents written by [generate_category_docs] *)

Section DocumentLemmas.
Variable lower : string -> string.

Lemma io_bind_inv {A B} (m : IO A) (f : A -> IO B) o evs :
  io_bind m f = Some (o, evs) ->
  (exists e, m = Some (Raise e, evs) /\ o = Raise e) \/
  (exists a evs1 evs2,
      m = Some (Ok a, evs1) /\ f a = Some (o, evs2) /\ evs = (evs1 ++ evs2)%list).
Proof.
  unfold io_bind. destruct m as [[[a|e] evs1]|]; [| |discriminate].
  - destruct (f a) as [[o2 evs2]|] eqn:E; [|discriminate].
    intros [= <- <-]. right. exists a, evs1, evs2. repeat split. exact E.
  - intros [= <- <-]. left. exists e. split; reflexivity.
Qed.

Lemma io_seq_ok steps evs :
  io_seq steps = Some (Ok tt, evs) ->
  exists evss, Forall2 (fun st ev => st = Some (Ok tt, ev)) steps evss /\ evs = concat evss.
Proof.
  revert evs. induction steps as [|st steps IH]; intros evs; cbn [io_seq].
  - intros [= <-]. exists []. split; [constructor|reflexivity].
  - intros H. apply io_bind_inv in H.
    destruct H as [(e & _ & He)|([] & evs1 & evs2 & Hst & Hrest & ->)]; [discriminate He|].
    destruct (IH _ Hrest) as (evss & Hall & ->).
    exists (evs1 :: evss). split; [constructor; assumption|reflexivity].
Qed.



(** *** Statements that only write *)

Lemma opened_app evs1 evs2 : opened (evs1 ++ evs2) = (opened evs1 ++ opened evs2)%list.
Proof. unfold opened. apply omap_app. Qed.

Lemma writes_only_ret {A} (a : A) : writes_only (io_ret a).
Proof. intros o evs [= <- <-]. reflexivity. Qed.

Lemma writes_only_lift {A} (o : outcome A) : writes_only (io_lift o).
Proof. intros o' evs [= <- <-]. reflexivity. Qed.

Lemma writes_only_write t : writes_only (write_text t).
Proof. intros o evs [= <- <-]. reflexivity. Qed.

Lemma writes_only_render w : writes_only (io_render w).
Proof.
  intros o evs. unfold io_render. destruct w as [[o' l]|]; [|discriminate].
  intros [= <- <-]. reflexivity.
Qed.

Lemma writes_only_bind {A B} (m : IO A) (f : A -> IO B) :
  writes_only m -> (forall a, writes_only (f a)) -> writes_only (io_bind m f).
Proof.
  intros Hm Hf o evs H. apply io_bind_inv in H.
  destruct H as [(e & Hst & _)|(a & evs1 & evs2 & Hst & Hrest & ->)].
  - exact (Hm _ _ Hst).
  - rewrite opened_app, (Hm _ _ Hst), (Hf a _ _ Hrest). reflexivity.
Qed.

Lemma writes_only_seq steps : Forall writes_only steps -> writes_only (io_seq steps).
Proof.
  induction 1 as [|st steps Hst _ IH]; cbn [io_seq].
  - apply writes_only_ret.
  - apply writes_only_bind; [exact Hst|intros _; exact IH].
Qed.

Lemma writes_only_map {X} (f : X -> IO unit) l :
  (forall x, writes_only (f x)) -> writes_only (io_seq (map f l)).
Proof. intros H. apply writes_only_seq, Forall_forall. intros st Hst.
  apply list_elem_of_fmap in Hst. destruct Hst as (x & -> & _). apply H. Qed.

Lemma Forall_imap_all {X Y} (P : Y -> Prop) (f : nat -> X -> Y) l :
  (forall i x, P (f i x)) -> Forall P (imap f l).
Proof.
  revert f. induction l as [|x l IH]; intros f H; [constructor|].
  rewrite imap_cons. constructor; [apply H|]. apply IH. intros i y. apply H.
Qed.

Lemma writes_only_imap {X} (f : nat -> X -> IO unit) l :
  (forall i x, writes_only (f i x)) -> writes_only (io_seq (imap f l)).
Proof. intros H. apply writes_only_seq, Forall_imap_all, H. Qed.

Ltac each_step := repeat first [apply List.Forall_cons | apply List.Forall_nil].

Ltac writes_only_steps :=
  repeat first
    [ apply writes_only_ret | apply writes_only_lift | apply writes_only_write
    | apply writes_only_render
    | apply writes_only_bind; [|intros ?]
    | apply writes_only_map; intros ?
    | apply writes_only_seq; each_step ].

Lemma writes_only_category_info spec : writes_only (category_info spec).
Proof.
  unfold category_info. destruct (dict_get "info" spec); [|apply writes_only_ret].
  writes_only_steps. destruct (dict_get "description" _); writes_only_steps.
Qed.

Lemma writes_only_index_info spec : writes_only (index_info spec).
Proof.
  unfold index_info. destruct (dict_get "info" spec); [|apply writes_only_ret].
  writes_only_steps. destruct (dict_get "description" _); writes_only_steps.
Qed.

Lemma writes_only_server_step server : writes_only (server_step server).
Proof. unfold server_step. writes_only_steps. destruct (truthy _); writes_only_steps. Qed.

Lemma writes_only_servers_block spec : writes_only (servers_block spec).
Proof.
  unfold servers_block. destruct (dict_get "servers" spec); [|apply writes_only_ret].
  destruct (truthy j); [|apply writes_only_ret].
  apply writes_only_seq. each_step.
  - apply writes_only_write.
  - apply writes_only_bind; [apply writes_only_lift|]. intros items.
    apply writes_only_map, writes_only_server_step.
  - apply writes_only_write.
Qed.



(** *** Text and files of a sequence of events *)

Lemma str_concat_cons x xs :
  String.concat EmptyString (x :: xs) = x ++ String.concat EmptyString xs.
Proof. destruct xs; simpl; [rewrite str_app_nil_r|]; reflexivity. Qed.

Lemma str_concat_app xs ys :
  String.concat EmptyString (xs ++ ys)
  = String.concat EmptyString xs ++ String.concat EmptyString ys.
Proof.
  induction xs as [|x xs IH]; [reflexivity|].
  rewrite <- app_comm_cons, !str_concat_cons, IH, str_app_assoc. reflexivity.
Qed.

Lemma written_app evs1 evs2 : written (evs1 ++ evs2) = written evs1 ++ written evs2.
Proof. unfold written. rewrite omap_app. apply str_concat_app. Qed.

Lemma written_write t evs : written (FileWrite t :: evs) = t ++ written evs.
Proof. unfold written. cbn [omap]. apply str_concat_cons. Qed.

Lemma written_writes mds : written (map FileWrite mds) = String.concat EmptyString mds.
Proof.
  induction mds as [|md mds IH]; [reflexivity|].
  cbn [map]. rewrite written_write, IH, str_concat_cons. reflexivity.
Qed.

Lemma opened_write t evs : opened (FileWrite t :: evs) = opened evs.
Proof. reflexivity. Qed.

Lemma opened_writes mds : opened (map FileWrite mds) = [].
Proof. induction mds as [|md mds IH]; [reflexivity|exact IH]. Qed.

Lemma sessions_from_writes ws rest :
  opened ws = [] ->
  sessions_from (ws ++ rest)
  = (written ws ++ (sessions_from rest).1, (sessions_from rest).2).
Proof.
  induction ws as [|[f|t] ws IH]; intros Hw.
  - simpl. destruct (sessions_from rest); reflexivity.
  - discriminate Hw.
  - cbn [app sessions_from]. rewrite (IH Hw), written_write, str_app_assoc. reflexivity.
Qed.

(** A file opened and written to is one session. *)
Lemma sessions_file f ws rest :
  opened ws = [] ->
  sessions (FileOpen f :: ws ++ rest)
  = (f, written ws ++ (sessions_from rest).1) :: sessions rest.
Proof.
  intros Hw. unfold sessions. cbn [sessions_from].
  rewrite (sessions_from_writes ws rest Hw). reflexivity.
Qed.

Lemma sessions_from_file f ws rest :
  (sessions_from (FileOpen f :: ws ++ rest)).1 = EmptyString.
Proof. cbn [sessions_from]. destruct (sessions_from (ws ++ rest)). reflexivity. Qed.


(** *** One file *)

Ltac steps_inv H :=
  apply io_seq_ok in H; destruct H as (?evss & H & ->);
  repeat (apply Forall2_cons_inv_l in H; destruct H as (?ev & ?evss & ?Hst & H & ->));
  apply Forall2_nil_inv_l in H; subst.

Ltac emitted :=
  repeat match goal with
         | H : open_file _ = Some (_, _) |- _ => injection H as <-
         | H : write_text _ = Some (_, _) |- _ => injection H as <-
         end.

Lemma endpoint_steps_ok fuel inl spec es ev :
  io_seq (map (endpoint_step fuel inl spec) es) = Some (Ok tt, ev) ->
  exists mds,
    ev = map FileWrite mds /\
    Forall2 (fun (e : endpoint) md =>
               fst <$> format_endpoint fuel (JObj spec) inl e.1.1 e.1.2 e.2 = Some (Ok md))
            es mds.
Proof.
  revert ev. induction es as [|[[path method] op] es IH]; intros ev; cbn [map io_seq].
  - intros [= <-]. exists []. split; [reflexivity|constructor].
  - intros H. apply io_bind_inv in H.
    destruct H as [(e & _ & He)|([] & evs1 & evs2 & Hst & Hrest & ->)]; [discriminate He|].
    destruct (IH _ Hrest) as (mds & -> & Hall).
    unfold endpoint_step, io_render in Hst.
    destruct (format_endpoint fuel (JObj spec) inl path method op) as [[[md|e] l]|] eqn:E;
      try discriminate Hst.
    cbn [io_bind write_text] in Hst. injection Hst as <-.
    exists (md :: mds). split; [reflexivity|].
    constructor; [|exact Hall]. cbn [fst snd]. rewrite E. reflexivity.
Qed.

Lemma category_file_ok fuel inl spec cats key evs :
  category_file lower fuel inl spec cats key = Some (Ok tt, evs) ->
  exists c ws,
    key = HStr c /\ evs = FileOpen (category_filename lower c) :: ws /\ opened ws = [] /\
    category_document fuel inl spec cats c (written ws).
Proof.
  destruct key as [|z|c]; try discriminate. unfold category_file. intros H.
  steps_inv H. emitted.
  destruct (endpoint_steps_ok _ _ _ _ _ Hst8) as (mds & -> & Hmds).
  pose proof (writes_only_category_info _ _ _ Hst2) as Hw2.
  pose proof (writes_only_servers_block _ _ _ Hst3) as Hw3.
  pose proof (writes_only_imap _ _ (fun _ _ => writes_only_write _) _ _ Hst6) as Hw6.
  eexists c, _. split; [reflexivity|]. split; [reflexivity|]. split.
  - cbn [concat app].
    repeat (rewrite ?opened_write, ?opened_app). rewrite Hw2, Hw3, Hw6, opened_writes.
    reflexivity.
  - cbn [concat app]. rewrite ?app_nil_r.
    repeat (rewrite ?written_write, ?written_app). rewrite written_writes.
    match goal with
    | |- category_document _ _ _ _ _ (?h ++ ?a ++ ?b ++ ?c0 ++ ?d ++ ?e ++ ?f ++ ?g ++ ?m) =>
        exists (a ++ b ++ c0 ++ d ++ e ++ f ++ g), mds
    end.
    split; [|exact Hmds]. rewrite !str_app_assoc. reflexivity.
Qed.

Lemma index_steps_ok cats keys ev :
  io_seq (map (index_step lower cats) keys) = Some (Ok tt, ev) ->
  exists tags,
    keys = map HStr tags /\
    ev = map FileWrite
           (map (fun c => listed_line lower c (length (tag_list (HStr c) cats))) tags).
Proof.
  revert ev. induction keys as [|k keys IH]; intros ev; cbn [map io_seq].
  - intros [= <-]. exists []. split; reflexivity.
  - intros H. apply io_bind_inv in H.
    destruct H as [(e & _ & He)|([] & evs1 & evs2 & Hst & Hrest & ->)]; [discriminate He|].
    destruct (IH _ Hrest) as (tags & -> & ->).
    unfold index_step, index_line in Hst. destruct k as [|z|c]; try discriminate Hst.
    cbn [io_lift io_bind write_text] in Hst. injection Hst as <-.
    exists (c :: tags). split; [reflexivity|].
    rewrite index_entry_text. reflexivity.
Qed.

Lemma index_file_ok spec cats evs :
  index_file lower spec cats = Some (Ok tt, evs) ->
  exists tags ws,
    sorted_keys (map fst cats) = Ok (map HStr tags) /\
    evs = FileOpen "index.md" :: ws /\ opened ws = [] /\
    index_document lower cats tags (written ws).
Proof.
  unfold index_file. intros H. steps_inv H. emitted.
  pose proof (writes_only_index_info _ _ _ Hst1) as Hw1.
  pose proof (writes_only_servers_block _ _ _ Hst2) as Hw2.
  apply io_bind_inv in Hst4.
  destruct Hst4 as [(e & _ & He)|(keys & evs1 & evs2 & Hk & Hsteps & ->)];
    [discriminate He|].
  injection Hk as Hk <-.
  destruct (index_steps_ok _ _ _ Hsteps) as (tags & -> & ->).
  eexists tags, _. split; [exact Hk|]. split; [reflexivity|]. split.
  - cbn [concat app].
    repeat (rewrite ?opened_write, ?opened_app). rewrite Hw1, Hw2, opened_writes.
    reflexivity.
  - cbn [concat app]. rewrite ?app_nil_r.
    repeat (rewrite ?written_write, ?written_app). rewrite written_writes.
    match goal with
    | |- index_document lower _ _ (_ ++ ?a ++ ?b ++ _) => exists (a ++ b)
    end.
    rewrite !str_app_assoc. reflexivity.
Qed.

(** *** All the files *)

Lemma category_files_ok fuel inl spec cats keys evs :
  io_seq (map (category_file lower fuel inl spec cats) keys) = Some (Ok tt, evs) ->
  exists docs : list (string * list event),
    keys = map (fun d => HStr d.1) docs /\
    evs = concat (map (file_events (category_filename lower)) docs) /\
    Forall (fun d => opened d.2 = [] /\
                     category_document fuel inl spec cats d.1 (written d.2)) docs.
Proof.
  revert evs. induction keys as [|k keys IH]; intros evs; cbn [map io_seq].
  - intros [= <-]. exists []. repeat split. constructor.
  - intros H. apply io_bind_inv in H.
    destruct H as [(e & _ & He)|([] & evs1 & evs2 & Hst & Hrest & ->)]; [discriminate He|].
    destruct (IH _ Hrest) as (docs & -> & -> & Hall).
    destruct (category_file_ok _ _ _ _ _ _ Hst) as (c & ws & -> & -> & Hw & Hdoc).
    exists ((c, ws) :: docs). repeat split. constructor; [split; assumption|exact Hall].
Qed.

Lemma sessions_files name (docs : list (string * list event)) rest :
  (sessions_from rest).1 = EmptyString ->
  Forall (fun d => opened d.2 = []) docs ->
  (sessions_from (concat (map (file_events name) docs) ++ rest)).1 = EmptyString /\
  sessions (concat (map (file_events name) docs) ++ rest)
  = (map (fun d => (name d.1, written d.2)) docs ++ sessions rest)%list.
Proof.
  intros Hrest. induction 1 as [|[c ws] docs Hw _ [IH1 IH2]]; [split; [exact Hrest|reflexivity]|].
  cbn [map concat fst snd] in *. rewrite <- app_assoc.
  split; [apply (sessions_from_file (name c) ws)|].
  change (file_events name (c, ws) ++ ?r)%list with (FileOpen (name c) :: ws ++ r)%list.
  rewrite (sessions_file _ ws _ Hw), IH1, IH2, str_app_nil_r. reflexivity.
Qed.

Lemma io_lift_bind_ok {A B} (o : outcome A) (f : A -> IO B) b evs :
  io_bind (io_lift o) f = Some (Ok b, evs) ->
  exists a, o = Ok a /\ f a = Some (Ok b, evs).
Proof.
  destruct o as [a|e]; [|discriminate]. cbn [io_lift io_bind].
  destruct (f a) as [[o' evs']|] eqn:E; [|discriminate]. intros [= -> <-].
  exists a. split; [reflexivity|exact E].
Qed.

Lemma chunk_files_ok fuel inl spec cats evs :
  chunk_files lower fuel inl spec cats = Some (Ok tt, evs) ->
  exists (docs : list (string * string)) (index_text : string),
    sorted_keys (map fst cats) = Ok (map HStr docs.*1) /\
    Forall (fun d => category_document fuel inl spec cats d.1 d.2) docs /\
    index_document lower cats docs.*1 index_text /\
    sessions evs
    = (map (fun d => (category_filename lower d.1, d.2)) docs ++ [("index.md", index_text)])%list.
Proof.
  unfold chunk_files. intros H. steps_inv H.
  apply io_lift_bind_ok in Hst. destruct Hst as (keys & Hkeys & Hfiles).
  destruct (category_files_ok _ _ _ _ _ _ Hfiles) as (docs & -> & -> & Hdocs).
  destruct (index_file_ok _ _ _ Hst0) as (tags & ws & Hkeys' & -> & Hw & Hindex).
  rewrite Hkeys in Hkeys'. injection Hkeys' as Htags.
  assert (tags = docs.*1) as ->.
  { apply map_HStr_inj. rewrite <- Htags, <- list_fmap_compose. reflexivity. }
  exists (map (fun d => (d.1, written d.2)) docs), (written ws).
  assert ((map (fun d : string * list event => (d.1, written d.2)) docs).*1 = docs.*1) as Hfst.
  { rewrite <- list_fmap_compose. reflexivity. }
  rewrite Hfst. split; [rewrite Hkeys, <- list_fmap_compose; reflexivity|].
  split; [|split; [exact Hindex|]].
  - apply Forall_fmap. eapply Forall_impl; [exact Hdocs|]. intros d [_ Hd]. exact Hd.
  - cbn [concat]. rewrite app_nil_r.
    destruct (sessions_files (category_filename lower) docs (FileOpen "index.md" :: ws))
      as [_ ->].
    + cbn [sessions_from]. destruct (sessions_from ws). reflexivity.
    + eapply Forall_impl; [exact Hdocs|]. intros d [Hd _]. exact Hd.
    + rewrite <- list_fmap_compose. f_equal.
      pose proof (sessions_file "index.md" ws [] Hw) as Hs.
      rewrite app_nil_r in Hs. rewrite Hs. cbn [sessions_from sessions fst snd].
      rewrite str_app_nil_r. reflexivity.
Qed.

Lemma generate_ok_inv fuel spec inl evs :
  generate_category_docs lower fuel spec inl = Some (Ok tt, evs) ->
  exists d cats docs index_text,
    spec = JObj d /\ group_endpoints spec = Ok cats /\
    documents_of lower fuel inl d cats docs index_text /\
    sessions evs
    = (map (fun doc => (category_filename lower doc.1, doc.2)) docs
       ++ [("index.md", index_text)])%list.
Proof.
  unfold generate_category_docs. intros H.
  apply io_lift_bind_ok in H. destruct H as (cats & Hcats & H).
  apply io_lift_bind_ok in H. destruct H as (d & Hd & H).
  destruct spec as [| | | | |d']; try discriminate Hd. injection Hd as ->.
  destruct (chunk_files_ok _ _ _ _ _ H) as (docs & index_text & Hkeys & Hdocs & Hindex & Hs).
  destruct (sorted_keys_strings _ _ Hkeys) as [Hsorted Hperm].
  exists d, cats, docs, index_text. repeat split; assumption.
Qed.


(** *** Termination *)

(** The operation of every record is a part of the document. *)
Lemma records_within d cats t (e : endpoint) :
  group_endpoints (JObj d) = Ok cats -> e ∈ tag_list t cats -> within (JObj e.2) (JObj d).
Proof.
  intros Hg He.
  destruct (group_endpoints_paths _ _ Hg) as (paths & Hpaths & Hfold).
  rewrite (tag_list_add_paths t _ _ _ Hfold) in He. cbn in He.
  apply under_tag_elem, document_insertions_elem in He.
  destruct He as (path & path_data & method & op & -> & Hp & Hm & _). cbn [snd].
  eapply within_trans; [exact (within_in _ _ _ Hm)|].
  eapply within_trans; [exact (within_in _ _ _ Hp)|].
  unfold dict_get_default in Hpaths.
  destruct (dict_get "paths" d) as [v|] eqn:E.
  - subst v. exact (within_get _ _ _ E).
  - injection Hpaths as <-. inversion Hp.
Qed.

Lemma io_bind_ext {A B} (m : IO A) (f1 f2 : A -> IO B) :
  (forall a, f1 a = f2 a) -> io_bind m f1 = io_bind m f2.
Proof.
  intros H. destruct m as [[[a|e] l]|]; simpl; try rewrite H; reflexivity.
Qed.

Lemma chunk_files_congruence fuel1 fuel2 inl d cats :
  (forall t (e : endpoint), e ∈ tag_list t cats ->
     format_endpoint fuel1 (JObj d) inl e.1.1 e.1.2 e.2
     = format_endpoint fuel2 (JObj d) inl e.1.1 e.1.2 e.2) ->
  chunk_files lower fuel1 inl d cats = chunk_files lower fuel2 inl d cats.
Proof.
  intros H.
  assert (forall key, category_file lower fuel1 inl d cats key = category_file lower fuel2 inl d cats key)
    as Hcat.
  { intros [|z|c]; [reflexivity|reflexivity|]. unfold category_file.
    rewrite (map_ext_in (endpoint_step fuel1 inl d) (endpoint_step fuel2 inl d)
               (default [] (cat_get (HStr c) cats))); [reflexivity|].
    intros [[path method] op] He. unfold endpoint_step.
    assert ((path, method, op) ∈ tag_list (HStr c) cats) as Hin
        by (apply list_elem_of_In; exact He).
    pose proof (H (HStr c) (path, method, op) Hin) as Heq. cbn [fst snd] in Heq.
    rewrite Heq. reflexivity. }
  unfold chunk_files. cbn [io_seq].
  apply (f_equal (fun m => io_bind m _)).
  apply io_bind_ext. intros keys. rewrite (map_ext _ _ Hcat). reflexivity.
Qed.

Lemma io_bind_defined {A B} (m : IO A) (f : A -> IO B) :
  is_Some m -> (forall a, is_Some (f a)) -> is_Some (io_bind m f).
Proof.
  intros [[[a|e] l] ->] Hf; simpl; [|eexists; reflexivity].
  destruct (Hf a) as [[o l'] ->]. eexists; reflexivity.
Qed.

Lemma io_seq_defined steps : Forall is_Some steps -> is_Some (io_seq steps).
Proof.
  induction 1 as [|st steps Hst _ IH]; cbn [io_seq]; [eexists; reflexivity|].
  apply io_bind_defined; [exact Hst|intros _; exact IH].
Qed.

Lemma writes_defined {X} (f : X -> string) l : is_Some (io_seq (map (fun x => write_text (f x)) l)).
Proof.
  apply io_seq_defined, Forall_forall. intros st Hst.
  apply list_elem_of_fmap in Hst. destruct Hst as (x & -> & _). eexists; reflexivity.
Qed.

Ltac defined_steps :=
  repeat first
    [ eexists; reflexivity
    | apply io_bind_defined; [|intros ?]
    | apply io_seq_defined; each_step ].

Lemma category_info_defined spec : is_Some (category_info spec).
Proof.
  unfold category_info. destruct (dict_get "info" spec); defined_steps.
  destruct (dict_get "description" _); defined_steps.
Qed.

Lemma index_info_defined spec : is_Some (index_info spec).
Proof.
  unfold index_info. destruct (dict_get "info" spec); defined_steps.
  destruct (dict_get "description" _); defined_steps.
Qed.

Lemma servers_block_defined spec : is_Some (servers_block spec).
Proof.
  unfold servers_block. destruct (dict_get "servers" spec); [|eexists; reflexivity].
  destruct (truthy j); [|eexists; reflexivity].
  apply io_seq_defined. each_step; try (eexists; reflexivity).
  apply io_bind_defined; [eexists; reflexivity|]. intros items.
  apply io_seq_defined, Forall_forall. intros st Hst.
  apply list_elem_of_fmap in Hst. destruct Hst as (x & -> & _).
  unfold server_step. defined_steps. destruct (truthy _); eexists; reflexivity.
Qed.

Lemma chunk_files_defined fuel inl d cats :
  (forall t (e : endpoint), e ∈ tag_list t cats ->
     is_Some (format_endpoint fuel (JObj d) inl e.1.1 e.1.2 e.2)) ->
  is_Some (chunk_files lower fuel inl d cats).
Proof.
  intros H. unfold chunk_files. apply io_seq_defined. each_step.
  - apply io_bind_defined; [eexists; reflexivity|]. intros keys.
    apply io_seq_defined, Forall_forall. intros st Hst.
    apply list_elem_of_fmap in Hst. destruct Hst as (key & -> & _).
    destruct key as [|z|c]; try (eexists; reflexivity).
    unfold category_file. apply io_seq_defined. each_step; try (eexists; reflexivity).
    + apply category_info_defined.
    + apply servers_block_defined.
    + apply io_seq_defined, Forall_imap_all. intros i e. eexists; reflexivity.
    + apply io_seq_defined, Forall_forall. intros st Hst.
      apply list_elem_of_fmap in Hst. destruct Hst as ([[path method] op] & -> & He).
      unfold endpoint_step.
      destruct (H (HStr c) _ He) as [[o l] Ho]. cbn [fst snd] in Ho. rewrite Ho.
      destruct o; eexists; reflexivity.
  - unfold index_file. apply io_seq_defined. each_step; try (eexists; reflexivity).
    + apply index_info_defined.
    + apply servers_block_defined.
    + apply io_bind_defined; [eexists; reflexivity|]. intros keys.
      apply io_seq_defined, Forall_forall. intros st Hst.
      apply list_elem_of_fmap in Hst. destruct Hst as (key & -> & _).
      unfold index_step. defined_steps.
Qed.

Lemma generate_total spec inl :
  exists res,
    forall fuel, fuel_bound spec spec ∅ < fuel ->
      generate_category_docs lower fuel spec inl = Some res.
Proof.
  unfold generate_category_docs.
  destruct (group_endpoints spec) as [cats|e] eqn:Hg;
    [|exists (Raise e, []); intros fuel _; reflexivity].
  destruct spec as [| | | | |d]; try discriminate Hg.
  cbn [io_lift io_bind as_dict].
  assert (forall fuel t (e : endpoint), fuel_bound (JObj d) (JObj d) ∅ < fuel ->
            e ∈ tag_list t cats ->
            format_endpoint fuel (JObj d) inl e.1.1 e.1.2 e.2
            = format_endpoint (S (fuel_bound (JObj d) (JObj d) ∅)) (JObj d) inl
                e.1.1 e.1.2 e.2) as Hsame.
  { intros fuel t e Hf He.
    destruct (format_endpoint_total (JObj d) inl e.1.1 e.1.2 e.2) as [res Hres].
    pose proof (fuel_bound_within _ _ (JObj d) ∅ (records_within d cats t e Hg He)) as Hle.
    rewrite !Hres by lia. reflexivity. }
  destruct (chunk_files_defined (S (fuel_bound (JObj d) (JObj d) ∅)) inl d cats)
    as [[o evs] Hres].
  { intros t e He.
    destruct (format_endpoint_total (JObj d) inl e.1.1 e.1.2 e.2) as [res Hres].
    pose proof (fuel_bound_within _ _ (JObj d) ∅ (records_within d cats t e Hg He)) as Hle.
    rewrite Hres by lia. eexists; reflexivity. }
  exists (o, ([] ++ ([] ++ evs))%list). intros fuel Hf.
  rewrite (chunk_files_congruence fuel (S (fuel_bound (JObj d) (JObj d) ∅)) inl d cats).
  - rewrite Hres. reflexivity.
  - intros t e He. apply (Hsame fuel t e Hf He).
Qed.

(** *** A larger budget changes no result *)

Lemma format_endpoint_mono fuel1 fuel2 doc inl path method op :
  fuel1 <= fuel2 ->
  carries_over (format_endpoint fuel1 doc inl path method op)
               (format_endpoint fuel2 doc inl path method op).
Proof.
  intros Hle.
  apply (format_endpoint_related (fun A w1 w2 => carries_over w1 w2) any_result
           (fun s => within s (JObj op))).
  - intros A a res H. exact H.
  - intros A B [a|e] f1 f2 _ Hf res; [|intros H; exact H].
    cbn [wlift wbind]. specialize (Hf a eq_refl).
    destruct (f1 a) as [[o l]|] eqn:E; [|discriminate].
    rewrite (Hf _ eq_refl). intros H; exact H.
  - intros A B m1 m2 f1 f2 Hm Hf res. unfold wbind.
    destruct m1 as [[[a|e] l]|]; [| |discriminate].
    + rewrite (Hm _ eq_refl). specialize (Hf a).
      destruct (f1 a) as [[o l']|] eqn:E; [|discriminate].
      rewrite (Hf _ eq_refl). intros H; exact H.
    + rewrite (Hm _ eq_refl). intros H; exact H.
  - intros n s _ res. unfold schema_at, wcall.
    destruct (format_schema fuel1 s doc n ∅ inl) as [r|] eqn:E; [|discriminate].
    rewrite (format_schema_mono _ _ _ _ _ _ _ _ Hle E). intros H; exact H.
  - apply operation_fine_within.
Qed.

Lemma carries_over_refl {A} (m : IO A) : carries_over m m.
Proof. intros res H. exact H. Qed.

Lemma carries_over_bind {A B} (m1 m2 : IO A) (f1 f2 : A -> IO B) :
  carries_over m1 m2 -> (forall a, carries_over (f1 a) (f2 a)) ->
  carries_over (io_bind m1 f1) (io_bind m2 f2).
Proof.
  intros Hm Hf res. unfold io_bind.
  destruct m1 as [[[a|e] l]|]; [| |discriminate].
  - rewrite (Hm _ eq_refl). specialize (Hf a).
    destruct (f1 a) as [[o l']|] eqn:E; [|discriminate].
    rewrite (Hf _ eq_refl). intros H; exact H.
  - rewrite (Hm _ eq_refl). intros H; exact H.
Qed.

Lemma carries_over_seq steps1 steps2 :
  Forall2 carries_over steps1 steps2 -> carries_over (io_seq steps1) (io_seq steps2).
Proof.
  induction 1 as [|s1 s2 l1 l2 Hs _ IH]; cbn [io_seq]; [apply carries_over_refl|].
  apply carries_over_bind; [exact Hs|intros _; exact IH].
Qed.

Lemma carries_over_map {X} (f1 f2 : X -> IO unit) l :
  (forall x, x ∈ l -> carries_over (f1 x) (f2 x)) ->
  carries_over (io_seq (map f1 l)) (io_seq (map f2 l)).
Proof.
  intros H. apply carries_over_seq. induction l as [|x l IH]; [constructor|].
  cbn [map]. constructor; [apply H; left|]. apply IH. intros y Hy. apply H. right. exact Hy.
Qed.

Lemma chunk_files_mono fuel1 fuel2 inl d cats :
  fuel1 <= fuel2 ->
  carries_over (chunk_files lower fuel1 inl d cats) (chunk_files lower fuel2 inl d cats).
Proof.
  intros Hle. unfold chunk_files. apply carries_over_seq.
  constructor; [|constructor; [apply carries_over_refl|constructor]].
  apply carries_over_bind; [apply carries_over_refl|]. intros keys.
  apply carries_over_map. intros [|z|c] _; [apply carries_over_refl..|].
  unfold category_file. apply carries_over_seq.
  do 9 (apply Forall2_cons; split; [apply carries_over_refl|]).
  apply Forall2_cons; split; [|constructor].
  apply carries_over_map. intros [[path method] op] _ res. unfold endpoint_step.
  pose proof (format_endpoint_mono fuel1 fuel2 (JObj d) inl path method op Hle) as Hm.
  unfold io_render.
  destruct (format_endpoint fuel1 (JObj d) inl path method op) as [[o l]|] eqn:E;
    [|discriminate].
  rewrite (Hm _ eq_refl). intros H; exact H.
Qed.

Lemma generate_mono fuel1 fuel2 spec inl :
  fuel1 <= fuel2 ->
  carries_over (generate_category_docs lower fuel1 spec inl)
               (generate_category_docs lower fuel2 spec inl).
Proof.
  intros Hle. unfold generate_category_docs.
  apply carries_over_bind; [apply carries_over_refl|]. intros cats.
  apply carries_over_bind; [apply carries_over_refl|]. intros d.
  apply chunk_files_mono, Hle.
Qed.

(** *** Conforming documents are written without an exception *)

Lemma targets_shaped_elem doc refs path :
  targets_shaped doc refs = true -> HStr path ∈ refs ->
  well_shaped (resolve_ref path doc) = true.
Proof.
  intros H Hin. apply elem_of_elements in Hin.
  exact (forallb_true_elem _ _ _ H Hin).
Qed.

Lemma own_ref_refs d p k :
  dict_get "$ref" d = Some p -> hash_key p = Ok k -> k ∈ refs_of (JObj d).
Proof.
  intros Hp Hk. cbn [refs_of]. apply elem_of_union_l. unfold own_ref.
  rewrite Hp, Hk. apply elem_of_singleton. reflexivity.
Qed.

Lemma shaped_targets_never_raise doc inl n :
  targets_shaped doc (refs_of doc) = true ->
  forall schema indent seen r,
    well_shaped schema = true -> refs_of schema ⊆ refs_of doc ->
    format_schema n schema doc indent seen inl = Some r ->
    is_ok (r_out r).
Proof.
  intros Hdoc. induction n as [|n IH]; intros schema indent seen r Hs Hsub; [discriminate|].
  simpl. unfold format_schema_body.
  destruct schema as [| | | | |d]; try (intros [= <-]; eexists; reflexivity).
  pose proof (well_shaped_dict d Hs) as Hf.
  destruct (dict_get "$ref" d) as [p|] eqn:Href.
  - destruct (facets_shaped_inv d Hf) as (Hp & _). rewrite Href in Hp.
    destruct p as [| | |path| |]; try discriminate Hp.
    unfold format_ref. cbn [hash_key resolve_ref_value].
    destruct (bool_decide (HStr path ∈ seen)); [intros [= <-]; eexists; reflexivity|].
    destruct inl; [|intros [= <-]; eexists; reflexivity].
    destruct (truthy (resolve_ref path doc)); [|intros [= <-]; eexists; reflexivity].
    unfold wcall.
    destruct (format_schema n (resolve_ref path doc) doc (indent + 1)
                ({[HStr path]} ∪ seen) true) as [r1|] eqn:E1; [|discriminate].
    intros [= <-]. cbn [r_out].
    destruct (resolve_ref_within path doc) as (_ & Hr & _).
    assert (well_shaped (resolve_ref path doc) = true) as Hw.
    { apply (targets_shaped_elem doc _ path Hdoc), Hsub.
      exact (own_ref_refs d (JStr path) _ Href eq_refl). }
    destruct (IH _ _ _ _ Hw Hr E1) as [sub ->]. eexists; reflexivity.
  - destruct (format_facets (format_schema n) d doc indent seen inl) as [[o l]|] eqn:E;
      [|discriminate].
    intros [= <-]. cbn [r_out].
    refine (proj1 (facets_wsat true (fun _ => True) (format_schema n) d doc indent seen inl
                     _ _ o l E) eq_refl).
    + intros _. exact Hf.
    + intros c j Hc. apply wsat_call. intros r1 Hr1. split; [|exact I].
      intros _. destruct (children_within d c Hc) as [(_ & Hr & _ & Hw) _].
      apply (IH _ _ _ _ (Hw Hs)) in Hr1; [exact Hr1|]. set_solver.
Qed.

Lemma content_fine_and G R1 R2 c :
  content_fine G R1 c -> content_fine any_result R2 c ->
  content_fine G (fun s => R1 s /\ R2 s) c.
Proof.
  intros [Hg H1] [_ H2]. split; [exact Hg|]. intros items Hi.
  specialize (H1 items Hi). specialize (H2 items Hi).
  apply Forall_forall. intros kv Hin.
  destruct (proj1 (Forall_forall _ _) H1 kv Hin) as [Hg1 Hr1].
  destruct (proj1 (Forall_forall _ _) H2 kv Hin) as [_ Hr2].
  split; [exact Hg1|]. intros s Hs. split; [apply Hr1|apply Hr2]; exact Hs.
Qed.

Lemma operation_fine_and G R1 R2 op :
  operation_fine G R1 op -> operation_fine any_result R2 op ->
  operation_fine G (fun s => R1 s /\ R2 s) op.
Proof.
  intros (Ht & Hp & Hb & Hr & Hs) (_ & Hp' & Hb' & Hr' & _).
  split; [exact Ht|]. split; [|split; [|split; [|exact Hs]]].
  - intros v Hv Htr. destruct (Hp v Hv Htr) as [Hg H1]. destruct (Hp' v Hv Htr) as [_ H2].
    split; [exact Hg|]. intros params Hi.
    specialize (H1 params Hi). specialize (H2 params Hi).
    apply Forall_forall. intros x Hin.
    destruct (proj1 (Forall_forall _ _) H1 x Hin) as [Hg1 Hr1].
    destruct (proj1 (Forall_forall _ _) H2 x Hin) as [_ Hr2].
    split; [exact Hg1|]. intros p s Hx Hsch. split; [eapply Hr1|eapply Hr2]; eassumption.
  - intros v Hv Htr. destruct (Hb v Hv Htr) as [Hg H1]. destruct (Hb' v Hv Htr) as [_ H2].
    split; [exact Hg|]. intros rb c Hrb Hc.
    apply content_fine_and; [eapply H1|eapply H2]; eassumption.
  - intros v Hv Htr. destruct (Hr v Hv Htr) as [Hg H1]. destruct (Hr' v Hv Htr) as [_ H2].
    split; [exact Hg|]. intros items Hi.
    specialize (H1 items Hi). specialize (H2 items Hi).
    apply Forall_forall. intros kv Hin.
    destruct (proj1 (Forall_forall _ _) H1 kv Hin) as (Hg1 & Hg2 & Hc1).
    destruct (proj1 (Forall_forall _ _) H2 kv Hin) as (_ & _ & Hc2).
    split; [exact Hg1|]. split; [exact Hg2|]. intros c Hc.
    apply content_fine_and; [apply Hc1|apply Hc2]; exact Hc.
Qed.

Lemma format_endpoint_conforming_in fuel doc inl path method op o l :
  operation_conforming op = true ->
  targets_shaped doc (refs_of doc) = true -> refs_of (JObj op) ⊆ refs_of doc ->
  format_endpoint fuel doc inl path method op = Some (o, l) -> is_ok o.
Proof.
  intros Hop Hdoc Hsub Hrun.
  refine (proj1 (format_endpoint_related
                   (fun A w1 _ => wsat true (fun _ => True) A w1) no_raise
                   (fun s => well_shaped s = true /\ within s (JObj op)) _ _ _
                   fuel fuel doc doc inl inl _ path method op
                   (operation_fine_and _ _ _ op (operation_fine_conforming op Hop)
                      (operation_fine_within op))
                   o l Hrun) eq_refl).
  - intros A a. apply wsat_ret.
  - intros A B o' f1 f2 Hg Hf. apply wsat_lift_bind; [intros _; exact Hg|exact Hf].
  - intros A B m1 m2 f1 f2. apply wsat_bind.
  - intros n s [Hs (_ & Hr & _)]. unfold schema_at. apply wsat_call. intros r Hr'.
    split; [|exact I]. intros _.
    apply (shaped_targets_never_raise doc inl fuel Hdoc s n ∅ r Hs); [|exact Hr'].
    set_solver.
Qed.

Lemma io_ok_seq steps : Forall io_ok steps -> io_ok (io_seq steps).
Proof.
  induction 1 as [|st steps ([] & ev & ->) _ ([] & evs & IH)]; cbn [io_seq].
  - eexists _, _. reflexivity.
  - cbn [io_bind]. rewrite IH. eexists _, _. reflexivity.
Qed.

Lemma io_ok_lift_bind {A B} (o : outcome A) (f : A -> IO B) a :
  o = Ok a -> io_ok (f a) -> io_ok (io_bind (io_lift o) f).
Proof. intros -> (b & evs & H). cbn [io_lift io_bind]. rewrite H. eexists _, _. reflexivity. Qed.

Lemma io_ok_map {X} (f : X -> IO unit) l :
  (forall x, x ∈ l -> io_ok (f x)) -> io_ok (io_seq (map f l)).
Proof.
  intros H. apply io_ok_seq, Forall_forall. intros st Hst.
  apply list_elem_of_fmap in Hst. destruct Hst as (x & -> & Hx). apply H, Hx.
Qed.

Lemma io_ok_emit e : io_ok (Some (Ok tt, [e])).
Proof. eexists _, _. reflexivity. Qed.

Lemma io_ok_ret {A} (a : A) : io_ok (io_ret a).
Proof. eexists _, _. reflexivity. Qed.

Ltac ok_steps :=
  apply io_ok_seq; each_step;
  try apply io_ok_emit; try apply io_ok_ret.

Lemma category_info_ok d :
  opt_all is_mapping (dict_get "info" d) = true -> io_ok (category_info d).
Proof.
  unfold category_info. destruct (dict_get "info" d) as [v|]; [|intros _; apply io_ok_ret].
  cbn [opt_all]. destruct v as [| | | | |info]; try discriminate. intros _.
  apply (io_ok_lift_bind _ _ info eq_refl). ok_steps.
  destruct (dict_get "description" info); [apply io_ok_emit|apply io_ok_ret].
Qed.

Lemma index_info_ok d :
  opt_all is_mapping (dict_get "info" d) = true -> io_ok (index_info d).
Proof.
  unfold index_info. destruct (dict_get "info" d) as [v|]; [|intros _; apply io_ok_ret].
  cbn [opt_all]. destruct v as [| | | | |info]; try discriminate. intros _.
  apply (io_ok_lift_bind _ _ info eq_refl). ok_steps.
  destruct (dict_get "description" info); [apply io_ok_emit|apply io_ok_ret].
Qed.

Lemma servers_block_ok d :
  opt_all servers_ok (dict_get "servers" d) = true -> io_ok (servers_block d).
Proof.
  unfold servers_block. destruct (dict_get "servers" d) as [v|]; [|intros _; apply io_ok_ret].
  cbn [opt_all]. unfold servers_ok.
  destruct (truthy v); [|intros _; apply io_ok_ret]. cbn [negb orb].
  destruct v as [| | | |items|]; try discriminate. intros Hall. ok_steps.
  apply (io_ok_lift_bind _ _ items eq_refl). apply io_ok_map. intros x Hx.
  pose proof (forallb_true_elem _ _ _ Hall Hx) as Hm.
  destruct x as [| | | | |server]; try discriminate Hm.
  unfold server_step. apply (io_ok_lift_bind _ _ server eq_refl). ok_steps.
  destruct (truthy _); [apply io_ok_emit|apply io_ok_ret].
Qed.

Lemma keys_have_records cats t :
  Forall (fun kv : hkey * list endpoint => kv.2 <> []) cats -> t ∈ map fst cats ->
  exists e, e ∈ tag_list t cats.
Proof.
  unfold tag_list. induction cats as [|[t0 es0] cats IH]; intros Hne Hin; [inversion Hin|].
  inversion Hne as [|? ? H0 Hrest]; subst. cbn [cat_get].
  destruct (decide (t0 = t)) as [->|Hdiff].
  - cbn [default]. cbn [snd] in H0. destruct es0 as [|e es0]; [congruence|].
    exists e. left.
  - apply IH; [exact Hrest|]. cbn [map fst] in Hin.
    apply elem_of_cons in Hin. destruct Hin as [->|Hin]; [congruence|exact Hin].
Qed.

Lemma operation_tags_strings op t :
  string_tags op = true -> t ∈ operation_tags op -> exists c, t = HStr c.
Proof.
  unfold string_tags, operation_tags.
  destruct (py_iter _) as [ts|]; [|discriminate]. intros Hall.
  destruct (omapM hash_key ts) as [hs|] eqn:E; [|intros H; inversion H].
  intros Hin. apply (omapM_ok_elem _ _ _ _ E) in Hin. destruct Hin as (x & Hx & Hk).
  pose proof (forallb_true_elem _ _ _ Hall Hx) as Hs.
  destruct x; try discriminate Hs. injection Hk as <-. eexists; reflexivity.
Qed.

Lemma record_documentable d paths cats t (e : endpoint) :
  dict_get_default "paths" (JObj []) d = JObj paths ->
  forallb path_documentable paths = true ->
  group_endpoints (JObj d) = Ok cats -> e ∈ tag_list t cats ->
  operation_conforming e.2 = true /\ exists c, t = HStr c.
Proof.
  intros Hpaths Hall Hg He.
  destruct (group_endpoints_paths _ _ Hg) as (paths' & Hpaths' & Hfold).
  rewrite Hpaths in Hpaths'. injection Hpaths' as <-.
  rewrite (tag_list_add_paths t _ _ _ Hfold) in He. cbn in He.
  apply under_tag_elem, document_insertions_elem in He.
  destruct He as (path & path_data & method & op & -> & Hp & Hm & Hhttp & Ht). cbn [snd].
  pose proof (forallb_true_elem _ _ _ Hall Hp) as Hpd. unfold path_documentable in Hpd.
  cbn [snd] in Hpd.
  pose proof (forallb_true_elem _ _ _ Hpd Hm) as Hop. unfold operation_documentable in Hop.
  cbn [fst snd] in Hop. rewrite Hhttp in Hop. apply andb_true_iff in Hop.
  destruct Hop as [Hst Hconf]. split; [exact Hconf|].
  exact (operation_tags_strings op t Hst Ht).
Qed.

Lemma documentable_groupable paths :
  forallb path_documentable paths = true -> forallb path_groupable paths = true.
Proof.
  intros H. apply forallb_forall. intros [p pd] Hin.
  pose proof (proj1 (forallb_forall _ _) H _ Hin) as Hpd.
  unfold path_documentable in Hpd. unfold path_groupable. cbn [snd] in *.
  destruct pd as [| | | | |ops]; try discriminate Hpd.
  apply forallb_forall. intros [m ed] Hm.
  pose proof (proj1 (forallb_forall _ _) Hpd _ Hm) as Hop.
  unfold operation_documentable in Hop. unfold operation_groupable. cbn [fst snd] in *.
  destruct (str_in (str_lower m) http_methods); [|reflexivity].
  destruct ed as [| | | | |op]; try discriminate Hop.
  apply andb_true_iff in Hop. destruct Hop as [Hst _]. unfold string_tags in Hst.
  destruct (py_iter _) as [ts|]; [|discriminate Hst].
  apply forallb_forall. intros x Hx.
  pose proof (proj1 (forallb_forall _ _) Hst _ Hx) as Hs. destruct x; try discriminate Hs.
  reflexivity.
Qed.

Lemma groupable_ok d : spec_groupable d = true -> is_ok (group_endpoints (JObj d)).
Proof.
  unfold group_endpoints, spec_groupable. cbn [as_dict obind].
  destruct (dict_get_default "paths" (JObj []) d) as [| | | | |paths]; try discriminate.
  cbn [py_items obind]. apply ofold_ok_iff. intros a y. apply add_path_ok_iff.
Qed.

Lemma sorted_keys_of_strings keys :
  (forall t, t ∈ keys -> exists c, t = HStr c) ->
  exists tags, sorted_keys keys = Ok (map HStr tags).
Proof.
  intros H.
  assert (forallb (fun k => bool_decide (is_Some (hkey_str k))) keys = true) as Hall.
  { apply forallb_forall. intros k Hk. apply list_elem_of_In in Hk.
    destruct (H k Hk) as [c ->]. apply bool_decide_eq_true. eexists; reflexivity. }
  unfold sorted_keys. destruct keys as [|k1 [|k2 keys]].
  - exists []. reflexivity.
  - destruct (H k1 ltac:(left)) as [c ->]. exists [c]. reflexivity.
  - unfold sort_comparable. rewrite Hall. eexists; reflexivity.
Qed.

Lemma chunk_files_io_ok fuel inl d cats :
  opt_all is_mapping (dict_get "info" d) = true ->
  opt_all servers_ok (dict_get "servers" d) = true ->
  (forall t, t ∈ map fst cats -> exists c, t = HStr c) ->
  (forall t (e : endpoint), e ∈ tag_list t cats ->
     exists md l, format_endpoint fuel (JObj d) inl e.1.1 e.1.2 e.2 = Some (Ok md, l)) ->
  io_ok (chunk_files lower fuel inl d cats).
Proof.
  intros Hinfo Hservers Hkeys Hep.
  destruct (sorted_keys_of_strings (map fst cats) Hkeys) as [tags Hs].
  unfold chunk_files. ok_steps.
  - apply (io_ok_lift_bind _ _ _ Hs). apply io_ok_map. intros key Hk.
    apply list_elem_of_fmap in Hk. destruct Hk as (c & -> & _).
    unfold category_file. ok_steps.
    + apply category_info_ok, Hinfo.
    + apply servers_block_ok, Hservers.
    + apply io_ok_seq, Forall_imap_all. intros i e. apply io_ok_emit.
    + apply io_ok_map. intros [[path method] op] He. unfold endpoint_step.
      destruct (Hep (HStr c) _ He) as (md & l & E). cbn [fst snd] in E. rewrite E.
      apply io_ok_emit.
  - unfold index_file. ok_steps.
    + apply index_info_ok, Hinfo.
    + apply servers_block_ok, Hservers.
    + apply (io_ok_lift_bind _ _ _ Hs). apply io_ok_map. intros key Hk.
      apply list_elem_of_fmap in Hk. destruct Hk as (c & -> & _).
      apply io_ok_emit.
Qed.

Lemma generate_conforming d inl fuel :
  document_conforming d = true -> fuel_bound (JObj d) (JObj d) ∅ < fuel ->
  io_ok (generate_category_docs lower fuel (JObj d) inl).
Proof.
  unfold document_conforming. rewrite !andb_true_iff.
  intros [[[Hinfo Hservers] Hpaths] Htargets] Hfuel.
  destruct (dict_get_default "paths" (JObj []) d) as [| | | | |paths] eqn:Ep;
    try discriminate Hpaths.
  destruct (groupable_ok d) as [cats Hg].
  { unfold spec_groupable. rewrite Ep. apply documentable_groupable, Hpaths. }
  unfold generate_category_docs.
  apply (io_ok_lift_bind _ _ cats Hg). apply (io_ok_lift_bind _ _ d eq_refl).
  destruct (group_endpoints_ok _ _ Hg) as [_ Hne].
  apply chunk_files_io_ok; [exact Hinfo|exact Hservers| |].
  - intros t Ht. destruct (keys_have_records cats t Hne Ht) as [e He].
    exact (proj2 (record_documentable d paths cats t e Ep Hpaths Hg He)).
  - intros t e He.
    destruct (record_documentable d paths cats t e Ep Hpaths Hg He) as [Hconf _].
    pose proof (records_within d cats t e Hg He) as Hw.
    destruct (format_endpoint_total (JObj d) inl e.1.1 e.1.2 e.2) as [[o l] Hres].
    pose proof (fuel_bound_within _ _ (JObj d) ∅ Hw) as Hle.
    specialize (Hres fuel ltac:(lia)).
    destruct (format_endpoint_conforming_in _ _ _ _ _ _ _ _ Hconf Htargets
                (proj1 (proj2 Hw)) Hres) as [md ->].
    exists md, l. exact Hres.
Qed.

(** *** What a failed run leaves *)








End DocumentLemmas.

(** *** The files of a run *)

(** X15.  When the generator completes, it has opened one file per tag, in
    ascending order of the tags, under the lower-cased tag with spaces
    replaced by underscores and [.md] appended, and [index.md] last; what
    it wrote to the file of a tag starts with the title of the tag and
    ends with the renderings of the endpoints listed under the tag, in the
    order of the list, and the index has one line per tag, with the length
    of the list of the tag.  (The calls of the file system are taken to
    succeed.) *)
Theorem category_files_then_index (lower : string -> string) (fuel : nat) (spec : json)
    (inline : bool) (evs : list event) :
  generate_category_docs lower fuel spec inline = Some (Ok tt, evs) ->
  exists d cats docs index_text,
    spec = JObj d /\ group_endpoints spec = Ok cats /\
    documents_of lower fuel inline d cats docs index_text /\
    sessions evs
    = (map (fun doc =>
              ((str_replace_char " "%char "_"%char (lower doc.1) ++ ".md")%string, doc.2))
           docs
       ++ [("index.md", index_text)])%list.
Proof.
  intros H.
  destruct (generate_ok_inv lower _ _ _ _ H) as (d & cats & docs & it & Hd & Hc & Ho & Hs).
  exists d, cats, docs, it. split; [exact Hd|]. split; [exact Hc|].
  split; [exact Ho|exact Hs].
Qed.

Lemma category_files_then_index_witness :
  let spec :=
    JObj [("paths", JObj [("/pets", JObj [("get", JObj [("tags", JArr [JStr "Pets"])]);
                                          ("post", JObj [("tags", JArr [JStr "Admin"])])])])] in
  exists evs,
    generate_category_docs str_lower 1 spec true = Some (Ok tt, evs) /\
    exists d cats docs index_text,
      spec = JObj d /\ group_endpoints spec = Ok cats /\
      documents_of str_lower 1 true d cats docs index_text /\
      sessions evs
      = (map (fun doc =>
                ((str_replace_char " "%char "_"%char (str_lower doc.1) ++ ".md")%string,
                 doc.2)) docs
         ++ [("index.md", index_text)])%list.
Proof.
  intros spec. eexists. split; [vm_compute; reflexivity|].
  apply (category_files_then_index str_lower 1 spec true). vm_compute. reflexivity.
Defined.



(** X17.  The generator terminates: for every document there is one
    result, the events and then a normal return or an exception, that
    every budget of nested calls above the bound of the document produces,
    and no smaller budget produces another. *)
Theorem generate_category_docs_terminates (lower : string -> string) (spec : json)
    (inline : bool) :
  exists res,
    (forall fuel, fuel_bound spec spec ∅ < fuel ->
       generate_category_docs lower fuel spec inline = Some res) /\
    (forall fuel res',
       generate_category_docs lower fuel spec inline = Some res' -> res' = res).
Proof.
  destruct (generate_total lower spec inline) as [res Hres]. exists res.
  split; [exact Hres|]. intros fuel res' H.
  pose proof (generate_mono lower fuel (fuel + S (fuel_bound spec spec ∅)) spec inline
                ltac:(lia) _ H) as H'.
  rewrite Hres in H' by lia. congruence.
Qed.

(** X18.  The interpreter's limit on the depth of recursion aside, and the
    calls of the file system taken to succeed, the generator writes all
    its files raising neither [TypeError] nor [AttributeError] for every
    document of the expected structure: [info] a mapping, [servers] a list
    of mappings, every path item a mapping whose entries under HTTP method
    names are conforming operations with strings as tags, and well-shaped
    values at the targets of the references of the document.  References
    that do not resolve and reference cycles only leave their markers in
    the documents. *)
Theorem conforming_document_never_raises (lower : string -> string) (d : dict)
    (inline : bool) :
  document_conforming d = true ->
  exists evs,
    forall fuel, fuel_bound (JObj d) (JObj d) ∅ < fuel ->
      generate_category_docs lower fuel (JObj d) inline = Some (Ok tt, evs).
Proof.
  intros Hd. destruct (generate_total lower (JObj d) inline) as [[o evs] Hres].
  destruct (generate_conforming lower d inline _ Hd (Nat.lt_succ_diag_r _))
    as ([] & evs' & Hok).
  rewrite Hres in Hok by lia. injection Hok as -> <-.
  exists evs. exact Hres.
Qed.

Lemma conforming_document_never_raises_witness :
  let d :=
    [("info", JObj [("title", JStr "Pets")]);
     ("servers", JArr [JObj [("url", JStr "https://pets.test")]]);
     ("paths",
      JObj [("/pets/{id}",
             JObj [("parameters", JArr []);
                   ("get",
                    JObj [("tags", JArr [JStr "Pets"]);
                          ("parameters",
                           JArr [JObj [("name", JStr "id"); ("required", JBool true);
                                       ("schema", JObj [("$ref", JStr "#/defs/Id")])]]);
                          ("responses",
                           JObj [("200",
                                  JObj [("content",
                                         JObj [("application/json",
                                                JObj [("schema",
                                                       JObj [("$ref", JStr "#/defs/Pet")])])])])])])])]);
     ("defs",
      JObj [("Id", JObj [("type", JStr "integer")]);
            ("Pet", JObj [("required", JArr [JStr "id"]);
                          ("properties",
                           JObj [("id", JObj [("$ref", JStr "#/defs/Id")]);
                                 ("mate", JObj [("$ref", JStr "#/defs/Pet")]);
                                 ("owner", JObj [("$ref", JStr "#/defs/Owner")])])])])] in
  exists evs,
    forall fuel, fuel_bound (JObj d) (JObj d) ∅ < fuel ->
      generate_category_docs str_lower fuel (JObj d) true = Some (Ok tt, evs).
Proof.
  intros d. apply (conforming_document_never_raises str_lower d true). vm_compute.
  reflexivity.
Defined.


